(** * The SPDX RDF resolution engine of [rdf/parser.go]

    A shallow embedding of the triple-to-object engine: the index of
    builders, the buffer of statements of unresolved nodes, the property
    tables with their closures, and the Go heap the builders write to. *)

From stdpp Require Import gmap strings list fin_maps.
From Stdlib Require Import ZArith Ascii.

Open Scope string_scope.

(** ** goraptor terms *)

(** [goraptor.Term] has three implementations; [Equals] compares the
    dynamic type and the contents. *)
Inductive Term :=
  | Uri (u : string)
  | Blank (id : string)
  | Literal (value lang datatype : string).

#[global] Instance Term_eq_dec : EqDecision Term.
Proof. solve_decision. Defined.

Definition Equals (a b : Term) : bool := bool_decide (a = b).

Definition uri (s : string) : Term := Uri s.
Definition blank (s : string) : Term := Blank s.

Record Statement := {
  Subject : Term;
  Predicate : Term;
  Object : Term;
}.

(** Modelled from the spec: [termStr] is declared outside [parser.go]; the
    node key is the URI string, the blank-node id or the literal value. *)
Definition termStr (term : Term) : string :=
  match term with
  | Uri u => u
  | Blank id => id
  | Literal value _ _ => value
  end.

(** ** Go's [strings] functions used by the parser (byte strings) *)

Definition HasPrefix (s pre : string) : bool := String.prefix pre s.

Fixpoint dropBytes (n : nat) (s : string) : string :=
  match n, s with
  | S n', String _ s' => dropBytes n' s'
  | _, _ => s
  end.

Definition TrimPrefix (s pre : string) : string :=
  if HasPrefix s pre then dropBytes (String.length pre) s else s.

(** [strings.Replace(s, old, new, 1)]: the first occurrence only. *)
Fixpoint Replace1 (s old new : string) : string :=
  if HasPrefix s old then new ++ dropBytes (String.length old) s
  else match s with
       | EmptyString => EmptyString
       | String c s' => String c (Replace1 s' old new)
       end.

(** ** Helpers of the package that [parser.go] uses but does not declare *)

(** [prefix], [shortPrefix] and [licenceUri] live in another file of the
    package; [strings.ToLower] and [strings.ToUpper] are Unicode aware.
    They are parameters of the whole development. *)
Record Helpers := {
  prefix : string -> Term;
  shortPrefix : Term -> string;
  licenceUri : string;
  ToLower : string -> string;
  ToUpper : string -> string;
}.

(** ** The spdx data model, as the parser uses it *)

(** Modelled from the spec: a source-location record, at minimum a line
    number; [spdx.NewMetaL] builds it from the locator's line. *)
Record Meta := NewMetaL { Line : Z }.

#[global] Instance Meta_eq_dec : EqDecision Meta.
Proof. solve_decision. Defined.

(** A heap address (Go pointer). *)
Abbreviation addr := nat.

(** An [spdx.AnyLicence] interface value.  [reqAnyLicence] returns licence
    references and typed sets by value ([*lic]) and extracted licences by
    pointer. *)
#[warnings="-register-all"]
Inductive AnyLicence :=
  | NilLicence
  | LicenceVal (id : string) (meta : option Meta)
  | ConjunctiveVal (members : list AnyLicence) (meta : option Meta)
  | DisjunctiveVal (members : list AnyLicence) (meta : option Meta)
  | ExtractedPtr (a : addr).

(** A struct field.  A field that is absent from the field map holds Go's
    zero value. *)
Inductive Value :=
  | VStr (val : string) (meta : option Meta)
  | VCreator (val : string) (meta : option Meta)
  | VDate (val : string) (meta : option Meta)
  | VStrs (l : list (string * option Meta))
  | VCreators (l : list (string * option Meta))
  | VPtr (a : option addr)
  | VPtrs (l : list addr)
  | VLic (lic : AnyLicence)
  | VLics (l : list AnyLicence).

Inductive StructType :=
  | Document | CreationInfo | Package | File | Checksum
  | VerificationCode | Review | ArtifactOf | ExtractedLicence.

#[global] Instance StructType_eq_dec : EqDecision StructType.
Proof. solve_decision. Defined.

(** [spdx.LicenceSet], [spdx.ConjunctiveLicenceSet] and
    [spdx.DisjunctiveLicenceSet]. *)
Inductive SetKind := AbstractSet | ConjunctiveSet | DisjunctiveSet.

#[global] Instance SetKind_eq_dec : EqDecision SetKind.
Proof. solve_decision. Defined.

(** What a pointer held by a builder points to. *)
Inductive Entity :=
  | Struct (ty : StructType) (meta : option Meta) (fields : gmap string Value)
  | Licence (id : string) (meta : option Meta)
  | LicenceSet (k : SetKind) (members : list AnyLicence) (meta : option Meta).

(** ** Errors *)

Inductive fmtArg := ArgTerm (t : Term) | ArgStr (s : string) | ArgPtr (a : addr).

Record message := Sprintf { format : string; args : list fmtArg }.

Definition msgIncompatibleTypes :=
  "%s is already set to be type %s and cannot be changed to type %s.".
Definition msgPropertyNotSupported := "Property %s is not supported for %s.".
Definition msgAlreadyDefined := "Property already defined.".
Definition msgUnknownType := "Found type %s which is unknown.".
Definition msgUnexpected :=
  "Unexpected error, an element of type AnyLicence cannot be casted to any licence type. %s || %#v".

(** [spdx.NewParseError] keeps the location it is given; [fmt.Errorf]
    builds an error that has none. *)
Inductive error :=
  | NewParseError (msg : message) (meta : option Meta)
  | Errorf (msg : message).

(** ** Builders and the parser state *)

Definition fieldptr : Type := addr * string.

(** The closures of the property tables, with the variables they capture:
    the [set] flag of [upd] and its siblings, [algoSet] of the checksum
    table.  [member] and [nsType] share the variable [set] of
    [licenceSetMap], which is kept in the builder. *)
Inductive reqKind :=
  | reqDocument | reqCreationInfo | reqPackage | reqFile | reqVerificationCode
  | reqChecksum | reqReview | reqExtractedLicence | reqArtifactOf.

Inductive updater :=
  | upd (set : bool) (ptr : fieldptr)
  | updCutPrefix (pre : string) (set : bool) (ptr : fieldptr)
  | updList (arr : fieldptr)
  | updCreator (set : bool) (ptr : fieldptr)
  | updDate (set : bool) (ptr : fieldptr)
  | updListCreator (arr : fieldptr)
  | refAssign (r : reqKind) (ptr : fieldptr)
  | refAppend (r : reqKind) (arr : fieldptr)
  | licAssign (ptr : fieldptr)
  | licAppend (arr : fieldptr)
  | algorithm (algoSet : bool) (cksum : addr)
  | member
  | nsType.

Record builder := {
  bldr_t : Term;
  bldr_ptr : addr;
  bldr_updaters : list (string * updater);
  bldr_set : addr;
}.

Record bufferEntry := {
  entry_stm : Statement;
  entry_meta : option Meta;
}.

(** The parser with the heap its builders point into.  A nil [*builder]
    stored in the index is [Some None]. *)
Record Parser := {
  index : gmap string (option builder);
  buffer : gmap string (list bufferEntry);
  doc : option addr;
  heap : list Entity;
}.

Definition NewParser : Parser :=
  {| index := ∅; buffer := ∅; doc := None; heap := [] |}.

Definition with_index (i : gmap string (option builder)) (p : Parser) : Parser :=
  {| index := i; buffer := buffer p; doc := doc p; heap := heap p |}.
Definition with_buffer (b : gmap string (list bufferEntry)) (p : Parser) : Parser :=
  {| index := index p; buffer := b; doc := doc p; heap := heap p |}.
Definition with_doc (d : option addr) (p : Parser) : Parser :=
  {| index := index p; buffer := buffer p; doc := d; heap := heap p |}.
Definition with_heap (h : list Entity) (p : Parser) : Parser :=
  {| index := index p; buffer := buffer p; doc := doc p; heap := h |}.

(** ** Results: a value, a Go error, a panic, or no fuel left *)

Inductive result (A : Type) :=
  | Ok (a : A) (p : Parser)
  | Err (e : error) (p : Parser)
  | Panic (p : Parser)
  | OutOfFuel.
Arguments Ok {A} a p.
Arguments Err {A} e p.
Arguments Panic {A} p.
Arguments OutOfFuel {A}.

Definition M (A : Type) : Type := Parser -> result A.

Definition ret {A} (a : A) : M A := fun p => Ok a p.
Definition throw {A} (e : error) : M A := fun p => Err e p.
Definition panic {A} : M A := fun p => Panic p.

Definition bind {A B} (m : M A) (k : A -> M B) : M B := fun p =>
  match m p with
  | Ok a p' => k a p'
  | Err e p' => Err e p'
  | Panic p' => Panic p'
  | OutOfFuel => OutOfFuel
  end.

Notation "x <- m ;; k" := (bind m (fun x => k))
  (at level 60, m at next level, right associativity).
Notation "m ;;; k" := (bind m (fun _ => k))
  (at level 60, right associativity).

(** [x, err := f()] followed by code that runs before [err] is returned. *)
Definition catch {A} (m : M A) : M (A + error) := fun p =>
  match m p with
  | Ok a p' => Ok (inl a) p'
  | Err e p' => Ok (inr e) p'
  | Panic p' => Panic p'
  | OutOfFuel => OutOfFuel
  end.

Fixpoint forEach {A} (l : list A) (f : A -> M unit) : M unit :=
  match l with
  | [] => ret tt
  | x :: l' => f x ;;; forEach l' f
  end.

(** ** Heap operations *)

Definition alloc (e : Entity) : M addr := fun p =>
  Ok (length (heap p)) (with_heap (heap p ++ [e]) p).

Definition load (a : addr) : M Entity := fun p =>
  match heap p !! a with
  | Some e => Ok e p
  | None => Panic p
  end.

Definition getField (ptr : fieldptr) : M (option Value) :=
  e <- load ptr.1 ;;
  match e with
  | Struct _ _ fields => ret (fields !! ptr.2)
  | _ => panic
  end.

Definition setField (ptr : fieldptr) (v : Value) : M unit :=
  e <- load ptr.1 ;;
  match e with
  | Struct ty meta fields => fun p =>
      Ok tt (with_heap (<[ptr.1 := Struct ty meta (<[ptr.2 := v]> fields)]> (heap p)) p)
  | _ => panic
  end.

(** ** Builder access through the index *)

Definition getBuilder (key : string) : M builder := fun p =>
  match index p !! key with
  | Some (Some b) => Ok b p
  | _ => Panic p
  end.

Definition setBuilder (key : string) (b : option builder) : M unit := fun p =>
  Ok tt (with_index (<[key := b]> (index p)) p).

Fixpoint lookupUpdater (m : list (string * updater)) (k : string) : option updater :=
  match m with
  | [] => None
  | (k', f) :: m' => if bool_decide (k' = k) then Some f else lookupUpdater m' k
  end.

Fixpoint storeUpdater (m : list (string * updater)) (k : string) (f : updater)
  : list (string * updater) :=
  match m with
  | [] => []
  | (k', f') :: m' =>
      if bool_decide (k' = k) then (k', f) :: m' else (k', f') :: storeUpdater m' k f
  end.

(** A closure assigns to a variable it captured. *)
Definition setClosure (key property : string) (f : updater) : M unit :=
  b <- getBuilder key ;;
  setBuilder key (Some {| bldr_t := bldr_t b; bldr_ptr := bldr_ptr b;
                          bldr_updaters := storeUpdater (bldr_updaters b) property f;
                          bldr_set := bldr_set b |}).

Definition builder_has (b : builder) (pred : string) : bool :=
  match lookupUpdater (bldr_updaters b) pred with
  | Some _ => true
  | None => false
  end.

(** ** The engine *)

Section Engine.

Variable H : Helpers.

(** RDF element types in URI format. *)
Definition uri_nstype := uri "http://www.w3.org/1999/02/22-rdf-syntax-ns#type".

Definition typeDocument := prefix H "SpdxDocument".
Definition typeCreationInfo := prefix H "CreationInfo".
Definition typePackage := prefix H "Package".
Definition typeFile := prefix H "File".
Definition typeVerificationCode := prefix H "PackageVerificationCode".
Definition typeChecksum := prefix H "Checksum".
Definition typeArtifactOf := prefix H "doap:Project".
Definition typeReview := prefix H "Review".
Definition typeExtractedLicence := prefix H "ExtractedLicensingInfo".
Definition typeAnyLicence := prefix H "AnyLicenseInfo".
Definition typeConjunctiveSet := prefix H "ConjunctiveLicenseSet".
Definition typeDisjunctiveSet := prefix H "DisjunctiveLicenseSet".
Definition typeLicence := prefix H "License".
Definition typeAbstractLicenceSet := blank "abstractLicenceSet".

(** [found == b || found.Equals(b)] for some [b] of [need]. *)
Definition equalTypes (found : Term) (need : list Term) : bool :=
  existsb (fun b => Equals found b) need.

Definition compatibleTypes (found need : Term) : bool :=
  if equalTypes found [need] then true
  else if equalTypes need [typeAnyLicence] then
    equalTypes found
      [typeExtractedLicence; typeConjunctiveSet; typeDisjunctiveSet; typeLicence]
  else false.

(** *** Property tables *)

Definition documentMap (doc : addr) : builder :=
  {| bldr_t := typeDocument; bldr_ptr := doc; bldr_set := doc;
     bldr_updaters := [
       ("specVersion", upd false (doc, "SpecVersion"));
       ("dataLicense", updCutPrefix (licenceUri H) false (doc, "DataLicence"));
       ("rdfs:comment", upd false (doc, "Comment"));
       ("creationInfo", refAssign reqCreationInfo (doc, "CreationInfo"));
       ("describesPackage", refAppend reqPackage (doc, "Packages"));
       ("referencesFile", refAppend reqFile (doc, "Files"));
       ("reviewed", refAppend reqReview (doc, "Reviews"));
       ("hasExtractedLicensingInfo",
          refAppend reqExtractedLicence (doc, "ExtractedLicences")) ] |}.

Definition creationInfoMap (cri : addr) : builder :=
  {| bldr_t := typeCreationInfo; bldr_ptr := cri; bldr_set := cri;
     bldr_updaters := [
       ("creator", updListCreator (cri, "Creator"));
       ("rdfs:comment", upd false (cri, "Comment"));
       ("created", updDate false (cri, "Created"));
       ("licenseListVersion", upd false (cri, "LicenceListVersion")) ] |}.

Definition reviewMap (rev : addr) : builder :=
  {| bldr_t := typeReview; bldr_ptr := rev; bldr_set := rev;
     bldr_updaters := [
       ("reviewer", updCreator false (rev, "Reviewer"));
       ("rdfs:comment", upd false (rev, "Comment"));
       ("reviewDate", updDate false (rev, "Date")) ] |}.

Definition packageMap (pkg : addr) : builder :=
  {| bldr_t := typePackage; bldr_ptr := pkg; bldr_set := pkg;
     bldr_updaters := [
       ("name", upd false (pkg, "Name"));
       ("versionInfo", upd false (pkg, "Version"));
       ("packageFileName", upd false (pkg, "FileName"));
       ("supplier", updCreator false (pkg, "Supplier"));
       ("originator", updCreator false (pkg, "Originator"));
       ("downloadLocation", upd false (pkg, "DownloadLocation"));
       ("packageVerificationCode",
          refAssign reqVerificationCode (pkg, "VerificationCode"));
       ("checksum", refAssign reqChecksum (pkg, "Checksum"));
       ("doap:homepage", upd false (pkg, "HomePage"));
       ("sourceInfo", upd false (pkg, "SourceInfo"));
       ("licenseConcluded", licAssign (pkg, "LicenceConcluded"));
       ("licenseInfoFromFiles", licAppend (pkg, "LicenceInfoFromFiles"));
       ("licenseDeclared", licAssign (pkg, "LicenceDeclared"));
       ("licenseComments", upd false (pkg, "LicenceComments"));
       ("copyrightText", upd false (pkg, "CopyrightText"));
       ("summary", upd false (pkg, "Summary"));
       ("description", upd false (pkg, "Description"));
       ("hasFile", refAppend reqFile (pkg, "Files")) ] |}.

Definition checksumMap (cksum : addr) : builder :=
  {| bldr_t := typeChecksum; bldr_ptr := cksum; bldr_set := cksum;
     bldr_updaters := [
       ("algorithm", algorithm false cksum);
       ("checksumValue", upd false (cksum, "Value")) ] |}.

Definition verificationCodeMap (vc : addr) : builder :=
  {| bldr_t := typeVerificationCode; bldr_ptr := vc; bldr_set := vc;
     bldr_updaters := [
       ("packageVerificationCodeValue", upd false (vc, "Value"));
       ("packageVerificationCodeExcludedFile", updList (vc, "ExcludedFiles")) ] |}.

Definition fileMap (file : addr) : builder :=
  {| bldr_t := typeFile; bldr_ptr := file; bldr_set := file;
     bldr_updaters := [
       ("fileName", upd false (file, "Name"));
       ("rdfs:comment", upd false (file, "Comment"));
       ("fileType", updCutPrefix "http://spdx.org/rdf/terms#" false (file, "Type"));
       ("checksum", refAssign reqChecksum (file, "Checksum"));
       ("copyrightText", upd false (file, "CopyrightText"));
       ("noticeText", upd false (file, "Notice"));
       ("licenseConcluded", licAssign (file, "LicenceConcluded"));
       ("licenseInfoInFile", licAppend (file, "LicenceInfoInFile"));
       ("licenseComments", upd false (file, "LicenceComments"));
       ("fileContributor", updList (file, "Contributor"));
       ("fileDependency", refAppend reqFile (file, "Dependency"));
       ("artifactOf", refAppend reqArtifactOf (file, "ArtifactOf")) ] |}.

Definition artifactOfMap (artif : addr) : builder :=
  {| bldr_t := typeArtifactOf; bldr_ptr := artif; bldr_set := artif;
     bldr_updaters := [
       ("doap:name", upd false (artif, "Name"));
       ("doap:homepage", upd false (artif, "HomePage")) ] |}.

Definition extractedLicensingInfoMap (lic : addr) : builder :=
  {| bldr_t := typeExtractedLicence; bldr_ptr := lic; bldr_set := lic;
     bldr_updaters := [
       ("licenseId", upd false (lic, "Id"));
       ("name", updList (lic, "Name"));
       ("extractedText", upd false (lic, "Text"));
       ("rdfs:comment", upd false (lic, "Comment"));
       ("rdfs:seeAlso", updList (lic, "CrossReference")) ] |}.

Definition licenceSetMap (set : addr) : builder :=
  {| bldr_t := typeAbstractLicenceSet; bldr_ptr := set; bldr_set := set;
     bldr_updaters := [ ("member", member); ("ns:type", nsType) ] |}.

Definition with_t (t : Term) (b : builder) : builder :=
  {| bldr_t := t; bldr_ptr := bldr_ptr b; bldr_updaters := bldr_updaters b;
     bldr_set := bldr_set b |}.

(** Modelled from the spec: [spdx.NewConjunctiveSet] and
    [spdx.NewDisjunctiveSet] build a set of the given kind that holds the
    given members in their order. *)
Definition conjunctiveSetBuilder (meta : option Meta) : M builder :=
  set <- alloc (LicenceSet ConjunctiveSet [] meta) ;;
  ret (with_t typeConjunctiveSet (licenceSetMap set)).

Definition disjuntiveSetBuilder (meta : option Meta) : M builder :=
  set <- alloc (LicenceSet DisjunctiveSet [] meta) ;;
  ret (with_t typeDisjunctiveSet (licenceSetMap set)).

(** The builder of a licence reference has a nil property table. *)
Definition licenceReferenceBuilder (node : Term) (meta : option Meta) : M builder :=
  lic <- alloc (Licence (TrimPrefix (termStr node) (licenceUri H)) meta) ;;
  ret {| bldr_t := typeLicence; bldr_ptr := lic; bldr_updaters := [];
         bldr_set := lic |}.

(** *** Requests, updaters and builder dispatch

    These call [setType] on unresolved nodes; the recursive call is a
    parameter here and is tied by fuel below. *)

Section Body.

Variable setType_rec : Term -> Term -> option Meta -> M addr.

Definition reqType (node t : Term) : M addr := fun p =>
  match index p !! termStr node with
  | Some (Some bldr) =>
      if negb (compatibleTypes (bldr_t bldr) t) then
        Err (Errorf (Sprintf msgIncompatibleTypes
                       [ArgTerm node; ArgTerm (bldr_t bldr); ArgTerm t])) p
      else Ok (bldr_ptr bldr) p
  | Some None => Panic p
  | None => setType_rec node t None p
  end.

Definition reqTerm (r : reqKind) : Term :=
  match r with
  | reqDocument => typeDocument
  | reqCreationInfo => typeCreationInfo
  | reqPackage => typePackage
  | reqFile => typeFile
  | reqVerificationCode => typeVerificationCode
  | reqChecksum => typeChecksum
  | reqReview => typeReview
  | reqExtractedLicence => typeExtractedLicence
  | reqArtifactOf => typeArtifactOf
  end.

Definition reqGoType (r : reqKind) : StructType :=
  match r with
  | reqDocument => Document
  | reqCreationInfo => CreationInfo
  | reqPackage => Package
  | reqFile => File
  | reqVerificationCode => VerificationCode
  | reqChecksum => Checksum
  | reqReview => Review
  | reqExtractedLicence => ExtractedLicence
  | reqArtifactOf => ArtifactOf
  end.

(** [reqDocument] ... [reqArtifactOf]: [reqType], then the type assertion
    to a pointer to the requested struct, which panics on another dynamic type. *)
Definition reqStruct (r : reqKind) (node : Term) : M addr :=
  obj <- reqType node (reqTerm r) ;;
  e <- load obj ;;
  match e with
  | Struct ty _ _ => if bool_decide (ty = reqGoType r) then ret obj else panic
  | _ => panic
  end.

Definition reqAnyLicence (node : Term) : M AnyLicence :=
  obj <- reqType node typeAnyLicence ;;
  e <- load obj ;;
  match e with
  | LicenceSet ConjunctiveSet members meta => ret (ConjunctiveVal members meta)
  | LicenceSet DisjunctiveSet members meta => ret (DisjunctiveVal members meta)
  | Licence id meta => ret (LicenceVal id meta)
  | Struct ExtractedLicence _ _ => ret (ExtractedPtr obj)
  | _ => throw (Errorf (Sprintf msgUnexpected [ArgTerm node; ArgPtr obj]))
  end.

Definition appendField (arr : fieldptr) (app : option Value -> Value) : M unit :=
  old <- getField arr ;;
  setField arr (app old).

Definition appStrs (x : string * option Meta) (old : option Value) : Value :=
  match old with Some (VStrs l) => VStrs (l ++ [x]) | _ => VStrs [x] end.
Definition appCreators (x : string * option Meta) (old : option Value) : Value :=
  match old with Some (VCreators l) => VCreators (l ++ [x]) | _ => VCreators [x] end.
Definition appPtrs (x : addr) (old : option Value) : Value :=
  match old with Some (VPtrs l) => VPtrs (l ++ [x]) | _ => VPtrs [x] end.
Definition appLics (x : AnyLicence) (old : option Value) : Value :=
  match old with Some (VLics l) => VLics (l ++ [x]) | _ => VLics [x] end.

(** Modelled from the spec: [Add] of the three set types appends the
    licence to the members. *)
Definition Add (set : addr) (lic : AnyLicence) : M unit :=
  e <- load set ;;
  match e with
  | LicenceSet k members meta => fun p =>
      Ok tt (with_heap (<[set := LicenceSet k (members ++ [lic]) meta]> (heap p)) p)
  | _ => panic
  end.

(** The closure stored under [property] in the table of the builder of
    [key], called with [(obj, meta)]. *)
Definition runUpdater (key property : string) (f : updater)
    (obj : Term) (meta : option Meta) : M unit :=
  match f with
  | upd set ptr =>
      if set then throw (NewParseError (Sprintf msgAlreadyDefined []) meta)
      else setField ptr (VStr (termStr obj) meta) ;;;
           setClosure key property (upd true ptr)
  | updCutPrefix pre set ptr =>
      if set then throw (NewParseError (Sprintf msgAlreadyDefined []) meta)
      else setField ptr (VStr (TrimPrefix (termStr obj) pre) meta) ;;;
           setClosure key property (updCutPrefix pre true ptr)
  | updList arr => appendField arr (appStrs (termStr obj, meta))
  | updCreator set ptr =>
      if set then throw (NewParseError (Sprintf msgAlreadyDefined []) meta)
      else setField ptr (VCreator (termStr obj) meta) ;;;
           setClosure key property (updCreator true ptr)
  | updDate set ptr =>
      if set then throw (NewParseError (Sprintf msgAlreadyDefined []) meta)
      else setField ptr (VDate (termStr obj) meta) ;;;
           setClosure key property (updDate true ptr)
  | updListCreator arr => appendField arr (appCreators (termStr obj, meta))
  | refAssign r ptr =>
      x <- catch (reqStruct r obj) ;;
      match x with
      | inl a => setField ptr (VPtr (Some a))
      | inr err => setField ptr (VPtr None) ;;; throw err
      end
  | refAppend r arr =>
      a <- reqStruct r obj ;;
      appendField arr (appPtrs a)
  | licAssign ptr =>
      x <- catch (reqAnyLicence obj) ;;
      match x with
      | inl lic => setField ptr (VLic lic)
      | inr err => setField ptr (VLic NilLicence) ;;; throw err
      end
  | licAppend arr =>
      lic <- reqAnyLicence obj ;;
      appendField arr (appLics lic)
  | algorithm algoSet cksum =>
      if algoSet then throw (NewParseError (Sprintf msgAlreadyDefined []) meta)
      else
        let str := Replace1 (termStr obj)
                     "http://spdx.org/rdf/terms#checksumAlgorithm_" "" in
        let str := ToUpper H str in
        setField (cksum, "Algo") (VStr str meta) ;;;
        setClosure key property (algorithm true cksum)
  | member =>
      lic <- reqAnyLicence obj ;;
      bldr <- getBuilder key ;;
      Add (bldr_set bldr) lic
  | nsType =>
      bldr <- getBuilder key ;;
      if negb (equalTypes (bldr_t bldr) [typeAbstractLicenceSet]) then
        throw (NewParseError (Sprintf msgAlreadyDefined []) meta)
      else
        tmpSet <- load (bldr_set bldr) ;;
        match tmpSet with
        | LicenceSet AbstractSet members tmpMeta =>
            let goodMeta := match tmpMeta with None => meta | Some _ => tmpMeta end in
            if equalTypes obj [typeConjunctiveSet] then
              conj <- alloc (LicenceSet ConjunctiveSet members goodMeta) ;;
              setBuilder key (Some {| bldr_t := typeConjunctiveSet; bldr_ptr := conj;
                                      bldr_updaters := bldr_updaters bldr;
                                      bldr_set := conj |})
            else if equalTypes obj [typeDisjunctiveSet] then
              disj <- alloc (LicenceSet DisjunctiveSet members goodMeta) ;;
              setBuilder key (Some {| bldr_t := typeDisjunctiveSet; bldr_ptr := disj;
                                      bldr_updaters := bldr_updaters bldr;
                                      bldr_set := disj |})
            else
              throw (NewParseError
                       (Sprintf msgIncompatibleTypes
                          [ArgStr "Licence Set"; ArgTerm (bldr_t bldr); ArgTerm obj])
                       meta)
        | _ => panic
        end
  end.

(** [(b *builder) apply], for the builder that the index holds at [key]. *)
Definition builder_apply (key : string) (pred obj : Term) (meta : option Meta)
  : M unit :=
  b <- getBuilder key ;;
  let property := shortPrefix H pred in
  match lookupUpdater (bldr_updaters b) property with
  | None =>
      throw (NewParseError
               (Sprintf msgPropertyNotSupported [ArgStr property; ArgTerm (bldr_t b)])
               meta)
  | Some f => runUpdater key property f obj meta
  end.

(** The [switch] of [setType]: [Some (Some b)] is a new builder, [Some None]
    the nil builder left by the inner type switch, [None] the default case. *)
Definition newBuilder (node t : Term) (meta : option Meta)
  : M (option (option builder)) :=
  let some (m : M builder) : M (option (option builder)) :=
    b <- m ;; ret (Some (Some b)) in
  let new (ty : StructType) (map : addr -> builder) : M (option (option builder)) :=
    some (a <- alloc (Struct ty meta ∅) ;; ret (map a)) in
  if Equals t typeDocument then
    some (a <- alloc (Struct Document meta ∅) ;;
          (fun p => Ok tt (with_doc (Some a) p)) ;;;
          ret (documentMap a))
  else if Equals t typeCreationInfo then new CreationInfo creationInfoMap
  else if Equals t typePackage then new Package packageMap
  else if Equals t typeChecksum then new Checksum checksumMap
  else if Equals t typeVerificationCode then new VerificationCode verificationCodeMap
  else if Equals t typeFile then new File fileMap
  else if Equals t typeReview then new Review reviewMap
  else if Equals t typeArtifactOf then
    let fields : gmap string Value :=
      match node with
      | Uri _ => {[ "ProjectUri" := VStr (termStr node) meta ]}
      | _ => ∅
      end in
    some (a <- alloc (Struct ArtifactOf meta fields) ;; ret (artifactOfMap a))
  else if Equals t typeExtractedLicence then
    new ExtractedLicence extractedLicensingInfoMap
  else if Equals t typeAnyLicence then
    match node with
    | Uri _ => some (licenceReferenceBuilder node meta)
    | Blank _ =>
        if HasPrefix (ToLower H (termStr node)) "licenseref" then
          new ExtractedLicence extractedLicensingInfoMap
        else
          some (a <- alloc (LicenceSet AbstractSet [] meta) ;; ret (licenceSetMap a))
    | Literal _ _ _ => ret (Some None)
    end
  else if Equals t typeLicence then some (licenceReferenceBuilder node meta)
  else if Equals t typeAbstractLicenceSet then
    some (a <- alloc (LicenceSet AbstractSet [] meta) ;; ret (licenceSetMap a))
  else if Equals t typeConjunctiveSet then some (conjunctiveSetBuilder meta)
  else if Equals t typeDisjunctiveSet then some (disjuntiveSetBuilder meta)
  else ret None.

Definition setType_body (node t : Term) (meta : option Meta) : M addr := fun p =>
  let nodeStr := termStr node in
  match index p !! nodeStr with
  | Some (Some bldr) =>
      if negb (equalTypes (bldr_t bldr) [t]) && builder_has bldr "ns:type" then
        (builder_apply nodeStr (uri "ns:type") t meta ;;;
         bldr <- getBuilder nodeStr ;;
         ret (bldr_ptr bldr)) p
      else if negb (compatibleTypes (bldr_t bldr) t) then
        Err (NewParseError
               (Sprintf msgIncompatibleTypes
                  [ArgTerm node; ArgTerm (bldr_t bldr); ArgTerm t]) meta) p
      else Ok (bldr_ptr bldr) p
  | Some None => Panic p
  | None =>
      (nb <- newBuilder node t meta ;;
       match nb with
       | None => throw (NewParseError (Sprintf msgUnknownType [ArgTerm t]) meta)
       | Some bldr =>
           setBuilder nodeStr bldr ;;;
           (* run buffer *)
           buf <- (fun p => Ok (default [] (buffer p !! nodeStr)) p) ;;
           forEach buf (fun stm =>
             builder_apply nodeStr (Predicate (entry_stm stm))
               (Object (entry_stm stm)) (entry_meta stm)) ;;;
           (fun p => Ok tt (with_buffer (delete nodeStr (buffer p)) p)) ;;;
           bldr <- getBuilder nodeStr ;;
           ret (bldr_ptr bldr)
       end) p
  end.

End Body.

Fixpoint setType_fuel (fuel : nat) (node t : Term) (meta : option Meta) : M addr :=
  match fuel with
  | O => fun _ => OutOfFuel
  | S fuel' => setType_body (setType_fuel fuel') node t meta
  end.

(** Nested [setType] calls are at most as deep as the number of buffered
    keys plus one (see [setType_terminates]). *)
Definition fuelOf (p : Parser) : nat := S (S (size (buffer p))).

Definition setType (node t : Term) (meta : option Meta) : M addr := fun p =>
  setType_fuel (fuelOf p) node t meta p.

Definition apply (key : string) (pred obj : Term) (meta : option Meta) : M unit :=
  fun p => builder_apply (setType_fuel (fuelOf p)) key pred obj meta p.

(** Process a SPDX Truple. *)
Definition processTruple (stm : Statement) (meta : option Meta) : M unit := fun p =>
  let node := termStr (Subject stm) in
  if Equals (Predicate stm) uri_nstype then
    (setType (Subject stm) (Object stm) meta ;;; ret tt) p
  else
    match index p !! node with
    | Some _ => apply node (Predicate stm) (Object stm) meta p
    | None =>
        Ok tt (with_buffer
                 (<[node := (default [] (buffer p !! node)
                             ++ [{| entry_stm := stm; entry_meta := meta |}])%list]>
                    (buffer p)) p)
    end.

(** The loop of [Parser.Parse] over the statement and locator channels. *)
Fixpoint parseLoop (input : list (Statement * Z)) : M unit :=
  match input with
  | [] => ret tt
  | (statement, line) :: rest =>
      processTruple statement (Some (NewMetaL line)) ;;; parseLoop rest
  end.

(** What [Parse] hands back: [p.doc], the error, and the heap [p.doc]
    points into (kept with the final parser state). *)
Inductive outcome :=
  | Returned (d : option addr) (err : option error) (p : Parser)
  | Panicked (p : Parser)
  | Diverged.

Definition Parse (input : list (Statement * Z)) : outcome :=
  match parseLoop input NewParser with
  | Ok _ p => Returned (doc p) None p
  | Err e p => Returned (doc p) (Some e) p
  | Panic p => Panicked p
  | OutOfFuel => Diverged
  end.

End Engine.

(** ** A concrete vocabulary, for running the engine on examples *)

Module Sample.

Definition lowerAscii (c : ascii) : ascii :=
  let n := nat_of_ascii c in
  if (65 <=? n)%nat && (n <=? 90)%nat then ascii_of_nat (n + 32) else c.

Definition upperAscii (c : ascii) : ascii :=
  let n := nat_of_ascii c in
  if (97 <=? n)%nat && (n <=? 122)%nat then ascii_of_nat (n - 32) else c.

Fixpoint mapBytes (f : ascii -> ascii) (s : string) : string :=
  match s with
  | EmptyString => EmptyString
  | String c s' => String (f c) (mapBytes f s')
  end.

Definition baseUri := "http://spdx.org/rdf/terms#".

Definition rdfPrefixes : list (string * string) :=
  [ ("ns:", "http://www.w3.org/1999/02/22-rdf-syntax-ns#");
    ("doap:", "http://usefulinc.com/ns/doap#");
    ("rdfs:", "http://www.w3.org/2000/01/rdf-schema#");
    ("", baseUri) ].

Fixpoint expand (table : list (string * string)) (k : string) : string :=
  match table with
  | [] => k
  | (short, long) :: table' =>
      if HasPrefix k short then long ++ dropBytes (String.length short) k
      else expand table' k
  end.

Fixpoint shorten (table : list (string * string)) (s : string) : string :=
  match table with
  | [] => s
  | (short, long) :: table' =>
      if HasPrefix s long then short ++ dropBytes (String.length long) s
      else shorten table' s
  end.

Definition helpers : Helpers :=
  {| prefix := fun k => Uri (expand rdfPrefixes k);
     shortPrefix := fun t => shorten rdfPrefixes (termStr t);
     licenceUri := "http://spdx.org/licenses/";
     ToLower := mapBytes lowerAscii;
     ToUpper := mapBytes upperAscii |}.

Definition stm (s p o : Term) : Statement :=
  {| Subject := s; Predicate := p; Object := o |}.

Definition a_type : Term := uri_nstype.
Definition prop (k : string) : Term := prefix helpers k.
Definition lit (s : string) : Term := Literal s "" "".

End Sample.

Open Scope list_scope.

(** ** Vocabulary of the statements *)

(** The four kinds that satisfy the AnyLicence capability, in the order of
    the call in [compatibleTypes]. *)
Definition licenceKinds (H : Helpers) : list Term :=
  [typeExtractedLicence H; typeConjunctiveSet H; typeDisjunctiveSet H; typeLicence H].

(** The type terms of the [switch] of [setType], in its order. *)
Definition typeTerms (H : Helpers) : list Term :=
  [typeDocument H; typeCreationInfo H; typePackage H; typeChecksum H;
   typeVerificationCode H; typeFile H; typeReview H; typeArtifactOf H;
   typeExtractedLicence H; typeAnyLicence H; typeLicence H;
   typeAbstractLicenceSet; typeConjunctiveSet H; typeDisjunctiveSet H].

(** [prefix] maps the fourteen type names to pairwise different terms. *)
Definition distinctTypes (H : Helpers) : bool := bool_decide (NoDup (typeTerms H)).

(** The single-valued scalar rules are the closures that guard their write
    with a captured flag; this is the flag. *)
Definition closureSet (f : updater) : option bool :=
  match f with
  | upd set _ | updCutPrefix _ set _ | updCreator set _ | updDate set _
  | algorithm set _ => Some set
  | _ => None
  end.

(** The field such a closure writes, and what it stores for [(obj, meta)]. *)
Definition closureTarget (f : updater) : fieldptr :=
  match f with
  | upd _ ptr | updCutPrefix _ _ ptr | updCreator _ ptr | updDate _ ptr => ptr
  | algorithm _ cksum => (cksum, "Algo")
  | updList ptr | updListCreator ptr | refAssign _ ptr | refAppend _ ptr
  | licAssign ptr | licAppend ptr => ptr
  | member | nsType => (0, "")
  end.

Definition closureStores (H : Helpers) (f : updater) (obj : Term) (meta : option Meta)
  : Value :=
  match f with
  | updCutPrefix pre _ _ => VStr (TrimPrefix (termStr obj) pre) meta
  | updCreator _ _ => VCreator (termStr obj) meta
  | updDate _ _ => VDate (termStr obj) meta
  | algorithm _ _ =>
      VStr (ToUpper H (Replace1 (termStr obj)
                         "http://spdx.org/rdf/terms#checksumAlgorithm_" "")) meta
  | _ => VStr (termStr obj) meta
  end.

Definition errorMeta (e : error) : option Meta :=
  match e with
  | NewParseError _ meta => meta
  | Errorf _ => None
  end.

Definition errorFormat (e : error) : string :=
  match e with
  | NewParseError msg _ | Errorf msg => format msg
  end.

(** The state a result carries. *)
Definition stateOf {A} (r : result A) : option Parser :=
  match r with
  | Ok _ p | Err _ p | Panic p => Some p
  | OutOfFuel => None
  end.

(** Postconditions by outcome: [I] after a value, [IE] with [E] after an
    error, [IE] after a panic, [F] when the fuel ran out. *)
Definition post {A} (I IE : Parser -> Prop) (E : error -> Prop) (F : Prop)
    (r : result A) : Prop :=
  match r with
  | Ok _ p' => I p'
  | Err e p' => IE p' /\ E e
  | Panic p' => IE p'
  | OutOfFuel => F
  end.

Definition preserves {A} (I IE : Parser -> Prop) (E : error -> Prop) (F : Prop)
    (m : M A) : Prop :=
  forall p, I p -> post I IE E F (m p).

(** How the two tables move: keys stay in the index, and a buffer entry is
    either untouched or deleted for a key that entered the index meanwhile. *)
Definition evolves (p p' : Parser) : Prop :=
  (forall k, is_Some (index p !! k) -> is_Some (index p' !! k))
  /\ (forall k, buffer p' !! k = buffer p !! k
               \/ (buffer p' !! k = None /\ index p !! k = None
                   /\ is_Some (index p' !! k))).

(** The buffered keys that have no builder yet. *)
Definition pending (p : Parser) : gset string := dom (buffer p) ∖ dom (index p).

(** The pending keys of a state are among those of [X]. *)
Definition shrinks (X : gset string) (p : Parser) : Prop := pending p ⊆ X.

(** No key outside [S] has both a builder in the index and an entry in the
    buffer; [exclusive] is the invariant of the pending buffer. *)
Definition exclusiveExcept (S : gset string) (p : Parser) : Prop :=
  forall k, is_Some (index p !! k) -> is_Some (buffer p !! k) -> k ∈ S.

Definition exclusive (p : Parser) : Prop :=
  forall k, is_Some (index p !! k) -> buffer p !! k = None.

(** Every buffered statement has a location that satisfies [A]. *)
Definition bufferedIn (A : option Meta -> Prop) (p : Parser) : Prop :=
  forall k entries x, buffer p !! k = Some entries -> x ∈ entries -> A (entry_meta x).

(** An error of [spdx.NewParseError] has a location that satisfies [A]; an
    error of [fmt.Errorf] is one of the two the requests build. *)
Definition located (A : option Meta -> Prop) (e : error) : Prop :=
  match e with
  | NewParseError _ meta => A meta
  | Errorf msg => format msg ∈ [msgIncompatibleTypes; msgUnexpected]
  end.

(** [m2] does what [m1] does wherever [m1] has fuel enough. *)
Definition refines {A} (m1 m2 : M A) : Prop :=
  forall p, m1 p <> OutOfFuel -> m2 p = m1 p.

(** The state without the buffer entry of [k0]. *)
Definition strip (k0 : string) (p : Parser) : Parser :=
  with_buffer (delete k0 (buffer p)) p.

Definition mapState {A} (f : Parser -> Parser) (r : result A) : result A :=
  match r with
  | Ok a p => Ok a (f p)
  | Err e p => Err e (f p)
  | Panic p => Panic (f p)
  | OutOfFuel => OutOfFuel
  end.

(** [m] keeps the keys of the index, and when it ends with [k0] still
    unresolved it does the same with and without the buffer entry of [k0]. *)
Definition commutes (k0 : string) {A} (m : M A) : Prop :=
  forall p p',
    stateOf (m p) = Some p' ->
    (forall k, is_Some (index p !! k) -> is_Some (index p' !! k))
    /\ (index p' !! k0 = None -> m (strip k0 p) = mapState (strip k0) (m p)).

(** The statements that [processTruple] buffers under the key [k0]. *)
Definition bufferedFor (k0 : string) (x : Statement * Z) : bool :=
  bool_decide (termStr (Subject x.1) = k0) && negb (Equals (Predicate x.1) uri_nstype).

Definition mapOutcome (f : Parser -> Parser) (o : outcome) : outcome :=
  match o with
  | Returned d err p => Returned d err (f p)
  | Panicked p => Panicked (f p)
  | Diverged => Diverged
  end.

Definition finalState (o : outcome) : option Parser :=
  match o with
  | Returned _ _ p | Panicked p => Some p
  | Diverged => None
  end.

(** The state in which the struct at address [a] has lost its location. *)
Definition eraseMeta (e : Entity) : Entity :=
  match e with
  | Struct ty _ fields => Struct ty None fields
  | _ => e
  end.

Definition eraseAt (a : addr) (p : Parser) : Parser :=
  with_heap (alter eraseMeta a (heap p)) p.

(** [m] does the same, up to the location of the struct at [a], on two
    states that differ in that location only. *)
Definition respects (a : addr) {A} (m : M A) : Prop :=
  forall p q,
    eraseAt a p = eraseAt a q ->
    mapState (eraseAt a) (m p) = mapState (eraseAt a) (m q).

(** The builder that [setType] constructs for the kind a request asks
    for, around the entity at [a]. *)
Definition builderOf (H : Helpers) (r : reqKind) (a : addr) : builder :=
  match r with
  | reqDocument => documentMap H a
  | reqCreationInfo => creationInfoMap H a
  | reqPackage => packageMap H a
  | reqFile => fileMap H a
  | reqVerificationCode => verificationCodeMap H a
  | reqChecksum => checksumMap H a
  | reqReview => reviewMap H a
  | reqExtractedLicence => extractedLicensingInfoMap H a
  | reqArtifactOf => artifactOfMap H a
  end.

(** The state after the construction of such an entity with location [meta]. *)
Definition created (r : reqKind) (meta : option Meta) (p : Parser) : Parser :=
  let p' := with_heap (heap p ++ [Struct (reqGoType r) meta ∅]) p in
  match r with
  | reqDocument => with_doc (Some (length (heap p))) p'
  | _ => p'
  end.

(** The property [prop] of node [kN] is a single reference assigned to the
    field [ptr]; the node [kM] has the fixed kind [T] and the struct at [a];
    both structs are on the heap. *)
Definition settled (kN prop : string) (r : reqKind) (ptr : fieldptr)
    (kM : string) (T : Term) (a : addr) (p : Parser) : Prop :=
  (exists b, index p !! kN = Some (Some b)
             /\ lookupUpdater (bldr_updaters b) prop = Some (refAssign r ptr))
  /\ (exists b, index p !! kM = Some (Some b)
                /\ bldr_t b = T /\ bldr_ptr b = a
                /\ forall k, lookupUpdater (bldr_updaters b) k <> Some nsType)
  /\ (exists m fields, heap p !! a = Some (Struct (reqGoType r) m fields))
  /\ (exists ty m fields, heap p !! ptr.1 = Some (Struct ty m fields)).

(** How two results compare: values up to the location at [a], errors as
    they are. *)
Definition sameUpTo (a : addr) (r1 r2 : result unit) : Prop :=
  match r1, r2 with
  | Ok _ q1, Ok _ q2 => eraseAt a q1 = eraseAt a q2
  | Err e1 q1, Err e2 q2 => e1 = e2 /\ doc q1 = doc q2
  | Panic _, Panic _ => True
  | _, _ => False
  end.

(** Two outcomes of [Parse] agree up to the location of the struct at [a]:
    the same document pointer and the same error, and after a parse without
    error the same state once that location is erased. *)
Definition agreeUpTo (a : addr) (o1 o2 : outcome) : Prop :=
  match o1, o2 with
  | Returned d1 e1 p1, Returned d2 e2 p2 =>
      d1 = d2 /\ e1 = e2 /\ (e1 = None -> eraseAt a p1 = eraseAt a p2)
  | Panicked _, Panicked _ => True
  | _, _ => False
  end.

(** The location recorded in the entity at [a]. *)
Definition metaAt (a : addr) (p : Parser) : option (option Meta) :=
  match heap p !! a with
  | Some (Struct _ m _) | Some (Licence _ m) | Some (LicenceSet _ _ m) => Some m
  | None => None
  end.

(** The rules of an abstract licence set, as [licenceSetMap] lists them. *)
Definition licenceSetTable : list (string * updater) :=
  [("member", member); ("ns:type", nsType)].

(** The part of [setType] that follows the construction of the builder:
    register it, run the buffer, delete the buffer entry. *)
Definition registerAndReplay (H : Helpers) (rec : Term -> Term -> option Meta -> M addr)
    (nodeStr : string) (bldr : option builder) : M addr :=
  setBuilder nodeStr bldr ;;;
  buf <- (fun p => Ok (default [] (buffer p !! nodeStr)) p) ;;
  forEach buf (fun stm =>
    builder_apply H rec nodeStr (Predicate (entry_stm stm))
      (Object (entry_stm stm)) (entry_meta stm)) ;;;
  (fun p => Ok tt (with_buffer (delete nodeStr (buffer p)) p)) ;;;
  bldr <- getBuilder nodeStr ;;
  ret (bldr_ptr bldr).

(** *** States that the engine keeps well formed *)

(** The Go type of an entity: what a type assertion on a pointer sees. *)
Inductive shape := ShStruct (ty : StructType) | ShLicence | ShSet (k : SetKind).

Definition shapeOf (e : Entity) : shape :=
  match e with
  | Struct ty _ _ => ShStruct ty
  | Licence _ _ => ShLicence
  | LicenceSet k _ _ => ShSet k
  end.

Definition shapeAt (h : list Entity) (a : addr) : option shape := shapeOf <$> h !! a.

(** A closure with its captured flag reset, and a table of such closures. *)
Definition unset (f : updater) : updater :=
  match f with
  | upd _ ptr => upd false ptr
  | updCutPrefix pre _ ptr => updCutPrefix pre false ptr
  | updCreator _ ptr => updCreator false ptr
  | updDate _ ptr => updDate false ptr
  | algorithm _ cksum => algorithm false cksum
  | _ => f
  end.

Definition unsetTable (m : list (string * updater)) : list (string * updater) :=
  map (fun x => (x.1, unset x.2)) m.

(** The kinds of builder that [setType] constructs. *)
Inductive builderKind := KStruct (r : reqKind) | KLicence | KSet (k : SetKind).

Definition kindTerm (H : Helpers) (bk : builderKind) : Term :=
  match bk with
  | KStruct r => reqTerm H r
  | KLicence => typeLicence H
  | KSet AbstractSet => typeAbstractLicenceSet
  | KSet ConjunctiveSet => typeConjunctiveSet H
  | KSet DisjunctiveSet => typeDisjunctiveSet H
  end.

Definition kindShape (bk : builderKind) : shape :=
  match bk with
  | KStruct r => ShStruct (reqGoType r)
  | KLicence => ShLicence
  | KSet k => ShSet k
  end.

(** The position of the kind's type term in [typeTerms]. *)
Definition kindIndex (bk : builderKind) : nat :=
  match bk with
  | KStruct reqDocument => 0
  | KStruct reqCreationInfo => 1
  | KStruct reqPackage => 2
  | KStruct reqChecksum => 3
  | KStruct reqVerificationCode => 4
  | KStruct reqFile => 5
  | KStruct reqReview => 6
  | KStruct reqArtifactOf => 7
  | KStruct reqExtractedLicence => 8
  | KLicence => 10
  | KSet AbstractSet => 11
  | KSet ConjunctiveSet => 12
  | KSet DisjunctiveSet => 13
  end.

(** The property table of a builder of the kind, around the entity at [a],
    as the [*Map] function of the kind builds it. *)
Definition kindTable (H : Helpers) (bk : builderKind) (a : addr)
  : list (string * updater) :=
  match bk with
  | KStruct r => bldr_updaters (builderOf H r a)
  | KLicence => []
  | KSet _ => licenceSetTable
  end.

(** A builder of some kind: its pointer is to an entity of the Go type of
    the kind, and its table is the table of the kind up to the flags that
    the closures have set. *)
Definition wfBuilder (H : Helpers) (h : list Entity) (b : builder) : Prop :=
  exists bk,
    bldr_t b = kindTerm H bk
    /\ bldr_set b = bldr_ptr b
    /\ shapeAt h (bldr_ptr b) = Some (kindShape bk)
    /\ unsetTable (bldr_updaters b) = kindTable H bk (bldr_ptr b).

(** The index holds such builders only, none of them nil, and [p.doc]
    points to a document. *)
Definition wf (H : Helpers) (p : Parser) : Prop :=
  (forall key ob, index p !! key = Some ob ->
                  exists b, ob = Some b /\ wfBuilder H (heap p) b)
  /\ (forall a, doc p = Some a -> shapeAt (heap p) a = Some (ShStruct Document)).

(** What may happen to the builder of a node: its closures set their
    flags, and an abstract licence set is promoted. *)
Definition stays (H : Helpers) (b b' : builder) : Prop :=
  unsetTable (bldr_updaters b') = unsetTable (bldr_updaters b)
  /\ (bldr_t b' = bldr_t b /\ bldr_ptr b' = bldr_ptr b
      \/ bldr_t b = typeAbstractLicenceSet
         /\ bldr_t b' ∈ [typeConjunctiveSet H; typeDisjunctiveSet H]).

(** From [p] to [p']: every entity keeps its address and its Go type, and
    every resolved node keeps a builder, changed by [stays] at most. *)
Definition grows (H : Helpers) (p p' : Parser) : Prop :=
  (forall a s, shapeAt (heap p) a = Some s -> shapeAt (heap p') a = Some s)
  /\ (forall key b, index p !! key = Some (Some b) ->
                    exists b', index p' !! key = Some (Some b') /\ stays H b b').

Definition moves (H : Helpers) (d : bool) (p p' : Parser) : Prop :=
  wf H p' /\ grows H p p' /\ (d = true -> doc p' = doc p).

Definition nilBuilder (p : Parser) : Prop := exists k, index p !! k = Some None.

(** The result of a run from [p]: a value or an error in a state that [p]
    has moved to, or a panic with a nil builder in the index. *)
Definition run (H : Helpers) (d : bool) (p : Parser) {A} (r : result A)
    (Q : A -> Parser -> Prop) : Prop :=
  match r with
  | Ok a p' => moves H d p p' /\ Q a p'
  | Err _ p' => moves H d p p'
  | Panic p' => nilBuilder p'
  | OutOfFuel => True
  end.

(** What the table of a kind holds: closures on the fields of the entity
    of the builder, requests for kinds other than the document, and the two
    closures of the licence sets in the tables of sets only. *)
Definition entryOK (bk : builderKind) (a : addr) (f : updater) : Prop :=
  match f with
  | upd _ ptr | updCutPrefix _ _ ptr | updList ptr | updCreator _ ptr
  | updDate _ ptr | updListCreator ptr | licAssign ptr | licAppend ptr =>
      ptr.1 = a /\ exists r, bk = KStruct r
  | refAssign r ptr | refAppend r ptr =>
      ptr.1 = a /\ r <> reqDocument /\ exists r', bk = KStruct r'
  | algorithm _ cksum => cksum = a /\ exists r, bk = KStruct r
  | member | nsType => exists k, bk = KSet k
  end.

(** A type assertion that names the document type. *)
Definition namesDocument (H : Helpers) (stm : Statement) : bool :=
  Equals (Predicate stm) uri_nstype && Equals (Object stm) (typeDocument H).

(** [setType] has returned the pointer of the builder that the index holds
    for the node; the builder has the type that was asked for, unless that
    was the generic licence type or the abstract set. *)
Definition builtAs (H : Helpers) (node t : Term) (a : addr) (p' : Parser) : Prop :=
  exists b, index p' !! termStr node = Some (Some b) /\ bldr_ptr b = a
            /\ (t = typeAnyLicence H \/ t = typeAbstractLicenceSet \/ bldr_t b = t).

(** *** Buffers, list-valued fields and reachable states *)

(** The buffer entries that [Parse] makes of the statements of its input. *)
Definition entriesOf (input : list (Statement * Z)) : list bufferEntry :=
  map (fun x => {| entry_stm := x.1; entry_meta := Some (NewMetaL x.2) |}) input.

(** The two closures of the list-valued string properties, [updList] and
    [updListCreator], with the items and the value of their fields. *)
Definition listClosure (creators : bool) (arr : fieldptr) : updater :=
  if creators then updListCreator arr else updList arr.

Definition listItems (creators : bool) (v : option Value)
  : list (string * option Meta) :=
  match creators, v with
  | false, Some (VStrs l) => l
  | true, Some (VCreators l) => l
  | _, _ => []
  end.

Definition listValue (creators : bool) (l : list (string * option Meta)) : Value :=
  if creators then VCreators l else VStrs l.

(** The states that [Parse] goes through on some input. *)
Definition reachable (H : Helpers) (p : Parser) : Prop :=
  exists input, parseLoop H input NewParser = Ok tt p.

(** *** The frame of a resolved node *)

(** The node [k0] has a builder. *)
Definition resolvedAt (k0 : string) (p : Parser) : Prop :=
  exists b, index p !! k0 = Some (Some b).

(** While [k0] has a builder, [m] does the same with and without the buffer
    entry of [k0], and leaves [k0] with a builder. *)
Definition frames (k0 : string) {A} (m : M A) : Prop :=
  forall p, resolvedAt k0 p ->
    m (strip k0 p) = mapState (strip k0) (m p)
    /\ forall p', stateOf (m p) = Some p' -> resolvedAt k0 p'.

(** The replay of buffer entries through the builder of [key]. *)
Definition replay (H : Helpers) (rec : Term -> Term -> option Meta -> M addr)
    (key : string) (buf : list bufferEntry) : M unit :=
  forEach buf (fun stm =>
    builder_apply H rec key (Predicate (entry_stm stm)) (Object (entry_stm stm))
      (entry_meta stm)).

(** ** Basic facts *)

Lemma equalTypes_true found need : equalTypes found need = true <-> found ∈ need.
Proof.
  unfold equalTypes, Equals. rewrite existsb_exists. split.
  - intros (b & Hin & Hb). apply bool_decide_eq_true in Hb. subst.
    by apply list_elem_of_In.
  - intros Hin. exists found.
    split; [by apply list_elem_of_In | by apply bool_decide_eq_true].
Qed.

Lemma equalTypes_false found need : equalTypes found need = false <-> found ∉ need.
Proof. rewrite <- not_true_iff_false, equalTypes_true. done. Qed.

Lemma equalTypes_single found need :
  equalTypes found [need] = bool_decide (found = need).
Proof. unfold equalTypes, Equals. simpl. by rewrite orb_false_r. Qed.

Lemma compatibleTypes_true (H : Helpers) found need :
  compatibleTypes H found need = true <->
  found = need \/ (need = typeAnyLicence H /\ found ∈ licenceKinds H).
Proof.
  unfold compatibleTypes, licenceKinds.
  destruct (equalTypes found [need]) eqn:E1.
  - apply equalTypes_true, list_elem_of_singleton in E1. tauto.
  - apply equalTypes_false in E1. rewrite list_elem_of_singleton in E1.
    destruct (equalTypes need [typeAnyLicence H]) eqn:E2.
    + apply equalTypes_true, list_elem_of_singleton in E2.
      rewrite equalTypes_true. tauto.
    + apply equalTypes_false in E2. rewrite list_elem_of_singleton in E2.
      split; [done | tauto].
Qed.

Lemma lookup_storeUpdater m k f f' :
  lookupUpdater m k = Some f -> lookupUpdater (storeUpdater m k f') k = Some f'.
Proof.
  induction m as [|[k' g] m IH]; simpl; [done|].
  case_bool_decide; simpl.
  - rewrite bool_decide_true by done. done.
  - rewrite bool_decide_false by done. done.
Qed.

Lemma lookup_storeUpdater_ne m k k' f' :
  k <> k' -> lookupUpdater (storeUpdater m k f') k' = lookupUpdater m k'.
Proof.
  intros Hne. induction m as [|[k0 g] m IH]; simpl; [done|].
  case_bool_decide; simpl.
  - subst. rewrite bool_decide_false by done. done.
  - case_bool_decide; done.
Qed.

(** ** C7: the compatibility rule *)



(** ** C3: the three-way dispatch of [processTruple] *)

(** C3.  [processTruple] hands a type-assertion triple to [setType] and
    returns its error; otherwise, when the subject's key is in the index, it
    dispatches predicate, object and location to that builder and returns
    the builder's error; otherwise it appends the statement with its
    location at the end of the subject's buffer, changes nothing else and
    returns no error. *)
Theorem processTruple_dispatch (H : Helpers) stm meta p :
  let node := termStr (Subject stm) in
  (Equals (Predicate stm) uri_nstype = true ->
   processTruple H stm meta p =
   match setType H (Subject stm) (Object stm) meta p with
   | Ok _ p' => Ok tt p'
   | Err e p' => Err e p'
   | Panic p' => Panic p'
   | OutOfFuel => OutOfFuel
   end)
  /\ (Equals (Predicate stm) uri_nstype = false ->
      is_Some (index p !! node) ->
      processTruple H stm meta p = apply H node (Predicate stm) (Object stm) meta p)
  /\ (Equals (Predicate stm) uri_nstype = false ->
      index p !! node = None ->
      exists p',
        processTruple H stm meta p = Ok tt p'
        /\ buffer p' !! node =
           Some (default [] (buffer p !! node)
                 ++ [{| entry_stm := stm; entry_meta := meta |}])
        /\ (forall k, k <> node -> buffer p' !! k = buffer p !! k)
        /\ index p' = index p /\ heap p' = heap p /\ doc p' = doc p).
Proof.
  intros node. unfold processTruple. fold node. repeat split.
  - intros ->. unfold bind, ret. by destruct (setType _ _ _ _ _).
  - intros -> [b ->]. done.
  - intros -> ->. eexists. split; [done|]. simpl. split; [apply lookup_insert_eq|].
    split; [|done]. intros k Hk. by apply lookup_insert_ne.
Qed.

Lemma processTruple_dispatch_witness :
  let stm := Sample.stm (Uri "http://example.org/pkg") (Sample.prop "name")
               (Sample.lit "libfoo") in
  exists p',
    processTruple Sample.helpers stm None NewParser = Ok tt p'
    /\ buffer p' !! "http://example.org/pkg" =
       Some [{| entry_stm := stm; entry_meta := None |}].
Proof.
  intros stm.
  destruct (proj2 (proj2 (processTruple_dispatch Sample.helpers stm None NewParser))
              eq_refl eq_refl) as (p' & Hrun & Hbuf & _).
  exists p'. split; [exact Hrun | exact Hbuf].
Defined.

(** ** C6: single-valued scalar properties are written once *)

Lemma setField_struct ptr v p ty m fs :
  heap p !! ptr.1 = Some (Struct ty m fs) ->
  setField ptr v p =
  Ok tt (with_heap (<[ptr.1 := Struct ty m (<[ptr.2 := v]> fs)]> (heap p)) p).
Proof. intros Hh. unfold setField, bind, load. by rewrite Hh. Qed.

Lemma getField_struct ptr p ty m fs :
  heap p !! ptr.1 = Some (Struct ty m fs) -> getField ptr p = Ok (fs !! ptr.2) p.
Proof. intros Hh. unfold getField, bind, load. by rewrite Hh. Qed.

Lemma setClosure_builder key property f p b :
  index p !! key = Some (Some b) ->
  setClosure key property f p =
  Ok tt (with_index
           (<[key := Some {| bldr_t := bldr_t b; bldr_ptr := bldr_ptr b;
                             bldr_updaters := storeUpdater (bldr_updaters b) property f;
                             bldr_set := bldr_set b |}]> (index p)) p).
Proof. intros Hb. unfold setClosure, bind, getBuilder, setBuilder. by rewrite Hb. Qed.



(** ** C1 and C5: promotion of a licence set, and what follows it *)

Lemma distinctTypes_NoDup (H : Helpers) : distinctTypes H = true -> NoDup (typeTerms H).
Proof. apply bool_decide_eq_true. Qed.

Lemma distinct_sets (H : Helpers) :
  distinctTypes H = true ->
  typeAbstractLicenceSet <> typeConjunctiveSet H
  /\ typeAbstractLicenceSet <> typeDisjunctiveSet H
  /\ typeConjunctiveSet H <> typeDisjunctiveSet H.
Proof.
  intros Hd%distinctTypes_NoDup. unfold typeTerms in Hd.
  do 11 (apply NoDup_cons in Hd as [_ Hd]).
  apply NoDup_cons in Hd as [Ha Hd]. apply NoDup_cons in Hd as [Hc _].
  apply not_elem_of_cons in Ha as [H1 Ha]. apply not_elem_of_cons in Ha as [H2 _].
  apply not_elem_of_cons in Hc as [H3 _]. done.
Qed.

Lemma builder_apply_lookup (H : Helpers) rec key pred obj meta p b f :
  index p !! key = Some (Some b) ->
  lookupUpdater (bldr_updaters b) (shortPrefix H pred) = Some f ->
  builder_apply H rec key pred obj meta p =
  runUpdater H rec key (shortPrefix H pred) f obj meta p.
Proof.
  intros Hb Hf. unfold builder_apply, bind, getBuilder. by rewrite Hb, Hf.
Qed.

Lemma builder_apply_unsupported (H : Helpers) rec key pred obj meta p b :
  index p !! key = Some (Some b) ->
  lookupUpdater (bldr_updaters b) (shortPrefix H pred) = None ->
  builder_apply H rec key pred obj meta p =
  Err (NewParseError
         (Sprintf msgPropertyNotSupported
            [ArgStr (shortPrefix H pred); ArgTerm (bldr_t b)]) meta) p.
Proof.
  intros Hb Hf. unfold builder_apply, bind, getBuilder. by rewrite Hb, Hf.
Qed.

(** The promotion closure on an abstract set that is asked to become
    disjunctive. *)
Lemma nsType_disjunctive (H : Helpers) rec key property meta p b members tmpMeta :
  typeConjunctiveSet H <> typeDisjunctiveSet H ->
  index p !! key = Some (Some b) ->
  bldr_t b = typeAbstractLicenceSet ->
  heap p !! bldr_set b = Some (LicenceSet AbstractSet members tmpMeta) ->
  runUpdater H rec key property nsType (typeDisjunctiveSet H) meta p =
  Ok tt
    (with_index
       (<[key := Some {| bldr_t := typeDisjunctiveSet H; bldr_ptr := length (heap p);
                         bldr_updaters := bldr_updaters b;
                         bldr_set := length (heap p) |}]> (index p))
       (with_heap
          (heap p ++ [LicenceSet DisjunctiveSet members
                        match tmpMeta with None => meta | Some _ => tmpMeta end]) p)).
Proof.
  intros Hcd Hb Ht Hheap. unfold runUpdater, bind, getBuilder. rewrite Hb, Ht.
  rewrite equalTypes_single, bool_decide_true by done. cbn [negb]. cbv beta iota.
  unfold load. rewrite Hheap. rewrite !equalTypes_single.
  rewrite bool_decide_false by (intros E; by apply Hcd).
  rewrite bool_decide_true by done. done.
Qed.

(** The promotion closure on a set whose kind is already fixed. *)
Lemma nsType_already_defined (H : Helpers) rec key property obj meta p b :
  index p !! key = Some (Some b) ->
  bldr_t b <> typeAbstractLicenceSet ->
  runUpdater H rec key property nsType obj meta p =
  Err (NewParseError (Sprintf msgAlreadyDefined []) meta) p.
Proof.
  intros Hb Ht. unfold runUpdater, bind, getBuilder. rewrite Hb.
  rewrite equalTypes_single, bool_decide_false by done. done.
Qed.

(** C1.  Let a node be resolved as an AbstractLicenceSet whose entity holds
    the members collected so far.  A type-assertion triple that names the
    disjunctive set type succeeds: it allocates a DisjunctiveLicenceSet with
    exactly these members in their order, and the builder under the same
    key of the index gets that entity as pointer and captured set, and the
    disjunctive kind, with its table kept; no other key changes.  A
    [member] write to a licence-set builder appends the resolved licence to
    the entity its captured set points to, so after the promotion to the
    promoted entity. *)
Theorem promotion_to_disjunctive (H : Helpers) node set members tmpMeta meta p :
  distinctTypes H = true ->
  shortPrefix H (uri "ns:type") = "ns:type" ->
  index p !! termStr node = Some (Some (licenceSetMap set)) ->
  heap p !! set = Some (LicenceSet AbstractSet members tmpMeta) ->
  let disj := length (heap p) in
  let goodMeta := match tmpMeta with None => meta | Some _ => tmpMeta end in
  let promoted :=
    {| bldr_t := typeDisjunctiveSet H; bldr_ptr := disj;
       bldr_updaters := licenceSetTable; bldr_set := disj |} in
  let p' :=
    with_index (<[termStr node := Some promoted]> (index p))
      (with_heap (heap p ++ [LicenceSet DisjunctiveSet members goodMeta]) p) in
  processTruple H
    {| Subject := node; Predicate := uri_nstype; Object := typeDisjunctiveSet H |}
    meta p = Ok tt p'
  /\ heap p' !! bldr_ptr promoted = Some (LicenceSet DisjunctiveSet members goodMeta)
  /\ forall rec pred obj meta2 q lic q' b k ms m,
       shortPrefix H pred = "member" ->
       index q !! termStr node = Some (Some b) ->
       bldr_updaters b = licenceSetTable ->
       reqAnyLicence H rec obj q = Ok lic q' ->
       index q' !! termStr node = Some (Some b) ->
       heap q' !! bldr_set b = Some (LicenceSet k ms m) ->
       builder_apply H rec (termStr node) pred obj meta2 q =
       Ok tt (with_heap (<[bldr_set b := LicenceSet k (ms ++ [lic]) m]> (heap q')) q').
Proof.
  intros Hd Hns Hidx Hheap disj goodMeta promoted p'.
  destruct (distinct_sets H Hd) as (Hac & Had & Hcd).
  split; [|split].
  - unfold processTruple. simpl.
    unfold setType, fuelOf. cbn [setType_fuel].
    unfold bind, setType_body at 1. rewrite Hidx.
    simpl bldr_t. rewrite equalTypes_single, bool_decide_false by done.
    change (builder_has (licenceSetMap set) "ns:type") with true.
    cbn [negb andb]. cbv beta iota.
    unfold bind.
    rewrite (builder_apply_lookup H _ _ _ _ _ _ (licenceSetMap set) nsType)
      by (done || by rewrite Hns).
    rewrite (nsType_disjunctive H _ _ _ _ _ (licenceSetMap set) members tmpMeta)
      by done.
    unfold getBuilder. simpl. rewrite lookup_insert_eq. done.
  - simpl. rewrite lookup_app_r by done. by rewrite Nat.sub_diag.
  - intros rec pred obj meta2 q lic q' b k ms m Hpred Hb Htab Hreq Hb' Hset.
    unfold builder_apply, bind at 1, getBuilder at 1. rewrite Hb, Hpred, Htab. simpl.
    unfold bind at 1. rewrite Hreq. unfold bind at 1, getBuilder. rewrite Hb'.
    unfold Add, bind, load. by rewrite Hset.
Qed.

Lemma promotion_to_disjunctive_witness :
  let node := Blank "set1" in
  let a := LicenceVal "MIT" None in
  let b := LicenceVal "GPL-2.0" None in
  let p := with_heap [LicenceSet AbstractSet [a; b] None]
             (with_index {[ termStr node := Some (licenceSetMap 0) ]} NewParser) in
  exists p',
    processTruple Sample.helpers
      (Sample.stm node uri_nstype (typeDisjunctiveSet Sample.helpers))
      (Some (NewMetaL 7)) p = Ok tt p'
    /\ heap p' !! 1 = Some (LicenceSet DisjunctiveSet [a; b] (Some (NewMetaL 7))).
Proof.
  intros node a b p.
  destruct (promotion_to_disjunctive Sample.helpers node 0 [a; b] None
              (Some (NewMetaL 7)) p eq_refl eq_refl eq_refl eq_refl)
    as (Hrun & Hheap & _).
  eexists. split; [exact Hrun | exact Hheap].
Defined.

Lemma typeTerms_distinct (H : Helpers) i j x y :
  distinctTypes H = true ->
  typeTerms H !! i = Some x -> typeTerms H !! j = Some y -> i <> j -> x <> y.
Proof.
  intros Hd Hi Hj Hij ->. apply Hij.
  eapply NoDup_lookup; eauto using distinctTypes_NoDup.
Qed.

(** C5 (as the code has it).  A licence-set builder whose kind is fixed to
    ConjunctiveLicenceSet, by promotion or by direct construction, still has
    the promotion closure in its table; a type-assertion triple that names
    the disjunctive set type reaches that closure, which returns the
    Already-Defined parse error with the location of the triple and leaves
    the state as it was. *)
Theorem conjunctive_retyped_already_defined (H : Helpers) node b meta p :
  distinctTypes H = true ->
  shortPrefix H (uri "ns:type") = "ns:type" ->
  index p !! termStr node = Some (Some b) ->
  bldr_t b = typeConjunctiveSet H ->
  bldr_updaters b = licenceSetTable ->
  processTruple H
    {| Subject := node; Predicate := uri_nstype; Object := typeDisjunctiveSet H |}
    meta p = Err (NewParseError (Sprintf msgAlreadyDefined []) meta) p.
Proof.
  intros Hd Hns Hidx Ht Htab.
  destruct (distinct_sets H Hd) as (Hac & Had & Hcd).
  unfold processTruple. simpl.
  unfold setType, fuelOf. cbn [setType_fuel].
  unfold bind, setType_body at 1. rewrite Hidx, Ht.
  rewrite equalTypes_single, bool_decide_false by done.
  unfold builder_has. rewrite Htab. cbn [lookupUpdater licenceSetTable].
  simpl. unfold bind.
  rewrite (builder_apply_lookup H _ _ _ _ _ _ b nsType)
    by (done || by rewrite Hns, Htab).
  rewrite (nsType_already_defined H _ _ _ _ _ _ b); [done..|].
  rewrite Ht. done.
Qed.

Lemma conjunctive_retyped_already_defined_witness :
  let node := Blank "set1" in
  let b := with_t (typeConjunctiveSet Sample.helpers) (licenceSetMap 0) in
  let p := with_heap [LicenceSet ConjunctiveSet [] None]
             (with_index {[ termStr node := Some b ]} NewParser) in
  processTruple Sample.helpers
    (Sample.stm node uri_nstype (typeDisjunctiveSet Sample.helpers))
    (Some (NewMetaL 2)) p =
  Err (NewParseError (Sprintf msgAlreadyDefined []) (Some (NewMetaL 2))) p.
Proof.
  intros node b p.
  apply (conjunctive_retyped_already_defined Sample.helpers node b
           (Some (NewMetaL 2)) p eq_refl eq_refl eq_refl eq_refl eq_refl).
Defined.

(** C5, counterexample.  A set constructed as conjunctive, and a set
    promoted to conjunctive, are each retyped to disjunctive: the parse
    fails with the Already-Defined message, not the Incompatible-Type one. *)
Lemma conjunctive_retyped_not_incompatible :
  let x := Blank "set1" in
  let conj := typeConjunctiveSet Sample.helpers in
  let disj := typeDisjunctiveSet Sample.helpers in
  let direct := [ (Sample.stm x uri_nstype conj, 1%Z);
                  (Sample.stm x uri_nstype disj, 2%Z) ] in
  let promoted := [ (Sample.stm x uri_nstype typeAbstractLicenceSet, 1%Z);
                    (Sample.stm x uri_nstype conj, 2%Z);
                    (Sample.stm x uri_nstype disj, 3%Z) ] in
  (exists d p,
     Parse Sample.helpers direct =
     Returned d (Some (NewParseError (Sprintf msgAlreadyDefined [])
                         (Some (NewMetaL 2)))) p)
  /\ (exists d p,
        Parse Sample.helpers promoted =
        Returned d (Some (NewParseError (Sprintf msgAlreadyDefined [])
                            (Some (NewMetaL 3)))) p)
  /\ msgAlreadyDefined <> msgIncompatibleTypes.
Proof.
  intros x conj disj direct promoted. split; [|split].
  - eexists _, _. vm_compute. reflexivity.
  - eexists _, _. vm_compute. reflexivity.
  - discriminate.
Qed.

(** ** C9: AnyLicence asked of a literal *)

Lemma setType_fuel_S (H : Helpers) fuel :
  setType_fuel H (S fuel) = setType_body H (setType_fuel H fuel).
Proof. reflexivity. Qed.

Lemma newBuilder_anyLicence_literal (H : Helpers) value lang datatype meta p :
  distinctTypes H = true ->
  newBuilder H (Literal value lang datatype) (typeAnyLicence H) meta p =
  Ok (Some None) p.
Proof.
  intros Hd. unfold newBuilder, Equals.
  repeat (rewrite bool_decide_false;
          [| first [ by apply (typeTerms_distinct H 9 0)
                   | by apply (typeTerms_distinct H 9 1)
                   | by apply (typeTerms_distinct H 9 2)
                   | by apply (typeTerms_distinct H 9 3)
                   | by apply (typeTerms_distinct H 9 4)
                   | by apply (typeTerms_distinct H 9 5)
                   | by apply (typeTerms_distinct H 9 6)
                   | by apply (typeTerms_distinct H 9 7)
                   | by apply (typeTerms_distinct H 9 8) ]]).
  rewrite bool_decide_true by done. done.
Qed.

(** C9.  [setType] asked for the generic AnyLicence type on a literal whose
    key has no builder constructs no builder: the inner type switch leaves
    the builder nil, the nil builder is stored in the index under the key,
    and the call ends in a nil-pointer panic, whatever the buffer holds; it
    returns neither a value nor an error.  The same happens when a
    licence-valued property reaches [setType] through [reqAnyLicence]. *)
Theorem anyLicence_literal_panics (H : Helpers) fuel value lang datatype meta p :
  distinctTypes H = true ->
  index p !! value = None ->
  let node := Literal value lang datatype in
  (exists p',
     setType_fuel H (S fuel) node (typeAnyLicence H) meta p = Panic p'
     /\ index p' !! value = Some None /\ heap p' = heap p)
  /\ (exists p',
        setType H node (typeAnyLicence H) meta p = Panic p'
        /\ index p' !! value = Some None /\ heap p' = heap p)
  /\ (exists p',
        reqAnyLicence H (setType_fuel H (S fuel)) node p = Panic p'
        /\ index p' !! value = Some None /\ heap p' = heap p).
Proof.
  intros Hd Hidx node. subst node.
  assert (forall f meta,
    exists p',
      setType_fuel H (S f) (Literal value lang datatype) (typeAnyLicence H) meta p
      = Panic p'
      /\ index p' !! value = Some None /\ heap p' = heap p) as Hgen.
  { intros f meta'. rewrite setType_fuel_S. unfold setType_body. simpl termStr.
    rewrite Hidx. unfold bind at 1.
    rewrite (newBuilder_anyLicence_literal H) by done.
    unfold bind at 1. unfold setBuilder at 1. unfold bind at 1.
    set (p1 := with_index (<[value := None]> (index p)) p).
    assert (index p1 !! value = Some None) as Hp1 by apply lookup_insert_eq.
    destruct (default [] (buffer p1 !! value)) as [|stm buf] eqn:Hbuf.
    - unfold bind, forEach, ret, getBuilder. simpl. rewrite lookup_insert_eq.
      eexists. split; [done|]. simpl. by rewrite lookup_insert_eq.
    - cbn [forEach]. unfold bind at 1. unfold bind at 1.
      unfold builder_apply at 1. unfold bind at 1, getBuilder at 1.
      rewrite Hp1. eexists. split; [done|]. done. }
  split; [apply Hgen|]. split; [apply Hgen|].
  destruct (Hgen fuel None) as (p' & Hrun & Hres).
  exists p'. split; [|done].
  unfold reqAnyLicence, bind, reqType. simpl termStr. rewrite Hidx.
  by rewrite Hrun.
Qed.

Lemma anyLicence_literal_panics_witness :
  exists p',
    setType Sample.helpers (Sample.lit "MIT") (typeAnyLicence Sample.helpers)
      None NewParser = Panic p'
    /\ index p' !! "MIT" = Some None /\ heap p' = [].
Proof.
  apply (proj1 (proj2 (anyLicence_literal_panics Sample.helpers 0 "MIT" "" "" None
                         NewParser eq_refl eq_refl))).
Defined.

(** ** Invariants of the engine, generically

    An invariant that heap and document writes and updates of an existing
    builder keep, and that the nested [setType] calls keep, is kept by the
    requests, by every closure and by the builder dispatch. *)

Lemma reqTerm_typeTerms (H : Helpers) r : reqTerm H r ∈ typeTerms H.
Proof. destruct r; unfold typeTerms; simpl; set_solver. Qed.

Lemma typeAnyLicence_typeTerms (H : Helpers) : typeAnyLicence H ∈ typeTerms H.
Proof. unfold typeTerms. set_solver. Qed.

Section Preservation.

Variable H : Helpers.
Variables (I IE : Parser -> Prop) (E : error -> Prop) (F : Prop).
Variable rec : Term -> Term -> option Meta -> M addr.

Hypothesis I_IE : forall p, I p -> IE p.
Hypothesis I_alloc : forall p e, I p -> I (with_heap (heap p ++ [e]) p).
Hypothesis I_setField : forall p a ty meta fields f v,
  I p -> heap p !! a = Some (Struct ty meta fields) ->
  I (with_heap (<[a := Struct ty meta (<[f := v]> fields)]> (heap p)) p).
Hypothesis IE_setField : forall p a ty meta fields f v,
  IE p -> heap p !! a = Some (Struct ty meta fields) ->
  IE (with_heap (<[a := Struct ty meta (<[f := v]> fields)]> (heap p)) p).
Hypothesis I_Add : forall p a k members meta lic,
  I p -> heap p !! a = Some (LicenceSet k members meta) ->
  I (with_heap (<[a := LicenceSet k (members ++ [lic]) meta]> (heap p)) p).
Hypothesis I_doc : forall p d, I p -> I (with_doc d p).
Hypothesis I_closure : forall p key b property f0 f,
  I p -> index p !! key = Some (Some b) ->
  lookupUpdater (bldr_updaters b) property = Some f0 ->
  closureSet f0 = Some false -> closureSet f = Some true ->
  I (with_index
       (<[key := Some {| bldr_t := bldr_t b; bldr_ptr := bldr_ptr b;
                         bldr_updaters := storeUpdater (bldr_updaters b) property f;
                         bldr_set := bldr_set b |}]> (index p)) p).
Hypothesis I_promote : forall p key b property t a,
  I p -> index p !! key = Some (Some b) ->
  lookupUpdater (bldr_updaters b) property = Some nsType ->
  I (with_index
       (<[key := Some {| bldr_t := t; bldr_ptr := a;
                         bldr_updaters := bldr_updaters b; bldr_set := a |}]>
          (index p)) p).
Hypothesis E_Errorf : forall fmt args,
  fmt ∈ [msgIncompatibleTypes; msgUnexpected] -> E (Errorf (Sprintf fmt args)).
Hypothesis I_rec : forall node t p,
  index p !! termStr node = None -> t ∈ typeTerms H -> I p ->
  post I IE E F (rec node t None p).

Local Abbreviation keeps := (preserves I IE E F).

Lemma keeps_ret {A} (a : A) : keeps (ret a).
Proof. intros p Hp. exact Hp. Qed.

Lemma keeps_throw {A} e : E e -> keeps (@throw A e).
Proof. intros He p Hp. split; [by apply I_IE | done]. Qed.

Lemma keeps_panic {A} : keeps (@panic A).
Proof. intros p Hp. by apply I_IE. Qed.

Lemma keeps_bind {A B} (m : M A) (k : A -> M B) :
  keeps m -> (forall a, keeps (k a)) -> keeps (bind m k).
Proof.
  intros Hm Hk p Hp. specialize (Hm p Hp). unfold bind.
  destruct (m p); simpl in *; try done. by apply Hk.
Qed.

Lemma keeps_alloc e : keeps (alloc e).
Proof. intros p Hp. by apply I_alloc. Qed.

Lemma keeps_load a : keeps (load a).
Proof. intros p Hp. unfold load. destruct (heap p !! a); simpl; auto. Qed.

Lemma keeps_getField ptr : keeps (getField ptr).
Proof.
  apply keeps_bind; [apply keeps_load|]. intros [].
  - apply keeps_ret.
  - apply keeps_panic.
  - apply keeps_panic.
Qed.

Lemma keeps_setField ptr v : keeps (setField ptr v).
Proof.
  intros p Hp. unfold setField, bind, load.
  destruct (heap p !! ptr.1) as [[]|] eqn:Hh; simpl; eauto.
Qed.

Lemma keeps_appendField arr app : keeps (appendField arr app).
Proof.
  apply keeps_bind; [apply keeps_getField|]. intros. apply keeps_setField.
Qed.

Lemma keeps_Add set lic : keeps (Add set lic).
Proof.
  intros p Hp. unfold Add, bind, load.
  destruct (heap p !! set) as [[]|] eqn:Hh; simpl; eauto.
Qed.

Lemma keeps_getBuilder key : keeps (getBuilder key).
Proof.
  intros p Hp. unfold getBuilder.
  destruct (index p !! key) as [[b|]|]; simpl; auto.
Qed.

Lemma keeps_reqType node t : t ∈ typeTerms H -> keeps (reqType H rec node t).
Proof.
  intros Ht p Hp. unfold reqType.
  destruct (index p !! termStr node) as [[b|]|] eqn:Hb; simpl; auto.
  destruct (negb _); simpl; auto. split; [auto|]. apply E_Errorf. set_solver.
Qed.

Lemma keeps_reqStruct r node : keeps (reqStruct H rec r node).
Proof.
  apply keeps_bind; [apply keeps_reqType, reqTerm_typeTerms|]. intros obj.
  apply keeps_bind; [apply keeps_load|]. intros [ty ? ?| |].
  - case_bool_decide; [apply keeps_ret | apply keeps_panic].
  - apply keeps_panic.
  - apply keeps_panic.
Qed.

Lemma keeps_reqAnyLicence node : keeps (reqAnyLicence H rec node).
Proof.
  apply keeps_bind; [apply keeps_reqType, typeAnyLicence_typeTerms|]. intros obj.
  apply keeps_bind; [apply keeps_load|].
  intros [[] ? ?| |[] ? ?];
    first [apply keeps_ret | apply keeps_throw, E_Errorf; set_solver].
Qed.

(** [x, err := req(obj); field = x; return err]. *)
Lemma keeps_assign {A} (m : M A) ptr (v : A -> Value) v0 :
  keeps m ->
  keeps (x <- catch m ;;
         match x with
         | inl a => setField ptr (v a)
         | inr err => setField ptr v0 ;;; throw err
         end).
Proof.
  intros Hm p Hp. specialize (Hm p Hp). unfold bind at 1, catch.
  destruct (m p) as [a p'|e p'|p'|]; simpl in *; auto.
  - by apply keeps_setField.
  - destruct Hm as [Hp' He]. unfold bind, setField, bind, load.
    destruct (heap p' !! ptr.1) as [[]|] eqn:Hh; simpl; eauto.
Qed.

(** A closure is run on the builder whose table holds it. *)
Lemma keeps_runUpdater key property f obj meta p b :
  (forall msg, E (NewParseError msg meta)) ->
  index p !! key = Some (Some b) ->
  lookupUpdater (bldr_updaters b) property = Some f ->
  I p -> post I IE E F (runUpdater H rec key property f obj meta p).
Proof.
  intros Hmeta Hb Hf.
  assert (forall ptr v f',
    closureSet f = Some false -> closureSet f' = Some true -> I p ->
    post I IE E F ((setField ptr v ;;; setClosure key property f') p)) as Hwrite.
  { intros ptr v f' Hf0 Hf' Hp. unfold bind at 1, setField, bind, load.
    destruct (heap p !! ptr.1) as [[ty m fields| |]|] eqn:Hh; simpl; auto.
    unfold setClosure, bind, getBuilder, setBuilder. simpl. rewrite Hb. simpl.
    eapply (I_closure (with_heap _ p)); eauto. }
  revert Hf Hwrite. destruct f; simpl; intros Hf Hwrite.
  - destruct set; [by apply keeps_throw | by apply Hwrite].
  - destruct set; [by apply keeps_throw | by apply Hwrite].
  - apply keeps_appendField.
  - destruct set; [by apply keeps_throw | by apply Hwrite].
  - destruct set; [by apply keeps_throw | by apply Hwrite].
  - apply keeps_appendField.
  - apply keeps_assign, keeps_reqStruct.
  - apply keeps_bind; [apply keeps_reqStruct|]. intros. apply keeps_appendField.
  - apply keeps_assign, keeps_reqAnyLicence.
  - apply keeps_bind; [apply keeps_reqAnyLicence|]. intros. apply keeps_appendField.
  - destruct algoSet; [by apply keeps_throw | by apply Hwrite].
  - apply keeps_bind; [apply keeps_reqAnyLicence|]. intros.
    apply keeps_bind; [apply keeps_getBuilder|]. intros. apply keeps_Add.
  - intros Hp. unfold bind at 1, getBuilder. rewrite Hb.
    destruct (negb _); [by apply keeps_throw|].
    unfold bind at 1, load.
    destruct (heap p !! bldr_set b) as [[| |[] members tmpMeta]|]; simpl; auto.
    destruct (Equals obj (typeConjunctiveSet H)); simpl.
    { apply (I_promote (with_heap _ p) key b property); [by apply I_alloc|done..]. }
    destruct (Equals obj (typeDisjunctiveSet H)); simpl.
    { apply (I_promote (with_heap _ p) key b property); [by apply I_alloc|done..]. }
    split; [by apply I_IE | apply Hmeta].
Qed.

Lemma fine_builder_apply key pred obj meta :
  (forall msg, E (NewParseError msg meta)) ->
  keeps (builder_apply H rec key pred obj meta).
Proof.
  intros Hmeta p Hp. unfold builder_apply, bind at 1, getBuilder.
  destruct (index p !! key) as [[b|]|] eqn:Hb; simpl; auto.
  destruct (lookupUpdater (bldr_updaters b) (shortPrefix H pred)) eqn:Hf.
  - by eapply keeps_runUpdater.
  - by apply keeps_throw.
Qed.

Lemma keeps_forEach {A} (l : list A) (f : A -> M unit) :
  (forall x, x ∈ l -> keeps (f x)) -> keeps (forEach l f).
Proof.
  induction l as [|x l IH]; intros Hf; simpl.
  - apply keeps_ret.
  - apply keeps_bind; [apply Hf; left|]. intros _. apply IH.
    intros y Hy. apply Hf. by right.
Qed.

(** The [switch] of [setType] only allocates and sets [p.doc]. *)
Lemma fine_newBuilder node t meta : keeps (newBuilder H node t meta).
Proof.
  assert (forall (g : addr -> builder) e,
    keeps (b <- (a <- alloc e ;; ret (g a)) ;; ret (Some (Some b)))) as Hnew.
  { intros. apply keeps_bind; [|intros; apply keeps_ret].
    apply keeps_bind; [apply keeps_alloc | intros; apply keeps_ret]. }
  assert (forall (m : M builder), keeps m ->
    keeps (b <- m ;; ret (Some (Some b)))) as Hsome.
  { intros. apply keeps_bind; [done | intros; apply keeps_ret]. }
  assert (forall meta', keeps (licenceReferenceBuilder H node meta')) as Hlic.
  { intros. apply keeps_bind; [apply keeps_alloc | intros; apply keeps_ret]. }
  unfold newBuilder.
  repeat (destruct (Equals t _); [solve [apply Hnew]|]).
  destruct (Equals t _).
  { apply Hsome. apply keeps_bind; [apply keeps_alloc|]. intros a.
    apply keeps_bind; [|intros; apply keeps_ret]. intros p Hp. by apply I_doc. }
  repeat (destruct (Equals t _); [solve [apply Hnew]|]).
  destruct (Equals t _).
  { destruct node; [by apply Hsome| |apply keeps_ret].
    destruct (HasPrefix _ _); apply Hnew. }
  destruct (Equals t _); [by apply Hsome|].
  destruct (Equals t _); [apply Hnew|].
  destruct (Equals t _).
  { apply Hsome. apply keeps_bind; [apply keeps_alloc | intros; apply keeps_ret]. }
  destruct (Equals t _).
  { apply Hsome. apply keeps_bind; [apply keeps_alloc | intros; apply keeps_ret]. }
  apply keeps_ret.
Qed.

End Preservation.

(** The same for an invariant that any heap write and any update of an
    existing builder keeps. *)
Section CoarsePreservation.

Variable H : Helpers.
Variables (I IE : Parser -> Prop) (E : error -> Prop) (F : Prop).
Variable rec : Term -> Term -> option Meta -> M addr.

Hypothesis I_IE : forall p, I p -> IE p.
Hypothesis I_heap : forall p h, I p -> I (with_heap h p).
Hypothesis IE_heap : forall p h, IE p -> IE (with_heap h p).
Hypothesis I_doc : forall p d, I p -> I (with_doc d p).
Hypothesis I_update : forall p key b b',
  I p -> index p !! key = Some (Some b) ->
  I (with_index (<[key := Some b']> (index p)) p).
Hypothesis E_Errorf : forall fmt args,
  fmt ∈ [msgIncompatibleTypes; msgUnexpected] -> E (Errorf (Sprintf fmt args)).
Hypothesis I_rec : forall node t p,
  index p !! termStr node = None -> t ∈ typeTerms H -> I p ->
  post I IE E F (rec node t None p).

Lemma keeps_builder_apply key pred obj meta :
  (forall msg, E (NewParseError msg meta)) ->
  preserves I IE E F (builder_apply H rec key pred obj meta).
Proof.
  intros Hmeta. apply fine_builder_apply; auto.
  - intros. by eapply I_update.
  - intros. by eapply I_update.
Qed.

Lemma keeps_newBuilder node t meta : preserves I IE E F (newBuilder H node t meta).
Proof. apply fine_newBuilder; auto. Qed.

End CoarsePreservation.

(** ** How the index and the buffer move *)

Lemma evolves_refl p : evolves p p.
Proof. split; auto. Qed.

Lemma evolves_trans p1 p2 p3 : evolves p1 p2 -> evolves p2 p3 -> evolves p1 p3.
Proof.
  intros [Hi1 Hb1] [Hi2 Hb2]. split; [auto|]. intros k.
  destruct (Hb1 k) as [Heq'|(Hn' & Hu' & Hs')].
  - destruct (Hb2 k) as [Heq|(Hn & Hu & Hs)]; [left; congruence|].
    right. split; [done|]. split; [|done].
    destruct (index p1 !! k) eqn:E1; [|done].
    destruct (Hi1 k) as [x Hx]; [eauto|]. congruence.
  - right. split; [|auto].
    destruct (Hb2 k) as [Heq|(Hn & _)]; congruence.
Qed.

Lemma evolves_heap p0 p h : evolves p0 p -> evolves p0 (with_heap h p).
Proof. done. Qed.

Lemma evolves_doc p0 p d : evolves p0 p -> evolves p0 (with_doc d p).
Proof. done. Qed.

Lemma evolves_insert p0 p key b :
  evolves p0 p -> evolves p0 (with_index (<[key := b]> (index p)) p).
Proof.
  intros [Hi Hb]. split; simpl.
  - intros k Hk. destruct (decide (key = k)) as [->|Hne].
    + rewrite lookup_insert_eq. eauto.
    + rewrite lookup_insert_ne by done. auto.
  - intros k. destruct (Hb k) as [?|(? & ? & Hs)]; [by left | right].
    split; [done|]. split; [done|].
    destruct (decide (key = k)) as [->|Hne].
    + rewrite lookup_insert_eq. eauto.
    + by rewrite lookup_insert_ne.
Qed.

Lemma evolves_delete p0 p key :
  evolves p0 p -> index p0 !! key = None -> is_Some (index p !! key) ->
  evolves p0 (with_buffer (delete key (buffer p)) p).
Proof.
  intros [Hi Hb] Hnew Hkey. split; simpl; [done|]. intros k.
  destruct (decide (key = k)) as [->|Hne].
  - right. by rewrite lookup_delete_eq.
  - rewrite lookup_delete_ne by done. apply Hb.
Qed.

Lemma evolves_unindexed p0 p key :
  evolves p0 p -> index p !! key = None -> index p0 !! key = None.
Proof.
  intros [Hi _] Hkey. destruct (index p0 !! key) eqn:E0; [|done].
  destruct (Hi key) as [x Hx]; [eauto|]. congruence.
Qed.

Lemma post_and {A} I1 I2 IE1 IE2 (E1 E2 : error -> Prop) (F1 F2 : Prop)
    (r : result A) :
  post I1 IE1 E1 F1 r -> post I2 IE2 E2 F2 r ->
  post (fun p => I1 p /\ I2 p) (fun p => IE1 p /\ IE2 p)
       (fun e => E1 e /\ E2 e) (F1 /\ F2) r.
Proof. destruct r; simpl; tauto. Qed.

Lemma post_mono {A} (I1 I2 IE1 IE2 : Parser -> Prop) (E1 E2 : error -> Prop)
    (F1 F2 : Prop) (r : result A) :
  (forall p, I1 p -> I2 p) -> (forall p, IE1 p -> IE2 p) ->
  (forall e, E1 e -> E2 e) -> (F1 -> F2) ->
  post I1 IE1 E1 F1 r -> post I2 IE2 E2 F2 r.
Proof. intros HI HIE HE HF. destruct r; simpl; [auto | | auto | auto].
  intros [? ?]. auto. Qed.

Abbreviation anyError := (fun _ : error => True).

(** Every call of [setType], whatever its fuel, moves the tables by
    [evolves]. *)
Lemma setType_fuel_evolves (H : Helpers) fuel :
  forall p0 node t meta,
    preserves (evolves p0) (evolves p0) anyError True
      (setType_fuel H fuel node t meta).
Proof.
  induction fuel as [|fuel IH]; intros p0 node t meta; [done|].
  rewrite setType_fuel_S.
  assert (forall p1 key pred obj meta',
    preserves (evolves p1) (evolves p1) anyError True
      (builder_apply H (setType_fuel H fuel) key pred obj meta')) as Happly.
  { intros. apply keeps_builder_apply;
      eauto using evolves_heap, evolves_doc, evolves_insert.
    intros. by apply IH. }
  intros p Hp. unfold setType_body.
  destruct (index p !! termStr node) as [[bldr|]|] eqn:Hidx; [| done |].
  - destruct (negb _ && _).
    + apply keeps_bind; auto. intros _.
      apply keeps_bind; [by apply keeps_getBuilder|]. intros. by apply keeps_ret.
    + destruct (negb _); simpl; auto.
  - pose proof (evolves_unindexed p0 p _ Hp Hidx) as Hnew0.
    assert (preserves (evolves p0) (evolves p0) anyError True
              (newBuilder H node t meta)) as Hnew
      by (apply keeps_newBuilder; eauto using evolves_heap, evolves_doc).
    specialize (Hnew p Hp). unfold bind at 1. destruct (newBuilder H node t meta p) as [nb q| | |];
      simpl in Hnew; auto.
    destruct nb as [bldr|]; [|simpl; auto].
    unfold bind at 1, setBuilder at 1. unfold bind at 1.
    set (q1 := with_index (<[termStr node := bldr]> (index q)) q).
    assert (evolves p0 q1) as Hq1 by by apply evolves_insert.
    assert (is_Some (index q1 !! termStr node)) as Hkey.
    { subst q1. simpl. rewrite lookup_insert_eq. eauto. }
    set (J := fun p' => evolves p0 p' /\ is_Some (index p' !! termStr node)).
    assert (forall buf,
      preserves J J anyError True
        (forEach buf (fun stm =>
           builder_apply H (setType_fuel H fuel) (termStr node)
             (Predicate (entry_stm stm)) (Object (entry_stm stm))
             (entry_meta stm)))) as Hreplay.
    { intros buf. apply keeps_forEach. intros stm _ p1 [Hp1 Hk1].
      eapply post_mono; [| | | |
        exact (post_and _ _ _ _ _ _ _ _ _ (Happly p0 _ _ _ _ p1 Hp1)
                 (Happly p1 _ _ _ _ p1 (evolves_refl p1)))]; simpl; try tauto.
      - intros p' [? [Hi _]]. split; auto.
      - intros p' [? [Hi _]]. split; auto. }
    specialize (Hreplay (default [] (buffer q1 !! termStr node)) q1 (conj Hq1 Hkey)).
    unfold bind at 1.
    destruct (forEach _ _ q1) as [[] q2|e q2|q2|]; unfold J in Hreplay;
      simpl in Hreplay; simpl; try tauto.
    destruct Hreplay as [Hq2 Hk2].
    unfold bind, getBuilder. simpl.
    pose proof (evolves_delete p0 q2 (termStr node) Hq2 Hnew0 Hk2) as Hdel.
    destruct (index q2 !! termStr node) as [[b|]|]; simpl; exact Hdel.
Qed.

(** ** Termination: the fuel of [fuelOf] is enough *)

Lemma pending_update p key b b' :
  index p !! key = Some b ->
  pending (with_index (<[key := b']> (index p)) p) = pending p.
Proof.
  intros Hb. unfold pending. simpl. rewrite dom_insert_L.
  assert (key ∈ dom (index p)) by (apply elem_of_dom; eauto). set_solver.
Qed.

Lemma pending_create p key b :
  pending (with_index (<[key := b]> (index p)) p) = pending p ∖ {[key]}.
Proof. unfold pending. simpl. rewrite dom_insert_L. set_solver. Qed.

Lemma pending_delete p key :
  pending (with_buffer (delete key (buffer p)) p) ⊆ pending p.
Proof. unfold pending. simpl. rewrite dom_delete_L. set_solver. Qed.

Lemma pending_size_buffer p : size (pending p) <= size (buffer p).
Proof.
  rewrite <- size_dom. apply subseteq_size. unfold pending. set_solver.
Qed.

Lemma setType_fuel_terminates (H : Helpers) fuel :
  forall node t meta p,
    size (pending p) < fuel -> index p !! termStr node = None ->
    post (shrinks (pending p)) (shrinks (pending p)) anyError False
      (setType_fuel H fuel node t meta p).
Proof.
  induction fuel as [|fuel IH]; intros node t meta p Hn Hidx; [lia|].
  rewrite setType_fuel_S. unfold setType_body. rewrite Hidx.
  set (J := fun p' => (index p' = index p /\ buffer p' = buffer p)).
  assert (forall p', J p' -> shrinks (pending p) p') as HJ.
  { intros p' [Hi Hb]. unfold shrinks, pending. by rewrite Hi, Hb. }
  assert (preserves J J anyError False (newBuilder H node t meta)) as Hnew.
  { apply keeps_newBuilder; unfold J; simpl; auto. }
  specialize (Hnew p (conj eq_refl eq_refl)). unfold bind at 1.
  destruct (newBuilder H node t meta p) as [nb q| | |]; simpl in Hnew;
    [| simpl; split; [apply HJ; tauto | done] | simpl; by apply HJ | done].
  pose proof (HJ q Hnew) as Hq. destruct Hnew as [Hi Hb].
  destruct nb as [bldr|]; [|simpl; by split].
  unfold bind at 1, setBuilder at 1. unfold bind at 1.
  set (q1 := with_index (<[termStr node := bldr]> (index q)) q).
  assert (pending q1 = pending p ∖ {[termStr node]}) as Hq1.
  { subst q1. rewrite pending_create. unfold pending. by rewrite Hi, Hb. }
  assert (forall q2 : Parser, shrinks (pending q1) q2 ->
    post (shrinks (pending p)) (shrinks (pending p)) anyError False
      (((fun p => Ok tt (with_buffer (delete (termStr node) (buffer p)) p)) ;;;
        bldr <- getBuilder (termStr node) ;; ret (bldr_ptr bldr)) q2)) as Hfinish.
  { intros q2 Hq2. unfold bind, getBuilder. simpl.
    assert (shrinks (pending p)
              (with_buffer (delete (termStr node) (buffer q2)) q2)) as Hdel.
    { unfold shrinks in *. etrans; [apply pending_delete|].
      rewrite Hq1 in Hq2. set_solver. }
    destruct (index q2 !! termStr node) as [[b|]|]; simpl; exact Hdel. }
  destruct (buffer q1 !! termStr node) as [buf|] eqn:Hbuf; simpl default.
  2:{ simpl forEach. unfold bind at 1, ret at 1. apply Hfinish.
      unfold shrinks. done. }
  assert (termStr node ∈ pending p) as Hin.
  { unfold pending. apply elem_of_difference. split.
    - apply elem_of_dom. rewrite <- Hb. subst q1. simpl in Hbuf. eauto.
    - by apply not_elem_of_dom. }
  assert (size (pending q1) < size (pending p)) as Hlt.
  { apply subset_size. rewrite Hq1. set_solver. }
  assert (preserves (shrinks (pending q1)) (shrinks (pending q1)) anyError False
    (forEach buf (fun stm =>
       builder_apply H (setType_fuel H fuel) (termStr node)
         (Predicate (entry_stm stm)) (Object (entry_stm stm))
         (entry_meta stm)))) as Hreplay.
  { apply keeps_forEach. intros stm _. apply keeps_builder_apply; auto.
    - intros p1 key b b' Hp1 Hkey. unfold shrinks.
      by rewrite (pending_update _ _ (Some b)).
    - intros node' t' p1 Hidx' _ Hp1.
      assert (size (pending p1) <= size (pending q1)) by by apply subseteq_size.
      eapply post_mono; [| | | |apply IH; [lia|done]]; auto;
        unfold shrinks in *; intros; by etrans. }
  assert (shrinks (pending q1) q1) as Hq1' by (unfold shrinks; done).
  specialize (Hreplay q1 Hq1'). unfold bind at 1.
  destruct (forEach buf _ q1) as [[] q2|e q2|q2|]; simpl in Hreplay;
    [by apply Hfinish | | | done]; simpl; unfold shrinks in *;
    rewrite Hq1 in Hreplay.
  - split; [|done]. set_solver.
  - set_solver.
Qed.

Lemma post_terminates {A} I IE E (r : result A) : post I IE E False r -> r <> OutOfFuel.
Proof. by destruct r. Qed.

Lemma builder_apply_terminates (H : Helpers) fuel key pred obj meta p :
  size (pending p) < fuel ->
  post (shrinks (pending p)) (shrinks (pending p)) anyError False
    (builder_apply H (setType_fuel H fuel) key pred obj meta p).
Proof.
  intros Hn.
  apply (keeps_builder_apply H (shrinks (pending p)) (shrinks (pending p))
           anyError False); auto.
  - intros p1 k b b' Hp1 Hkey. unfold shrinks.
    by rewrite (pending_update _ _ (Some b)).
  - intros node' t' p1 Hidx' _ Hp1.
    assert (size (pending p1) <= size (pending p)) by by apply subseteq_size.
    eapply post_mono; [| | | |apply setType_fuel_terminates; [lia|done]]; auto;
      unfold shrinks in *; intros; by etrans.
  - unfold shrinks. done.
Qed.

Lemma setType_body_terminates (H : Helpers) fuel node t meta p :
  size (pending p) < fuel ->
  setType_fuel H (S fuel) node t meta p <> OutOfFuel.
Proof.
  intros Hn.
  destruct (index p !! termStr node) as [[bldr|]|] eqn:Hidx.
  - rewrite setType_fuel_S. unfold setType_body. rewrite Hidx.
    destruct (negb _ && _).
    + pose proof (builder_apply_terminates H fuel (termStr node) (uri "ns:type")
                    t meta p Hn) as Happ.
      unfold bind at 1. destruct (builder_apply _ _ _ _ _ _ p); try done.
      unfold bind, getBuilder. by destruct (index p0 !! termStr node) as [[?|]|].
    + by destruct (negb _).
  - rewrite setType_fuel_S. unfold setType_body. by rewrite Hidx.
  - eapply post_terminates, setType_fuel_terminates; [lia | done].
Qed.

(** [setType], the builder dispatch and [processTruple] return: the fuel
    they are run with never runs out. *)
Lemma setType_terminates (H : Helpers) node t meta p :
  setType H node t meta p <> OutOfFuel.
Proof.
  unfold setType, fuelOf. apply setType_body_terminates.
  pose proof (pending_size_buffer p). lia.
Qed.

Lemma apply_terminates (H : Helpers) key pred obj meta p :
  apply H key pred obj meta p <> OutOfFuel.
Proof.
  unfold apply, fuelOf. eapply post_terminates, builder_apply_terminates.
  pose proof (pending_size_buffer p). lia.
Qed.

Lemma processTruple_terminates (H : Helpers) stm meta p :
  processTruple H stm meta p <> OutOfFuel.
Proof.
  unfold processTruple. destruct (Equals _ _).
  - pose proof (setType_terminates H (Subject stm) (Object stm) meta p).
    unfold bind. by destruct (setType _ _ _ _ _).
  - destruct (index p !! _); [apply apply_terminates | done].
Qed.

Lemma parseLoop_terminates (H : Helpers) input p : parseLoop H input p <> OutOfFuel.
Proof.
  revert p. induction input as [|[stm line] input IH]; intros p; [done|].
  simpl. unfold bind.
  pose proof (processTruple_terminates H stm (Some (NewMetaL line)) p).
  destruct (processTruple _ _ _ _); [apply IH | done..].
Qed.

(** [Parse] returns or panics on every input. *)
Lemma Parse_terminates (H : Helpers) input : Parse H input <> Diverged.
Proof.
  unfold Parse. pose proof (parseLoop_terminates H input NewParser).
  by destruct (parseLoop _ _ _).
Qed.

(** ** C4: the buffer is drained when a builder is created *)

Lemma exclusiveExcept_update S p key b b' :
  exclusiveExcept S p -> index p !! key = Some b ->
  exclusiveExcept S (with_index (<[key := b']> (index p)) p).
Proof.
  intros Hp Hkey k Hk Hb. simpl in *. apply Hp; [|done].
  destruct (decide (key = k)) as [->|Hne]; [eauto|].
  by rewrite lookup_insert_ne in Hk.
Qed.

Lemma exclusiveExcept_create S p key b :
  exclusiveExcept S p ->
  exclusiveExcept (S ∪ {[key]}) (with_index (<[key := b]> (index p)) p).
Proof.
  intros Hp k Hk Hb. simpl in *.
  destruct (decide (key = k)) as [->|Hne]; [set_solver|].
  rewrite lookup_insert_ne in Hk by done. apply elem_of_union_l. by apply Hp.
Qed.

Lemma exclusiveExcept_delete S p key :
  exclusiveExcept (S ∪ {[key]}) p ->
  exclusiveExcept S (with_buffer (delete key (buffer p)) p).
Proof.
  intros Hp k Hk Hb. simpl in *.
  destruct (decide (key = k)) as [->|Hne].
  - rewrite lookup_delete_eq in Hb. by destruct Hb.
  - rewrite lookup_delete_ne in Hb by done.
    specialize (Hp k Hk Hb). set_solver.
Qed.

Abbreviation anyState := (fun _ : Parser => True).

(** A call of [setType] that returns a value leaves no key with both a
    builder and a buffer entry, apart from the keys [S] whose buffers are
    being replayed by the callers. *)
Lemma setType_fuel_exclusive (H : Helpers) fuel :
  forall S node t meta,
    preserves (exclusiveExcept S) anyState anyError True
      (setType_fuel H fuel node t meta).
Proof.
  induction fuel as [|fuel IH]; intros S node t meta; [done|].
  rewrite setType_fuel_S.
  assert (forall S' key pred obj meta',
    preserves (exclusiveExcept S') anyState anyError True
      (builder_apply H (setType_fuel H fuel) key pred obj meta')) as Happly.
  { intros. apply keeps_builder_apply; auto.
    - intros. by eapply exclusiveExcept_update.
    - intros. by apply IH. }
  intros p Hp. unfold setType_body.
  destruct (index p !! termStr node) as [[bldr|]|] eqn:Hidx; [| done |].
  - destruct (negb _ && _).
    + apply keeps_bind; auto. intros _.
      apply keeps_bind; [by apply keeps_getBuilder|]. intros. by apply keeps_ret.
    + destruct (negb _); simpl; auto.
  - assert (preserves (exclusiveExcept S) anyState anyError True
              (newBuilder H node t meta)) as Hnew
      by (apply keeps_newBuilder; auto).
    specialize (Hnew p Hp). unfold bind at 1.
    destruct (newBuilder H node t meta p) as [nb q| | |]; simpl in Hnew; auto.
    destruct nb as [bldr|]; [|simpl; auto].
    unfold bind at 1, setBuilder at 1. unfold bind at 1.
    set (q1 := with_index (<[termStr node := bldr]> (index q)) q).
    assert (exclusiveExcept (S ∪ {[termStr node]}) q1) as Hq1
      by by apply exclusiveExcept_create.
    assert (preserves (exclusiveExcept (S ∪ {[termStr node]})) anyState anyError True
      (forEach (default [] (buffer q1 !! termStr node)) (fun stm =>
         builder_apply H (setType_fuel H fuel) (termStr node)
           (Predicate (entry_stm stm)) (Object (entry_stm stm))
           (entry_meta stm)))) as Hreplay.
    { apply keeps_forEach. intros stm _. apply Happly. }
    specialize (Hreplay q1 Hq1). unfold bind at 1.
    destruct (forEach _ _ q1) as [[] q2|e q2|q2|]; simpl in Hreplay; simpl;
      try tauto.
    unfold bind, getBuilder. simpl.
    pose proof (exclusiveExcept_delete S q2 (termStr node) Hreplay) as Hdel.
    destruct (index q2 !! termStr node) as [[b|]|]; simpl; auto.
Qed.

Lemma setType_fuel_evolves_from (H : Helpers) fuel node t meta p :
  post (evolves p) (evolves p) anyError True (setType_fuel H fuel node t meta p).
Proof. apply setType_fuel_evolves, evolves_refl. Qed.

Lemma builder_apply_evolves (H : Helpers) fuel key pred obj meta :
  forall p0,
    preserves (evolves p0) (evolves p0) anyError True
      (builder_apply H (setType_fuel H fuel) key pred obj meta).
Proof.
  intros p0. apply keeps_builder_apply;
    eauto using evolves_heap, evolves_doc, evolves_insert.
  intros. by apply setType_fuel_evolves.
Qed.

Lemma replay_evolves (H : Helpers) fuel key buf :
  forall p0,
    preserves (evolves p0) (evolves p0) anyError True
      (forEach buf (fun stm =>
         builder_apply H (setType_fuel H fuel) key
           (Predicate (entry_stm stm)) (Object (entry_stm stm)) (entry_meta stm))).
Proof. intros p0. apply keeps_forEach. intros. apply builder_apply_evolves. Qed.

(** A value returned by [setType] is the pointer of the builder that the
    index then holds for the node. *)
Lemma setType_fuel_returns_builder (H : Helpers) fuel node t meta p v p' :
  setType_fuel H fuel node t meta p = Ok v p' ->
  exists b, index p' !! termStr node = Some (Some b) /\ v = bldr_ptr b.
Proof.
  destruct fuel as [|fuel]; [done|]. rewrite setType_fuel_S. unfold setType_body.
  assert (forall (m : M unit) q,
    (m ;;; bldr <- getBuilder (termStr node) ;; ret (bldr_ptr bldr)) q = Ok v p' ->
    exists b, index p' !! termStr node = Some (Some b) /\ v = bldr_ptr b) as Hlast.
  { intros m q. unfold bind, getBuilder, ret. destruct (m q) as [[] q'| | |]; try done.
    destruct (index q' !! termStr node) as [[b|]|] eqn:Hb; try done.
    intros [= <- <-]. eauto. }
  destruct (index p !! termStr node) as [[bldr|]|] eqn:Hidx; [| done |].
  - destruct (negb _ && _); [apply Hlast|].
    destruct (negb _); [done|]. intros [= <- <-]. eauto.
  - unfold bind at 1. destruct (newBuilder H node t meta p) as [[bldr|] q| | |];
      try done.
    unfold bind at 1, setBuilder at 1. unfold bind at 1.
    unfold bind at 1.
    destruct (forEach _ _ _) as [[] q2| | |]; try done.
    apply (Hlast (fun p => Ok tt (with_buffer (delete (termStr node) (buffer p)) p))).
Qed.

Lemma newBuilder_tables (H : Helpers) node t meta p :
  post (fun p' => index p' = index p /\ buffer p' = buffer p)
       (fun p' => index p' = index p /\ buffer p' = buffer p) anyError True
       (newBuilder H node t meta p).
Proof.
  apply (keeps_newBuilder H (fun p' => index p' = index p /\ buffer p' = buffer p)
           (fun p' => index p' = index p /\ buffer p' = buffer p) anyError True);
    simpl; auto.
Qed.

(** C4 (as the code has it).  From a state in which no key has both a
    builder and a buffer entry: a [setType] call that returns a value leaves
    such a state, with the node in the index and no buffer entry for it.
    When [setType] constructs a builder for an unresolved key, it stores the
    builder in the index and replays the buffered statements of the key
    through the builder dispatch in their order of arrival; when the replay
    succeeds the buffer entry of the key is deleted; when a statement fails
    the replay stops, [setType] returns that error, and the buffer entry is
    left in place next to the builder. *)
Theorem setType_drains_buffer (H : Helpers) node t meta p :
  exclusive p ->
  (forall v p',
     setType H node t meta p = Ok v p' ->
     exclusive p'
     /\ is_Some (index p' !! termStr node)
     /\ buffer p' !! termStr node = None)
  /\ (index p !! termStr node = None ->
      forall bldr q,
        newBuilder H node t meta p = Ok (Some bldr) q ->
        let key := termStr node in
        let registered := with_index (<[key := bldr]> (index q)) q in
        let replay :=
          forEach (default [] (buffer p !! key)) (fun stm =>
            builder_apply H (setType_fuel H (S (size (buffer p)))) key
              (Predicate (entry_stm stm)) (Object (entry_stm stm))
              (entry_meta stm)) in
        match replay registered with
        | Ok _ q2 =>
            stateOf (setType H node t meta p) =
            Some (with_buffer (delete key (buffer q2)) q2)
        | Err e q2 =>
            setType H node t meta p = Err e q2
            /\ is_Some (index q2 !! key)
            /\ buffer q2 !! key = buffer p !! key
        | Panic q2 => setType H node t meta p = Panic q2
        | OutOfFuel => False
        end).
Proof.
  intros Hex. split.
  - intros v p' Hrun. unfold setType in Hrun.
    destruct (setType_fuel_returns_builder H _ _ _ _ _ _ _ Hrun) as (b & Hb & _).
    assert (exclusive p') as Hex'.
    { assert (exclusiveExcept ∅ p) as Hp.
      { intros k Hk [x Hx]. rewrite (Hex k Hk) in Hx. done. }
      pose proof (setType_fuel_exclusive H (fuelOf p) ∅ node t meta p Hp) as Hpost.
      rewrite Hrun in Hpost. simpl in Hpost.
      intros k Hk. destruct (buffer p' !! k) eqn:Hbuf; [|done].
      assert (k ∈ (∅ : gset string)) as Hin
        by (apply Hpost; [done | rewrite Hbuf; eauto]).
      set_solver. }
    split; [done|]. split; [by rewrite Hb | apply Hex'; by rewrite Hb].
  - intros Hidx bldr q Hnew key registered replay.
    pose proof (newBuilder_tables H node t meta p) as Htab.
    rewrite Hnew in Htab. simpl in Htab. destruct Htab as [Hqi Hqb].
    assert (setType H node t meta p =
            (replay ;;;
             (fun p => Ok tt (with_buffer (delete key (buffer p)) p)) ;;;
             bldr <- getBuilder key ;; ret (bldr_ptr bldr)) registered) as Hunfold.
    { unfold setType, fuelOf. rewrite setType_fuel_S. unfold setType_body.
      rewrite Hidx. unfold bind at 1. rewrite Hnew.
      unfold bind at 1, setBuilder at 1. unfold bind at 1.
      fold key. fold registered.
      assert (buffer registered !! key = buffer p !! key) as ->
        by (subst registered; simpl; by rewrite Hqb).
      done. }
    rewrite Hunfold.
    pose proof (replay_evolves H (S (size (buffer p))) key
                  (default [] (buffer p !! key)) registered registered
                  (evolves_refl _)) as Hev.
    fold replay in Hev.
    assert (replay registered <> OutOfFuel) as Hfuel.
    { subst replay. clear Hev Hunfold.
      assert (size (pending registered) < S (size (buffer p))) as Hsize.
      { pose proof (pending_size_buffer registered) as Hle.
        subst registered. simpl in Hle. rewrite Hqb in Hle. lia. }
      assert (preserves (shrinks (pending registered)) (shrinks (pending registered))
                anyError False
                (forEach (default [] (buffer p !! key)) (fun stm =>
                   builder_apply H (setType_fuel H (S (size (buffer p)))) key
                     (Predicate (entry_stm stm)) (Object (entry_stm stm))
                     (entry_meta stm)))) as Hterm.
      { apply keeps_forEach. intros stm _ p1 Hp1.
        assert (size (pending p1) <= size (pending registered))
          by by apply subseteq_size.
        eapply post_mono; [| | | |apply builder_apply_terminates; lia]; auto;
          unfold shrinks in *; intros; by etrans. }
      eapply post_terminates, Hterm. unfold shrinks. done. }
    destruct (replay registered) as [[] q2|e q2|q2|] eqn:Hr; simpl in Hev;
      [| | |done]; unfold bind at 1; rewrite Hr; [| |done].
    + unfold bind, getBuilder. simpl.
      by destruct (index q2 !! key) as [[b|]|].
    + split; [done|]. destruct Hev as [[Hi Hb] _].
      assert (index registered !! key = Some bldr) as Hreg
        by (subst registered; simpl; apply lookup_insert_eq).
      split; [apply Hi; by rewrite Hreg|].
      destruct (Hb key) as [->|(_ & Hnone & _)]; [|congruence].
      subst registered. simpl. by rewrite Hqb.
Qed.

Lemma exclusive_nothing_resolved p : index p = ∅ -> exclusive p.
Proof. intros Hi k [x Hx]. rewrite Hi, lookup_empty in Hx. done. Qed.

Lemma setType_drains_buffer_witness :
  let node := Uri "http://example.org/pkg" in
  let first := {| entry_stm := Sample.stm node (Sample.prop "name") (Sample.lit "libfoo");
                  entry_meta := Some (NewMetaL 1) |} in
  let second := {| entry_stm := Sample.stm node (Sample.prop "versionInfo")
                                  (Sample.lit "1.0");
                   entry_meta := Some (NewMetaL 2) |} in
  let p := with_buffer {[ termStr node := [first; second] ]} NewParser in
  exists v p',
    setType Sample.helpers node (typePackage Sample.helpers) (Some (NewMetaL 3)) p
    = Ok v p'
    /\ exclusive p' /\ buffer p' !! termStr node = None.
Proof.
  intros node first second p.
  destruct (setType Sample.helpers node (typePackage Sample.helpers)
              (Some (NewMetaL 3)) p) as [v p'|e p'|p'|] eqn:Hrun;
    [| vm_compute in Hrun; discriminate Hrun ..].
  exists v, p'. split; [reflexivity|].
  destruct (proj1 (setType_drains_buffer Sample.helpers node
                     (typePackage Sample.helpers) (Some (NewMetaL 3)) p
                     (exclusive_nothing_resolved p eq_refl)) v p' Hrun)
    as (Hex & _ & Hbuf).
  split; [exact Hex | exact Hbuf].
Defined.

(** C4, counterexample.  Two writes of the single-valued [name] are buffered
    for a package node; when its type arrives the replay fails at the second
    one, and [setType] returns with the builder in the index and the buffer
    entry still there. *)
Lemma setType_failed_replay_keeps_buffer :
  let node := Uri "http://example.org/pkg" in
  let first := {| entry_stm := Sample.stm node (Sample.prop "name") (Sample.lit "a");
                  entry_meta := Some (NewMetaL 1) |} in
  let second := {| entry_stm := Sample.stm node (Sample.prop "name") (Sample.lit "b");
                   entry_meta := Some (NewMetaL 2) |} in
  let p := with_buffer {[ termStr node := [first; second] ]} NewParser in
  exclusive p
  /\ exists p',
       setType Sample.helpers node (typePackage Sample.helpers) (Some (NewMetaL 3)) p
       = Err (NewParseError (Sprintf msgAlreadyDefined []) (Some (NewMetaL 2))) p'
       /\ is_Some (index p' !! termStr node)
       /\ buffer p' !! termStr node = Some [first; second].
Proof.
  intros node first second p. split; [by apply exclusive_nothing_resolved|].
  eexists. split; [vm_compute; reflexivity|]. split; [|reflexivity].
  eexists. vm_compute. reflexivity.
Qed.

(** ** C8: which errors carry a location *)

Lemma newBuilder_known (H : Helpers) node t meta p q :
  t ∈ typeTerms H -> newBuilder H node t meta p <> Ok None q.
Proof.
  intros Hin.
  assert (forall (m : M builder) p q,
    (b <- m ;; ret (Some (Some b))) p <> Ok None q) as Hsome.
  { intros m p1 q1. unfold bind, ret. by destruct (m p1). }
  unfold newBuilder.
  destruct (Equals t (typeDocument H)) eqn:?; [apply Hsome|].
  destruct (Equals t (typeCreationInfo H)) eqn:?; [apply Hsome|].
  destruct (Equals t (typePackage H)) eqn:?; [apply Hsome|].
  destruct (Equals t (typeChecksum H)) eqn:?; [apply Hsome|].
  destruct (Equals t (typeVerificationCode H)) eqn:?; [apply Hsome|].
  destruct (Equals t (typeFile H)) eqn:?; [apply Hsome|].
  destruct (Equals t (typeReview H)) eqn:?; [apply Hsome|].
  destruct (Equals t (typeArtifactOf H)) eqn:?; [apply Hsome|].
  destruct (Equals t (typeExtractedLicence H)) eqn:?; [apply Hsome|].
  destruct (Equals t (typeAnyLicence H)) eqn:?.
  { destruct node; [apply Hsome| |done]. destruct (HasPrefix _ _); apply Hsome. }
  destruct (Equals t (typeLicence H)) eqn:?; [apply Hsome|].
  destruct (Equals t typeAbstractLicenceSet) eqn:?; [apply Hsome|].
  destruct (Equals t (typeConjunctiveSet H)) eqn:?; [apply Hsome|].
  destruct (Equals t (typeDisjunctiveSet H)) eqn:?; [apply Hsome|].
  exfalso. unfold Equals in *.
  repeat match goal with
         | Hne : bool_decide _ = false |- _ => apply bool_decide_eq_false in Hne
         end.
  unfold typeTerms in Hin.
  repeat (apply elem_of_cons in Hin as [->|Hin]; [done|]).
  by apply elem_of_nil in Hin.
Qed.

Lemma bufferedIn_delete A p key :
  bufferedIn A p -> bufferedIn A (with_buffer (delete key (buffer p)) p).
Proof.
  intros Hp k entries x Hk Hx. simpl in Hk.
  apply lookup_delete_Some in Hk as [_ Hk]. by eapply Hp.
Qed.

(** A call of [setType] with a location that satisfies [A], or a nested
    call (which has none) for an unresolved node and a known type, fails
    only with located errors. *)
Lemma setType_fuel_located (H : Helpers) A fuel :
  forall node t meta p,
    A meta \/ (index p !! termStr node = None /\ t ∈ typeTerms H) ->
    bufferedIn A p ->
    post (bufferedIn A) (bufferedIn A) (located A) True
      (setType_fuel H fuel node t meta p).
Proof.
  induction fuel as [|fuel IH]; intros node t meta p Hmeta Hp; [done|].
  rewrite setType_fuel_S.
  assert (forall key pred obj meta', A meta' ->
    preserves (bufferedIn A) (bufferedIn A) (located A) True
      (builder_apply H (setType_fuel H fuel) key pred obj meta')) as Happly.
  { intros. apply keeps_builder_apply; auto; intros; apply IH; auto. }
  unfold setType_body.
  destruct (index p !! termStr node) as [[bldr|]|] eqn:Hidx; [| done |].
  - destruct Hmeta as [Hmeta|[? _]]; [|done].
    destruct (negb _ && _).
    + apply keeps_bind; auto. intros _.
      apply keeps_bind; [by apply keeps_getBuilder|]. intros. by apply keeps_ret.
    + destruct (negb _); simpl; auto.
  - assert (preserves (bufferedIn A) (bufferedIn A) (located A) True
              (newBuilder H node t meta)) as Hnew
      by (apply keeps_newBuilder; auto).
    specialize (Hnew p Hp). unfold bind at 1.
    destruct (newBuilder H node t meta p) as [nb q| | |] eqn:Hnb;
      simpl in Hnew; auto.
    destruct nb as [bldr|].
    2:{ simpl. split; [done|]. destruct Hmeta as [Hmeta|[_ Ht]]; [done|].
        by apply newBuilder_known in Hnb. }
    unfold bind at 1, setBuilder at 1. unfold bind at 1.
    set (q1 := with_index (<[termStr node := bldr]> (index q)) q).
    assert (bufferedIn A q1) as Hq1 by done.
    assert (preserves (bufferedIn A) (bufferedIn A) (located A) True
      (forEach (default [] (buffer q1 !! termStr node)) (fun stm =>
         builder_apply H (setType_fuel H fuel) (termStr node)
           (Predicate (entry_stm stm)) (Object (entry_stm stm))
           (entry_meta stm)))) as Hreplay.
    { apply keeps_forEach. intros stm Hstm. apply Happly.
      destruct (buffer q1 !! termStr node) as [entries|] eqn:Hbuf;
        [|by apply elem_of_nil in Hstm].
      by eapply Hq1. }
    specialize (Hreplay q1 Hq1). unfold bind at 1.
    destruct (forEach _ _ q1) as [[] q2|e q2|q2|]; simpl in Hreplay; simpl;
      try tauto.
    unfold bind, getBuilder. simpl.
    pose proof (bufferedIn_delete A q2 (termStr node) Hreplay) as Hdel.
    destruct (index q2 !! termStr node) as [[b|]|]; simpl; auto.
Qed.

Lemma processTruple_located (H : Helpers) A stm meta :
  A meta ->
  preserves (bufferedIn A) (bufferedIn A) (located A) True
    (processTruple H stm meta).
Proof.
  intros Hmeta p Hp. unfold processTruple. destruct (Equals _ _).
  - pose proof (setType_fuel_located H A (fuelOf p) (Subject stm) (Object stm)
                  meta p (or_introl Hmeta) Hp) as Hset.
    unfold bind, setType. by destruct (setType_fuel _ _ _ _ _ _).
  - destruct (index p !! _) eqn:Hidx.
    + apply keeps_builder_apply; auto; intros;
        apply setType_fuel_located; auto.
    + simpl. intros k entries x Hk Hx. simpl in Hk.
      destruct (decide (termStr (Subject stm) = k)) as [<-|Hne].
      * rewrite lookup_insert_eq in Hk. injection Hk as <-.
        apply elem_of_app in Hx as [Hx|Hx].
        -- destruct (buffer p !! termStr (Subject stm)) eqn:Hb;
             [by eapply Hp | by apply elem_of_nil in Hx].
        -- apply list_elem_of_singleton in Hx. by subst.
      * rewrite lookup_insert_ne in Hk by done. by eapply Hp.
Qed.

Lemma parseLoop_located (H : Helpers) A input :
  (forall stm line, (stm, line) ∈ input -> A (Some (NewMetaL line))) ->
  preserves (bufferedIn A) (bufferedIn A) (located A) True (parseLoop H input).
Proof.
  induction input as [|[stm line] input IH]; intros HA; [by apply keeps_ret|].
  simpl. apply keeps_bind; auto.
  - apply processTruple_located. apply (HA stm line). left.
  - intros _. apply IH. intros stm' line' Hin. apply (HA stm' line'). by right.
Qed.




(** ** More fuel changes nothing *)

Section Refinement.

Variable H : Helpers.
Variables rec1 rec2 : Term -> Term -> option Meta -> M addr.
Hypothesis rec_refines : forall node t meta,
  refines (rec1 node t meta) (rec2 node t meta).

Lemma refines_refl {A} (m : M A) : refines m m.
Proof. by intros p _. Qed.

Lemma refines_bind {A B} (m1 m2 : M A) (k1 k2 : A -> M B) :
  refines m1 m2 -> (forall a, refines (k1 a) (k2 a)) ->
  refines (bind m1 k1) (bind m2 k2).
Proof.
  intros Hm Hk p Hne. unfold bind in *.
  destruct (m1 p) as [a p'|e p'|p'|] eqn:E1; [| | |done];
    rewrite Hm by (by rewrite E1); rewrite E1; [by apply Hk | done..].
Qed.

Lemma refines_catch {A} (m1 m2 : M A) : refines m1 m2 -> refines (catch m1) (catch m2).
Proof.
  intros Hm p Hne. unfold catch in *.
  destruct (m1 p) as [a p'|e p'|p'|] eqn:E1; [| | |done];
    rewrite Hm by (by rewrite E1); by rewrite E1.
Qed.

Lemma refines_forEach {A} (l : list A) (f1 f2 : A -> M unit) :
  (forall x, refines (f1 x) (f2 x)) -> refines (forEach l f1) (forEach l f2).
Proof.
  intros Hf. induction l as [|x l IH]; simpl; [apply refines_refl|].
  by apply refines_bind.
Qed.

Lemma refines_reqType node t : refines (reqType H rec1 node t) (reqType H rec2 node t).
Proof.
  intros p Hne. unfold reqType in *.
  destruct (index p !! termStr node) as [[b|]|]; try done. by apply rec_refines.
Qed.

Lemma refines_reqStruct r node :
  refines (reqStruct H rec1 r node) (reqStruct H rec2 r node).
Proof. apply refines_bind; [apply refines_reqType | intros; apply refines_refl]. Qed.

Lemma refines_reqAnyLicence node :
  refines (reqAnyLicence H rec1 node) (reqAnyLicence H rec2 node).
Proof. apply refines_bind; [apply refines_reqType | intros; apply refines_refl]. Qed.

Lemma refines_runUpdater key property f obj meta :
  refines (runUpdater H rec1 key property f obj meta)
          (runUpdater H rec2 key property f obj meta).
Proof.
  destruct f; simpl; try apply refines_refl.
  - apply refines_bind; [apply refines_catch, refines_reqStruct|].
    intros; apply refines_refl.
  - apply refines_bind; [apply refines_reqStruct | intros; apply refines_refl].
  - apply refines_bind; [apply refines_catch, refines_reqAnyLicence|].
    intros; apply refines_refl.
  - apply refines_bind; [apply refines_reqAnyLicence | intros; apply refines_refl].
  - apply refines_bind; [apply refines_reqAnyLicence | intros; apply refines_refl].
Qed.

Lemma refines_builder_apply key pred obj meta :
  refines (builder_apply H rec1 key pred obj meta)
          (builder_apply H rec2 key pred obj meta).
Proof.
  apply refines_bind; [apply refines_refl|]. intros b. cbv zeta.
  destruct (lookupUpdater _ _); [apply refines_runUpdater | apply refines_refl].
Qed.

Lemma refines_setType_body node t meta :
  refines (setType_body H rec1 node t meta) (setType_body H rec2 node t meta).
Proof.
  intros p. unfold setType_body.
  destruct (index p !! termStr node) as [[bldr|]|]; [|done|].
  - destruct (negb _ && _); [|done].
    revert p. apply refines_bind; [apply refines_builder_apply|].
    intros; apply refines_refl.
  - revert p. apply refines_bind; [apply refines_refl|]. intros [bldr|].
    + apply refines_bind; [apply refines_refl|]. intros _.
      apply refines_bind; [apply refines_refl|]. intros buf.
      apply refines_bind; [|intros; apply refines_refl].
      apply refines_forEach. intros. apply refines_builder_apply.
    + apply refines_refl.
Qed.

End Refinement.

Lemma setType_fuel_refines (H : Helpers) fuel1 fuel2 :
  fuel1 <= fuel2 ->
  forall node t meta,
    refines (setType_fuel H fuel1 node t meta) (setType_fuel H fuel2 node t meta).
Proof.
  revert fuel2. induction fuel1 as [|fuel1 IH]; intros fuel2 Hle node t meta.
  - by intros p Hne.
  - destruct fuel2 as [|fuel2]; [lia|]. rewrite !setType_fuel_S.
    apply refines_setType_body. intros. apply IH. lia.
Qed.

(** ** C10: statements of a node that is never resolved *)

Section Strip.

Variable H : Helpers.
Variable k0 : string.
Variable rec : Term -> Term -> option Meta -> M addr.
Hypothesis rec_commutes : forall node t meta, commutes k0 (rec node t meta).

Lemma commutes_ret {A} (a : A) : commutes k0 (ret a).
Proof. intros p p' [= <-]. auto. Qed.

Lemma commutes_throw {A} e : commutes k0 (@throw A e).
Proof. intros p p' [= <-]. auto. Qed.

Lemma commutes_panic {A} : commutes k0 (@panic A).
Proof. intros p p' [= <-]. auto. Qed.

Lemma commutes_bind {A B} (m : M A) (k : A -> M B) :
  commutes k0 m -> (forall a, commutes k0 (k a)) -> commutes k0 (bind m k).
Proof.
  intros Hm Hk p p' Hst. unfold bind in *.
  destruct (m p) as [a p1|e p1|p1|] eqn:E1; [| | |done].
  - destruct (Hm p p1) as [Hmono1 Hcomm1]; [by rewrite E1|].
    destruct (Hk a p1 p' Hst) as [Hmono2 Hcomm2]. split; [auto|].
    intros Hnone. rewrite Hcomm1, E1; [by apply Hcomm2|].
    destruct (index p1 !! k0) eqn:E0; [|done].
    destruct (Hmono2 k0) as [x Hx]; [eauto|]. congruence.
  - injection Hst as <-. destruct (Hm p p1) as [Hmono1 Hcomm1]; [by rewrite E1|].
    split; [done|]. intros Hnone. by rewrite Hcomm1, E1.
  - injection Hst as <-. destruct (Hm p p1) as [Hmono1 Hcomm1]; [by rewrite E1|].
    split; [done|]. intros Hnone. by rewrite Hcomm1, E1.
Qed.

Lemma commutes_catch {A} (m : M A) : commutes k0 m -> commutes k0 (catch m).
Proof.
  intros Hm p p' Hst. unfold catch in *.
  destruct (m p) as [a p1|e p1|p1|] eqn:E1; [| | |done]; injection Hst as <-;
    (destruct (Hm p p1) as [Hmono1 Hcomm1]; [by rewrite E1|]);
    (split; [done|]); intros Hnone; by rewrite Hcomm1, E1.
Qed.

Lemma commutes_forEach {A} (l : list A) (f : A -> M unit) :
  (forall x, commutes k0 (f x)) -> commutes k0 (forEach l f).
Proof.
  intros Hf. induction l as [|x l IH]; simpl; [apply commutes_ret|].
  by apply commutes_bind.
Qed.

Lemma commutes_alloc e : commutes k0 (alloc e).
Proof. intros p p' [= <-]. auto. Qed.

Lemma commutes_load a : commutes k0 (load a).
Proof.
  intros p p' Hst. unfold load in *. simpl.
  destruct (heap p !! a); injection Hst as <-; auto.
Qed.

Lemma commutes_getField ptr : commutes k0 (getField ptr).
Proof.
  apply commutes_bind; [apply commutes_load|].
  intros []; [apply commutes_ret | apply commutes_panic..].
Qed.

Lemma commutes_setField ptr v : commutes k0 (setField ptr v).
Proof.
  apply commutes_bind; [apply commutes_load|].
  intros []; [|apply commutes_panic..]. intros p p' [= <-]. auto.
Qed.

Lemma commutes_appendField arr app : commutes k0 (appendField arr app).
Proof.
  apply commutes_bind; [apply commutes_getField | intros; apply commutes_setField].
Qed.

Lemma commutes_Add set lic : commutes k0 (Add set lic).
Proof.
  apply commutes_bind; [apply commutes_load|].
  intros []; [apply commutes_panic..|]. intros p p' [= <-]. auto.
Qed.

Lemma commutes_getBuilder key : commutes k0 (getBuilder key).
Proof.
  intros p p' Hst. unfold getBuilder in *. simpl.
  destruct (index p !! key) as [[b|]|]; injection Hst as <-; auto.
Qed.

Lemma commutes_setBuilder key b : commutes k0 (setBuilder key b).
Proof.
  intros p p' [= <-]. split; [|done]. intros k Hk. simpl.
  destruct (decide (key = k)) as [->|Hne].
  - rewrite lookup_insert_eq. eauto.
  - by rewrite lookup_insert_ne.
Qed.

Lemma commutes_setClosure key property f : commutes k0 (setClosure key property f).
Proof.
  apply commutes_bind; [apply commutes_getBuilder | intros; apply commutes_setBuilder].
Qed.

Lemma commutes_reqType node t : commutes k0 (reqType H rec node t).
Proof.
  intros p p' Hst. unfold reqType in *. simpl.
  destruct (index p !! termStr node) as [[b|]|] eqn:Hb.
  - destruct (negb _); injection Hst as <-; auto.
  - injection Hst as <-; auto.
  - by apply rec_commutes.
Qed.

Lemma commutes_reqStruct r node : commutes k0 (reqStruct H rec r node).
Proof.
  apply commutes_bind; [apply commutes_reqType|]. intros obj.
  apply commutes_bind; [apply commutes_load|].
  intros [ty ? ?| |]; [|apply commutes_panic..].
  case_bool_decide; [apply commutes_ret | apply commutes_panic].
Qed.

Lemma commutes_reqAnyLicence node : commutes k0 (reqAnyLicence H rec node).
Proof.
  apply commutes_bind; [apply commutes_reqType|]. intros obj.
  apply commutes_bind; [apply commutes_load|].
  intros [[] ? ?| |[] ? ?]; first [apply commutes_ret | apply commutes_throw].
Qed.

Lemma commutes_assign {A} (m : M A) ptr (v : A -> Value) v0 :
  commutes k0 m ->
  commutes k0 (x <- catch m ;;
               match x with
               | inl a => setField ptr (v a)
               | inr err => setField ptr v0 ;;; throw err
               end).
Proof.
  intros Hm. apply commutes_bind; [by apply commutes_catch|].
  intros [a|err]; [apply commutes_setField|].
  apply commutes_bind; [apply commutes_setField | intros; apply commutes_throw].
Qed.

Lemma commutes_runUpdater key property f obj meta :
  commutes k0 (runUpdater H rec key property f obj meta).
Proof.
  assert (forall ptr v f',
    commutes k0 (setField ptr v ;;; setClosure key property f')) as Hwrite.
  { intros. apply commutes_bind; [apply commutes_setField|]. intros.
    apply commutes_setClosure. }
  destruct f; simpl.
  - destruct set; [apply commutes_throw | apply Hwrite].
  - destruct set; [apply commutes_throw | apply Hwrite].
  - apply commutes_appendField.
  - destruct set; [apply commutes_throw | apply Hwrite].
  - destruct set; [apply commutes_throw | apply Hwrite].
  - apply commutes_appendField.
  - apply commutes_assign, commutes_reqStruct.
  - apply commutes_bind; [apply commutes_reqStruct|]. intros.
    apply commutes_appendField.
  - apply commutes_assign, commutes_reqAnyLicence.
  - apply commutes_bind; [apply commutes_reqAnyLicence|]. intros.
    apply commutes_appendField.
  - destruct algoSet; [apply commutes_throw | apply Hwrite].
  - apply commutes_bind; [apply commutes_reqAnyLicence|]. intros.
    apply commutes_bind; [apply commutes_getBuilder|]. intros. apply commutes_Add.
  - apply commutes_bind; [apply commutes_getBuilder|]. intros bldr.
    destruct (negb _); [apply commutes_throw|].
    apply commutes_bind; [apply commutes_load|].
    intros [| |[] members tmpMeta]; try apply commutes_panic.
    destruct (Equals obj (typeConjunctiveSet H) || false).
    { apply commutes_bind; [apply commutes_alloc|]. intros.
      apply commutes_setBuilder. }
    destruct (Equals obj (typeDisjunctiveSet H) || false).
    { apply commutes_bind; [apply commutes_alloc|]. intros.
      apply commutes_setBuilder. }
    apply commutes_throw.
Qed.

Lemma commutes_builder_apply key pred obj meta :
  commutes k0 (builder_apply H rec key pred obj meta).
Proof.
  apply commutes_bind; [apply commutes_getBuilder|]. intros b. cbv zeta.
  destruct (lookupUpdater _ _); [apply commutes_runUpdater | apply commutes_throw].
Qed.

Lemma commutes_newBuilder node t meta : commutes k0 (newBuilder H node t meta).
Proof.
  assert (forall (g : addr -> builder) e,
    commutes k0 (b <- (a <- alloc e ;; ret (g a)) ;; ret (Some (Some b)))) as Hnew.
  { intros. apply commutes_bind; [|intros; apply commutes_ret].
    apply commutes_bind; [apply commutes_alloc | intros; apply commutes_ret]. }
  assert (forall (m : M builder), commutes k0 m ->
    commutes k0 (b <- m ;; ret (Some (Some b)))) as Hsome.
  { intros. apply commutes_bind; [done | intros; apply commutes_ret]. }
  assert (forall meta', commutes k0 (licenceReferenceBuilder H node meta')) as Hlic.
  { intros. apply commutes_bind; [apply commutes_alloc | intros; apply commutes_ret]. }
  unfold newBuilder.
  destruct (Equals t (typeDocument H)).
  { apply Hsome. apply commutes_bind; [apply commutes_alloc|]. intros a.
    apply commutes_bind; [|intros; apply commutes_ret]. intros p p' [= <-]. auto. }
  destruct (Equals t (typeCreationInfo H)); [apply Hnew|].
  destruct (Equals t (typePackage H)); [apply Hnew|].
  destruct (Equals t (typeChecksum H)); [apply Hnew|].
  destruct (Equals t (typeVerificationCode H)); [apply Hnew|].
  destruct (Equals t (typeFile H)); [apply Hnew|].
  destruct (Equals t (typeReview H)); [apply Hnew|].
  destruct (Equals t (typeArtifactOf H)); [apply Hnew|].
  destruct (Equals t (typeExtractedLicence H)); [apply Hnew|].
  destruct (Equals t (typeAnyLicence H)).
  { destruct node; [by apply Hsome| |apply commutes_ret].
    destruct (HasPrefix _ _); apply Hnew. }
  destruct (Equals t (typeLicence H)); [by apply Hsome|].
  destruct (Equals t typeAbstractLicenceSet); [apply Hnew|].
  destruct (Equals t (typeConjunctiveSet H)).
  { apply Hsome. apply commutes_bind; [apply commutes_alloc|].
    intros; apply commutes_ret. }
  destruct (Equals t (typeDisjunctiveSet H)).
  { apply Hsome. apply commutes_bind; [apply commutes_alloc|].
    intros; apply commutes_ret. }
  apply commutes_ret.
Qed.

End Strip.

Lemma registerAndReplay_commutes (H : Helpers) k0 rec key bldr :
  key <> k0 ->
  (forall node t meta, commutes k0 (rec node t meta)) ->
  commutes k0 (registerAndReplay H rec key bldr).
Proof.
  intros Hne Hrec. unfold registerAndReplay.
  apply commutes_bind; [apply commutes_setBuilder|]. intros _.
  apply commutes_bind.
  { intros p p' [= <-]. split; [done|]. intros _. unfold strip. simpl.
    by rewrite lookup_delete_ne. }
  intros buf. apply commutes_bind.
  { apply commutes_forEach. intros. by apply commutes_builder_apply. }
  intros _. apply commutes_bind.
  { intros p p' [= <-]. split; [done|]. intros _. unfold strip. simpl.
    by rewrite delete_delete. }
  intros _. apply commutes_bind; [apply commutes_getBuilder|].
  intros. apply commutes_ret.
Qed.

Lemma fresh_key (s : string) : String "x"%char s <> s.
Proof.
  intros E. apply (f_equal String.length) in E. simpl in E. lia.
Qed.

Lemma setType_body_resolved (H : Helpers) rec node t meta p bldr :
  index p !! termStr node = Some (Some bldr) ->
  setType_body H rec node t meta p =
  (if negb (equalTypes (bldr_t bldr) [t]) && builder_has bldr "ns:type" then
     builder_apply H rec (termStr node) (uri "ns:type") t meta ;;;
     bldr <- getBuilder (termStr node) ;;
     ret (bldr_ptr bldr)
   else if negb (compatibleTypes H (bldr_t bldr) t) then
     throw (NewParseError
              (Sprintf msgIncompatibleTypes
                 [ArgTerm node; ArgTerm (bldr_t bldr); ArgTerm t]) meta)
   else ret (bldr_ptr bldr)) p.
Proof.
  intros Hidx. unfold setType_body. rewrite Hidx.
  destruct (negb _ && _); [done|]. by destruct (negb _).
Qed.

Lemma setType_body_unresolved (H : Helpers) rec node t meta p :
  index p !! termStr node = None ->
  setType_body H rec node t meta p =
  (nb <- newBuilder H node t meta ;;
   match nb with
   | None => throw (NewParseError (Sprintf msgUnknownType [ArgTerm t]) meta)
   | Some bldr => registerAndReplay H rec (termStr node) bldr
   end) p.
Proof. intros Hidx. unfold setType_body. by rewrite Hidx. Qed.

Lemma setType_fuel_commutes (H : Helpers) fuel :
  forall k0 node t meta, commutes k0 (setType_fuel H fuel node t meta).
Proof.
  induction fuel as [|fuel IH]; intros k0 node t meta; [by intros p p' ?|].
  rewrite setType_fuel_S. intros p p' Hst.
  destruct (index p !! termStr node) as [[bldr|]|] eqn:Hidx.
  - rewrite (setType_body_resolved H _ _ _ _ (strip k0 p) bldr) by done.
    rewrite (setType_body_resolved H _ _ _ _ p bldr) in * by done.
    match goal with
    | |- context [mapState _ (?m p)] =>
        enough (commutes k0 m) as Hc by exact (Hc p p' Hst)
    end.
    destruct (negb _ && _).
    + apply commutes_bind; [by apply commutes_builder_apply|]. intros _.
      apply commutes_bind; [apply commutes_getBuilder|]. intros.
      apply commutes_ret.
    + destruct (negb _); [apply commutes_throw | apply commutes_ret].
  - unfold setType_body in *. change (index (strip k0 p)) with (index p).
    rewrite Hidx in *. injection Hst as <-. auto.
  - rewrite (setType_body_unresolved H _ _ _ _ (strip k0 p)) by done.
    rewrite (setType_body_unresolved H _ _ _ _ p) in * by done.
    match goal with
    | |- context [mapState _ (?m p)] =>
        enough (commutes k0 m) as Hc by exact (Hc p p' Hst)
    end.
    apply commutes_bind; [apply commutes_newBuilder|]. intros [bldr|];
      [|apply commutes_throw].
    destruct (decide (termStr node = k0)) as [<-|Hne];
      [|by apply registerAndReplay_commutes].
    (* the node is [k0] itself: it is in the index from here on *)
    pose proof (registerAndReplay_commutes H (String "x"%char (termStr node))
                  (setType_fuel H fuel) (termStr node) bldr
                  (fun E => fresh_key _ (eq_sym E))
                  (IH (String "x"%char (termStr node)))) as Hmono.
    clear p p' Hst Hidx.
    intros q q' Hst. destruct (Hmono q q' Hst) as [Hgrows _].
    split; [done|]. intros Hnone. exfalso.
    unfold registerAndReplay, bind at 1, setBuilder at 1 in Hst.
    set (q1 := with_index (<[termStr node := bldr]> (index q)) q) in Hst.
    assert (commutes (String "x"%char (termStr node))
      (buf <- (fun p => Ok (default [] (buffer p !! termStr node)) p) ;;
       forEach buf (fun stm =>
         builder_apply H (setType_fuel H fuel) (termStr node)
           (Predicate (entry_stm stm)) (Object (entry_stm stm))
           (entry_meta stm)) ;;;
       (fun p => Ok tt (with_buffer (delete (termStr node) (buffer p)) p)) ;;;
       bldr <- getBuilder (termStr node) ;;
       ret (bldr_ptr bldr))) as Hrest.
    { apply commutes_bind.
      { intros p1 p1' [= <-]. split; [done|]. intros _. unfold strip. simpl.
        rewrite lookup_delete_ne; [done|]. apply fresh_key. }
      intros buf. apply commutes_bind.
      { apply commutes_forEach. intros. by apply commutes_builder_apply. }
      intros _. apply commutes_bind.
      { intros p1 p1' [= <-]. split; [done|]. intros _. unfold strip. simpl.
        by rewrite delete_delete. }
      intros _. apply commutes_bind; [apply commutes_getBuilder|].
      intros. apply commutes_ret. }
    destruct (Hrest q1 q' Hst) as [Hgrows1 _].
    destruct (Hgrows1 (termStr node)) as [x Hx]; [|congruence].
    subst q1. simpl. rewrite lookup_insert_eq. eauto.
Qed.

Lemma fuelOf_strip k0 p : fuelOf (strip k0 p) <= fuelOf p.
Proof.
  unfold fuelOf, strip. simpl.
  pose proof (map_subseteq_size _ _ (delete_subseteq (buffer p) k0)). lia.
Qed.

(** With the fuel of the larger state, on the smaller one. *)
Lemma setType_strip_fuel (H : Helpers) k0 node t meta p :
  setType H node t meta (strip k0 p) =
  setType_fuel H (fuelOf p) node t meta (strip k0 p).
Proof.
  symmetry. apply (setType_fuel_refines H _ _ (fuelOf_strip k0 p)).
  apply setType_terminates.
Qed.

Lemma apply_strip_fuel (H : Helpers) k0 key pred obj meta p :
  apply H key pred obj meta (strip k0 p) =
  builder_apply H (setType_fuel H (fuelOf p)) key pred obj meta (strip k0 p).
Proof.
  symmetry.
  apply (refines_builder_apply H (setType_fuel H (fuelOf (strip k0 p)))).
  - intros. apply setType_fuel_refines, fuelOf_strip.
  - apply apply_terminates.
Qed.

Lemma processTruple_grows (H : Helpers) stm meta p p' :
  stateOf (processTruple H stm meta p) = Some p' ->
  forall k, is_Some (index p !! k) -> is_Some (index p' !! k).
Proof.
  intros Hst. unfold processTruple in Hst. destruct (Equals _ _).
  - unfold bind, setType in Hst.
    destruct (setType_fuel H (fuelOf p) (Subject stm) (Object stm) meta p)
      as [a q|e q|q|] eqn:Hrun; [| | |done]; injection Hst as <-;
      (destruct (setType_fuel_commutes H (fuelOf p) "" (Subject stm) (Object stm)
                   meta p q) as [Hg _];
       [by rewrite Hrun | done]).
  - destruct (index p !! termStr (Subject stm)) eqn:Hidx.
    + unfold apply in Hst.
      destruct (commutes_builder_apply H "" (setType_fuel H (fuelOf p))
                  (setType_fuel_commutes H (fuelOf p) "") _ _ _ _ p p' Hst)
        as [Hg _]. done.
    + by injection Hst as <-.
Qed.

Lemma parseLoop_grows (H : Helpers) input :
  forall p p',
    stateOf (parseLoop H input p) = Some p' ->
    forall k, is_Some (index p !! k) -> is_Some (index p' !! k).
Proof.
  induction input as [|[stm line] input IH]; intros p p' Hst k Hk.
  - by injection Hst as <-.
  - simpl in Hst. unfold bind in Hst.
    destruct (processTruple H stm (Some (NewMetaL line)) p) as [[] q|e q|q|]
      eqn:Hrun; [| | |done].
    + eapply IH; [done|]. eapply processTruple_grows; [by rewrite Hrun | done].
    + injection Hst as <-. eapply processTruple_grows; [by rewrite Hrun | done].
    + injection Hst as <-. eapply processTruple_grows; [by rewrite Hrun | done].
Qed.

(** A triple that is not buffered under [k0] is processed in the same way
    with and without the buffer entry of [k0]. *)
Lemma processTruple_commutes (H : Helpers) k0 stm line :
  bufferedFor k0 (stm, line) = false ->
  forall meta, commutes k0 (processTruple H stm meta).
Proof.
  intros Hnb meta p p' Hst.
  split; [by eapply processTruple_grows|]. intros Hnone.
  unfold processTruple in *. change (index (strip k0 p)) with (index p).
  unfold bufferedFor in Hnb. simpl in Hnb.
  destruct (Equals (Predicate stm) uri_nstype) eqn:Htype.
  - unfold bind in *. rewrite setType_strip_fuel. unfold setType in *.
    destruct (setType_fuel H (fuelOf p) (Subject stm) (Object stm) meta p)
      as [a q|e q|q|] eqn:Hrun; [| | |done]; injection Hst as <-;
      (destruct (setType_fuel_commutes H (fuelOf p) k0 (Subject stm) (Object stm)
                   meta p q) as [_ Hc];
       [by rewrite Hrun|]); rewrite Hc, Hrun by done; done.
  - destruct (index p !! termStr (Subject stm)) eqn:Hidx.
    + rewrite apply_strip_fuel. unfold apply in *.
      destruct (commutes_builder_apply H k0 (setType_fuel H (fuelOf p))
                  (setType_fuel_commutes H (fuelOf p) k0) _ _ _ _ p p' Hst)
        as [_ Hc].
      by apply Hc.
    + rewrite andb_true_r in Hnb. apply bool_decide_eq_false in Hnb.
      simpl. unfold strip, with_buffer. simpl.
      rewrite lookup_delete_ne by done.
      rewrite (delete_insert_ne (buffer p) k0) by done. done.
Qed.

Lemma parseLoop_strip (H : Helpers) k0 input :
  forall p p',
    stateOf (parseLoop H input p) = Some p' ->
    index p' !! k0 = None ->
    parseLoop H (filter (fun x => negb (bufferedFor k0 x)) input) (strip k0 p) =
    mapState (strip k0) (parseLoop H input p).
Proof.
  induction input as [|[stm line] input IH]; intros p p' Hst Hnone; [done|].
  rewrite filter_cons. simpl in Hst. unfold bind in Hst.
  destruct (bufferedFor k0 (stm, line)) eqn:Hbuf; simpl negb; cbv iota.
  - (* the statement is buffered under [k0], or [k0] is already resolved *)
    unfold bufferedFor in Hbuf. simpl in Hbuf.
    apply andb_true_iff in Hbuf as [Hkey Htype].
    apply bool_decide_eq_true in Hkey. apply negb_true_iff in Htype.
    simpl. unfold bind.
    destruct (index p !! k0) eqn:Hidx.
    { exfalso. destruct (parseLoop_grows H ((stm, line) :: input) p p') with (k := k0)
        as [x Hx]; [done | eauto | congruence]. }
    unfold processTruple in *. rewrite Htype, Hkey, Hidx in *.
    match type of Hst with
    | stateOf (parseLoop _ _ ?p1) = _ =>
        assert (strip k0 p1 = strip k0 p) as Hs
          by (unfold strip, with_buffer; simpl; by rewrite delete_insert_eq)
    end.
    rewrite <- Hs. by eapply IH.
  - simpl. unfold bind.
    destruct (processTruple H stm (Some (NewMetaL line)) p) as [[] q|e q|q|]
      eqn:Hrun; [| | |done].
    + destruct (processTruple_commutes H k0 stm line Hbuf (Some (NewMetaL line)) p q)
        as [_ Hc]; [by rewrite Hrun|].
      rewrite Hc, Hrun; [by eapply IH|].
      destruct (index q !! k0) eqn:Hq; [|done].
      destruct (parseLoop_grows H input q p' Hst k0) as [x Hx]; [eauto|congruence].
    + injection Hst as <-.
      destruct (processTruple_commutes H k0 stm line Hbuf (Some (NewMetaL line)) p q)
        as [_ Hc]; [by rewrite Hrun|].
      by rewrite Hc, Hrun.
    + injection Hst as <-.
      destruct (processTruple_commutes H k0 stm line Hbuf (Some (NewMetaL line)) p q)
        as [_ Hc]; [by rewrite Hrun|].
      by rewrite Hc, Hrun.
Qed.

(** C10.  Let [k0] be a node key that has no builder when [Parse] returns,
    so that it received no type, asserted or synthesized, during the whole
    stream.  Then the statements that were buffered for [k0] had no effect:
    without them [Parse] returns the same document pointer and the same
    error (none, when there was none), on the same heap and the same index;
    the buffers differ only in the entry of [k0], which is still there and
    is never reported. *)
Theorem unresolved_statements_discarded (H : Helpers) k0 input d err p :
  Parse H input = Returned d err p ->
  index p !! k0 = None ->
  Parse H (filter (fun x => negb (bufferedFor k0 x)) input) =
  Returned d err (strip k0 p)
  /\ heap (strip k0 p) = heap p
  /\ index (strip k0 p) = index p
  /\ doc (strip k0 p) = doc p
  /\ forall k, k <> k0 -> buffer (strip k0 p) !! k = buffer p !! k.
Proof.
  intros Hrun Hnone. split.
  - unfold Parse in *.
    assert (strip k0 NewParser = NewParser) as Hnew.
    { unfold strip, NewParser. simpl. by rewrite delete_empty. }
    destruct (parseLoop H input NewParser) as [[] q|e q|q|] eqn:Hloop; try done;
      injection Hrun as <- <- <-;
      (pose proof (parseLoop_strip H k0 input NewParser q) as Hs;
       rewrite Hloop, Hnew in Hs; by rewrite Hs).
  - repeat split. intros k Hk. unfold strip. simpl. by rewrite lookup_delete_ne.
Qed.

Lemma unresolved_statements_discarded_witness :
  let d := Uri "http://example.org/doc" in
  let x := Blank "orphan" in
  let input := [ (Sample.stm d uri_nstype (typeDocument Sample.helpers), 1%Z);
                 (Sample.stm x (Sample.prop "name") (Sample.lit "lost"), 2%Z);
                 (Sample.stm d (Sample.prop "specVersion") (Sample.lit "SPDX-1.2"), 3%Z) ] in
  let kept := [ (Sample.stm d uri_nstype (typeDocument Sample.helpers), 1%Z);
                (Sample.stm d (Sample.prop "specVersion") (Sample.lit "SPDX-1.2"), 3%Z) ] in
  exists p,
    Parse Sample.helpers input = Returned (Some 0) None p
    /\ Parse Sample.helpers kept = Returned (Some 0) None (strip "orphan" p)
    /\ heap (strip "orphan" p) = heap p.
Proof.
  intros d x input kept.
  destruct (Parse Sample.helpers input) as [d' err p| |] eqn:Hrun;
    [| vm_compute in Hrun; discriminate Hrun ..].
  assert (d' = Some 0 /\ err = None /\ index p !! "orphan" = None) as (-> & -> & Hnone).
  { vm_compute in Hrun. injection Hrun as <- <- <-. repeat split; reflexivity. }
  exists p. split; [reflexivity|].
  destruct (unresolved_statements_discarded Sample.helpers "orphan" input (Some 0) None
              p Hrun Hnone) as (Hkept & Hheap & _).
  split; [exact Hkept | exact Hheap].
Defined.

(** ** C2: the location of an entity is never read *)

Lemma eraseAt_inv a p q :
  eraseAt a p = eraseAt a q ->
  index p = index q /\ buffer p = buffer q /\ doc p = doc q
  /\ alter eraseMeta a (heap p) = alter eraseMeta a (heap q).
Proof. unfold eraseAt, with_heap. intros [= ? ? ? ?]. auto. Qed.

Lemma eraseAt_intro a p q :
  index p = index q -> buffer p = buffer q -> doc p = doc q ->
  alter eraseMeta a (heap p) = alter eraseMeta a (heap q) ->
  eraseAt a p = eraseAt a q.
Proof. unfold eraseAt, with_heap. by intros -> -> -> ->. Qed.

Lemma erased_length a (h1 h2 : list Entity) :
  alter eraseMeta a h1 = alter eraseMeta a h2 -> length h1 = length h2.
Proof.
  intros E. apply (f_equal length) in E. by rewrite !length_alter in E.
Qed.

Lemma erased_lookup a (h1 h2 : list Entity) x :
  alter eraseMeta a h1 = alter eraseMeta a h2 ->
  eraseMeta <$> h1 !! x = eraseMeta <$> h2 !! x.
Proof.
  intros E. apply (f_equal (fun h => eraseMeta <$> h !! x)) in E.
  destruct (decide (a = x)) as [->|Hne].
  - rewrite !list_lookup_alter_eq in E.
    destruct (h1 !! x) as [[]|], (h2 !! x) as [[]|]; simpl in *; congruence.
  - by rewrite !list_lookup_alter_ne in E.
Qed.

Lemma erased_lookup_ne a (h1 h2 : list Entity) x :
  alter eraseMeta a h1 = alter eraseMeta a h2 -> a <> x -> h1 !! x = h2 !! x.
Proof.
  intros E Hne. apply (f_equal (fun h => h !! x)) in E.
  by rewrite !list_lookup_alter_ne in E.
Qed.

(** What two heaps that agree up to the location at [a] hold at any address. *)
Lemma erased_cases a (h1 h2 : list Entity) x :
  alter eraseMeta a h1 = alter eraseMeta a h2 ->
  h1 !! x = h2 !! x
  \/ exists ty m1 m2 fields,
       x = a /\ h1 !! x = Some (Struct ty m1 fields)
       /\ h2 !! x = Some (Struct ty m2 fields).
Proof.
  intros E. destruct (decide (a = x)) as [->|Hne];
    [|left; by eapply erased_lookup_ne].
  pose proof (erased_lookup x h1 h2 x E) as Hx.
  destruct (h1 !! x) as [[ty1 m1 f1| |]|], (h2 !! x) as [[ty2 m2 f2| |]|];
    simpl in Hx; try discriminate; try (left; congruence).
  injection Hx as <- <-. right. eauto 10.
Qed.

Lemma erased_insert a (h1 h2 : list Entity) x e1 e2 :
  alter eraseMeta a h1 = alter eraseMeta a h2 ->
  (if decide (a = x) then eraseMeta e1 = eraseMeta e2 else e1 = e2) ->
  alter eraseMeta a (<[x := e1]> h1) = alter eraseMeta a (<[x := e2]> h2).
Proof.
  intros E He. apply list_eq. intros i.
  pose proof (erased_length a h1 h2 E) as Hlen.
  destruct (decide (x < length h1)) as [Hlt|Hge].
  2:{ rewrite !list_insert_ge by lia. by rewrite E. }
  destruct (decide (a = i)) as [->|Hai].
  - rewrite !list_lookup_alter_eq.
    destruct (decide (x = i)) as [->|Hxi].
    + rewrite decide_True in He by done.
      rewrite !list_lookup_insert_eq by lia. simpl. by rewrite He.
    + rewrite !list_lookup_insert_ne by done. by apply erased_lookup with (a := i).
  - rewrite !list_lookup_alter_ne by done.
    destruct (decide (x = i)) as [->|Hxi].
    + rewrite decide_False in He by done. subst.
      by rewrite !list_lookup_insert_eq by lia.
    + rewrite !list_lookup_insert_ne by done. by eapply erased_lookup_ne.
Qed.

Lemma erased_app a (h1 h2 : list Entity) e :
  alter eraseMeta a h1 = alter eraseMeta a h2 ->
  alter eraseMeta a (h1 ++ [e]) = alter eraseMeta a (h2 ++ [e]).
Proof.
  intros E. pose proof (erased_length a h1 h2 E) as Hlen.
  apply list_eq. intros i.
  destruct (decide (a = i)) as [->|Hai].
  - rewrite !list_lookup_alter_eq.
    destruct (decide (i < length h1)) as [Hlt|Hge].
    + rewrite !lookup_app_l by lia. by apply erased_lookup with (a := i).
    + rewrite !lookup_app_r by lia. by rewrite Hlen.
  - rewrite !list_lookup_alter_ne by done.
    destruct (decide (i < length h1)) as [Hlt|Hge].
    + rewrite !lookup_app_l by lia. by eapply erased_lookup_ne.
    + rewrite !lookup_app_r by lia. by rewrite Hlen.
Qed.

Lemma Ok_inj {A} (x y : A) (p q : Parser) : Ok x p = Ok y q -> x = y /\ p = q.
Proof. by intros [= -> ->]. Qed.

Lemma Err_inj {A} e e' (p q : Parser) : @Err A e p = Err e' q -> e = e' /\ p = q.
Proof. by intros [= -> ->]. Qed.

Lemma Panic_inj {A} (p q : Parser) : @Panic A p = Panic q -> p = q.
Proof. by intros [= ->]. Qed.

Section Erase.

Variable H : Helpers.
Variable a : addr.
Variable rec : Term -> Term -> option Meta -> M addr.
Hypothesis rec_respects : forall node t meta, respects a (rec node t meta).

Lemma respects_ret {A} (x : A) : respects a (ret x).
Proof. intros p q E. simpl. by rewrite E. Qed.

Lemma respects_throw {A} e : respects a (@throw A e).
Proof. intros p q E. simpl. by rewrite E. Qed.

Lemma respects_panic {A} : respects a (@panic A).
Proof. intros p q E. simpl. by rewrite E. Qed.

Lemma respects_bind {A B} (m : M A) (k : A -> M B) :
  respects a m -> (forall x, respects a (k x)) -> respects a (bind m k).
Proof.
  intros Hm Hk p q E. specialize (Hm p q E). unfold bind.
  destruct (m p) as [x p1|e p1|p1|], (m q) as [y q1|e' q1|q1|];
    simpl in Hm; try discriminate; [| | |done].
  - apply Ok_inj in Hm as [-> E1]. by apply Hk.
  - apply Err_inj in Hm as [-> E1]. simpl. by rewrite E1.
  - apply Panic_inj in Hm. simpl. by rewrite Hm.
Qed.

Lemma respects_catch {A} (m : M A) : respects a m -> respects a (catch m).
Proof.
  intros Hm p q E. specialize (Hm p q E). unfold catch.
  destruct (m p) as [x p1|e p1|p1|], (m q) as [y q1|e' q1|q1|];
    simpl in *; try discriminate; [| | |done].
  - apply Ok_inj in Hm as [-> ->]. done.
  - apply Err_inj in Hm as [-> ->]. done.
  - apply Panic_inj in Hm. by rewrite Hm.
Qed.

Lemma respects_forEach {A} (l : list A) (f : A -> M unit) :
  (forall x, respects a (f x)) -> respects a (forEach l f).
Proof.
  intros Hf. induction l as [|x l IH]; simpl; [apply respects_ret|].
  by apply respects_bind.
Qed.

Lemma respects_alloc e : respects a (alloc e).
Proof.
  intros p q E. apply eraseAt_inv in E as (Hi & Hb & Hd & Hh).
  unfold alloc. simpl. rewrite (erased_length _ _ _ Hh). f_equal.
  apply eraseAt_intro; simpl; auto. by apply erased_app.
Qed.

(** What follows a [load] may not depend on the location of a struct. *)
Lemma respects_load {A} x (k : Entity -> M A) :
  (forall e, respects a (k e)) ->
  (forall ty m1 m2 fields p q,
     heap p !! x = Some (Struct ty m1 fields) ->
     heap q !! x = Some (Struct ty m2 fields) ->
     eraseAt a p = eraseAt a q ->
     mapState (eraseAt a) (k (Struct ty m1 fields) p) =
     mapState (eraseAt a) (k (Struct ty m2 fields) q)) ->
  respects a (e <- load x ;; k e).
Proof.
  intros Hk Hstruct p q E. unfold bind, load.
  pose proof (eraseAt_inv _ _ _ E) as (_ & _ & _ & Hh).
  destruct (erased_cases a (heap p) (heap q) x Hh)
    as [Heq|(ty & m1 & m2 & fields & _ & Hp & Hq)].
  - rewrite Heq. destruct (heap q !! x); [by apply Hk | simpl; by rewrite E].
  - rewrite Hp, Hq. by eapply Hstruct.
Qed.

Lemma respects_getField ptr : respects a (getField ptr).
Proof.
  apply respects_load.
  - intros []; [apply respects_ret | apply respects_panic..].
  - intros. simpl. by f_equal.
Qed.

Lemma respects_setField ptr v : respects a (setField ptr v).
Proof.
  apply respects_load.
  - intros [ty m fields| |]; [|apply respects_panic..].
    intros p q E. simpl. f_equal.
    pose proof (eraseAt_inv _ _ _ E) as (Hi & Hb & Hd & Hh).
    apply eraseAt_intro; simpl; auto. apply erased_insert; [done|].
    by destruct (decide _).
  - intros ty m1 m2 fields p q Hp Hq E. simpl. f_equal.
    pose proof (eraseAt_inv _ _ _ E) as (Hi & Hb & Hd & Hh).
    apply eraseAt_intro; simpl; auto. apply erased_insert; [done|].
    destruct (decide (a = ptr.1)) as [Ha|Hne]; [done|].
    pose proof (erased_lookup_ne a _ _ ptr.1 Hh Hne). congruence.
Qed.

Lemma respects_appendField arr app : respects a (appendField arr app).
Proof.
  apply respects_bind; [apply respects_getField | intros; apply respects_setField].
Qed.

Lemma respects_Add set lic : respects a (Add set lic).
Proof.
  apply respects_load.
  - intros [| |k members meta]; [apply respects_panic..|].
    intros p q E. simpl. f_equal.
    pose proof (eraseAt_inv _ _ _ E) as (Hi & Hb & Hd & Hh).
    apply eraseAt_intro; simpl; auto. apply erased_insert; [done|].
    by destruct (decide _).
  - intros. simpl. by f_equal.
Qed.

Lemma respects_getBuilder key : respects a (getBuilder key).
Proof.
  intros p q E. pose proof (eraseAt_inv _ _ _ E) as (Hi & _).
  unfold getBuilder. rewrite Hi.
  destruct (index q !! key) as [[b|]|]; simpl; by rewrite E.
Qed.

Lemma respects_setBuilder key b : respects a (setBuilder key b).
Proof.
  intros p q E. pose proof (eraseAt_inv _ _ _ E) as (Hi & Hb & Hd & Hh).
  unfold setBuilder. simpl. f_equal. apply eraseAt_intro; simpl; auto.
  by rewrite Hi.
Qed.

Lemma respects_setClosure key property f : respects a (setClosure key property f).
Proof.
  apply respects_bind; [apply respects_getBuilder | intros; apply respects_setBuilder].
Qed.

Lemma respects_reqType node t : respects a (reqType H rec node t).
Proof.
  intros p q E. pose proof (eraseAt_inv _ _ _ E) as (Hi & _).
  unfold reqType. rewrite Hi.
  destruct (index q !! termStr node) as [[b|]|].
  - destruct (negb _); simpl; by rewrite E.
  - simpl; by rewrite E.
  - by apply rec_respects.
Qed.

Lemma respects_reqStruct r node : respects a (reqStruct H rec r node).
Proof.
  apply respects_bind; [apply respects_reqType|]. intros obj.
  apply respects_load.
  - intros [ty ? ?| |]; [|apply respects_panic..].
    case_bool_decide; [apply respects_ret | apply respects_panic].
  - intros ty m1 m2 fields p q _ _ E.
    case_bool_decide; simpl; by rewrite E.
Qed.

Lemma respects_reqAnyLicence node : respects a (reqAnyLicence H rec node).
Proof.
  apply respects_bind; [apply respects_reqType|]. intros obj.
  apply respects_load.
  - intros [[] ? ?| |[] ? ?]; first [apply respects_ret | apply respects_throw].
  - intros [] m1 m2 fields p q _ _ E; simpl; by rewrite E.
Qed.

Lemma respects_assign {A} (m : M A) ptr (v : A -> Value) v0 :
  respects a m ->
  respects a (x <- catch m ;;
              match x with
              | inl y => setField ptr (v y)
              | inr err => setField ptr v0 ;;; throw err
              end).
Proof.
  intros Hm. apply respects_bind; [by apply respects_catch|].
  intros [y|err]; [apply respects_setField|].
  apply respects_bind; [apply respects_setField | intros; apply respects_throw].
Qed.

Lemma respects_runUpdater key property f obj meta :
  respects a (runUpdater H rec key property f obj meta).
Proof.
  assert (forall ptr v f',
    respects a (setField ptr v ;;; setClosure key property f')) as Hwrite.
  { intros. apply respects_bind; [apply respects_setField|]. intros.
    apply respects_setClosure. }
  destruct f; simpl.
  - destruct set; [apply respects_throw | apply Hwrite].
  - destruct set; [apply respects_throw | apply Hwrite].
  - apply respects_appendField.
  - destruct set; [apply respects_throw | apply Hwrite].
  - destruct set; [apply respects_throw | apply Hwrite].
  - apply respects_appendField.
  - apply respects_assign, respects_reqStruct.
  - apply respects_bind; [apply respects_reqStruct|]. intros.
    apply respects_appendField.
  - apply respects_assign, respects_reqAnyLicence.
  - apply respects_bind; [apply respects_reqAnyLicence|]. intros.
    apply respects_appendField.
  - destruct algoSet; [apply respects_throw | apply Hwrite].
  - apply respects_bind; [apply respects_reqAnyLicence|]. intros.
    apply respects_bind; [apply respects_getBuilder|]. intros. apply respects_Add.
  - apply respects_bind; [apply respects_getBuilder|]. intros bldr.
    destruct (negb _); [apply respects_throw|].
    apply respects_load.
    + intros [| |[] members tmpMeta]; try apply respects_panic.
      destruct (Equals obj (typeConjunctiveSet H) || false).
      { apply respects_bind; [apply respects_alloc|]. intros.
        apply respects_setBuilder. }
      destruct (Equals obj (typeDisjunctiveSet H) || false).
      { apply respects_bind; [apply respects_alloc|]. intros.
        apply respects_setBuilder. }
      apply respects_throw.
    + intros. simpl. by f_equal.
Qed.

Lemma respects_builder_apply key pred obj meta :
  respects a (builder_apply H rec key pred obj meta).
Proof.
  apply respects_bind; [apply respects_getBuilder|]. intros b. cbv zeta.
  destruct (lookupUpdater _ _); [apply respects_runUpdater | apply respects_throw].
Qed.

Lemma respects_newBuilder node t meta : respects a (newBuilder H node t meta).
Proof.
  assert (forall (g : addr -> builder) e,
    respects a (b <- (x <- alloc e ;; ret (g x)) ;; ret (Some (Some b)))) as Hnew.
  { intros. apply respects_bind; [|intros; apply respects_ret].
    apply respects_bind; [apply respects_alloc | intros; apply respects_ret]. }
  assert (forall (m : M builder), respects a m ->
    respects a (b <- m ;; ret (Some (Some b)))) as Hsome.
  { intros. apply respects_bind; [done | intros; apply respects_ret]. }
  assert (forall meta', respects a (licenceReferenceBuilder H node meta')) as Hlic.
  { intros. apply respects_bind; [apply respects_alloc | intros; apply respects_ret]. }
  unfold newBuilder.
  destruct (Equals t (typeDocument H)).
  { apply Hsome. apply respects_bind; [apply respects_alloc|]. intros x.
    apply respects_bind; [|intros; apply respects_ret].
    intros p q E. simpl. f_equal.
    pose proof (eraseAt_inv _ _ _ E) as (Hi & Hb & Hd & Hh).
    by apply eraseAt_intro. }
  destruct (Equals t (typeCreationInfo H)); [apply Hnew|].
  destruct (Equals t (typePackage H)); [apply Hnew|].
  destruct (Equals t (typeChecksum H)); [apply Hnew|].
  destruct (Equals t (typeVerificationCode H)); [apply Hnew|].
  destruct (Equals t (typeFile H)); [apply Hnew|].
  destruct (Equals t (typeReview H)); [apply Hnew|].
  destruct (Equals t (typeArtifactOf H)); [apply Hnew|].
  destruct (Equals t (typeExtractedLicence H)); [apply Hnew|].
  destruct (Equals t (typeAnyLicence H)).
  { destruct node; [by apply Hsome| |apply respects_ret].
    destruct (HasPrefix _ _); apply Hnew. }
  destruct (Equals t (typeLicence H)); [by apply Hsome|].
  destruct (Equals t typeAbstractLicenceSet); [apply Hnew|].
  destruct (Equals t (typeConjunctiveSet H)).
  { apply Hsome. apply respects_bind; [apply respects_alloc|].
    intros; apply respects_ret. }
  destruct (Equals t (typeDisjunctiveSet H)).
  { apply Hsome. apply respects_bind; [apply respects_alloc|].
    intros; apply respects_ret. }
  apply respects_ret.
Qed.

Lemma respects_registerAndReplay key bldr :
  respects a (registerAndReplay H rec key bldr).
Proof.
  unfold registerAndReplay.
  apply respects_bind; [apply respects_setBuilder|]. intros _.
  apply respects_bind.
  { intros p q E. pose proof (eraseAt_inv _ _ _ E) as (_ & Hb & _).
    simpl. by rewrite Hb, E. }
  intros buf. apply respects_bind.
  { apply respects_forEach. intros. apply respects_builder_apply. }
  intros _. apply respects_bind.
  { intros p q E. pose proof (eraseAt_inv _ _ _ E) as (Hi & Hb & Hd & Hh).
    simpl. f_equal. apply eraseAt_intro; simpl; auto. by rewrite Hb. }
  intros _. apply respects_bind; [apply respects_getBuilder|].
  intros. apply respects_ret.
Qed.

Lemma respects_setType_body node t meta :
  respects a (setType_body H rec node t meta).
Proof.
  intros p q E. pose proof (eraseAt_inv _ _ _ E) as (Hi & _).
  destruct (index q !! termStr node) as [[bldr|]|] eqn:Hidx.
  - rewrite (setType_body_resolved H _ _ _ _ p bldr) by (by rewrite Hi).
    rewrite (setType_body_resolved H _ _ _ _ q bldr) by done.
    revert p q E Hi Hidx.
    match goal with
    | |- forall p q, _ -> _ -> _ -> mapState _ (?m p) = _ =>
        enough (respects a m) as Hr by (intros p q E _ _; by apply Hr)
    end.
    destruct (negb _ && _).
    + apply respects_bind; [apply respects_builder_apply|]. intros _.
      apply respects_bind; [apply respects_getBuilder|]. intros.
      apply respects_ret.
    + destruct (negb _); [apply respects_throw | apply respects_ret].
  - unfold setType_body. rewrite Hi, Hidx. simpl. by rewrite E.
  - rewrite (setType_body_unresolved H _ _ _ _ p) by (by rewrite Hi).
    rewrite (setType_body_unresolved H _ _ _ _ q) by done.
    revert p q E Hi Hidx.
    match goal with
    | |- forall p q, _ -> _ -> _ -> mapState _ (?m p) = _ =>
        enough (respects a m) as Hr by (intros p q E _ _; by apply Hr)
    end.
    apply respects_bind; [apply respects_newBuilder|]. intros [bldr|];
      [apply respects_registerAndReplay | apply respects_throw].
Qed.

End Erase.

Lemma setType_fuel_respects (H : Helpers) a fuel :
  forall node t meta, respects a (setType_fuel H fuel node t meta).
Proof.
  induction fuel as [|fuel IH]; intros node t meta; [by intros p q E|].
  rewrite setType_fuel_S. by apply respects_setType_body.
Qed.

Lemma processTruple_respects (H : Helpers) a stm meta :
  respects a (processTruple H stm meta).
Proof.
  intros p q E. pose proof (eraseAt_inv _ _ _ E) as (Hi & Hb & Hd & Hh).
  unfold processTruple. rewrite Hi. destruct (Equals _ _).
  - assert (respects a (setType_fuel H (fuelOf q) (Subject stm) (Object stm) meta
                        ;;; ret tt)) as Hr.
    { apply respects_bind; [apply setType_fuel_respects|].
      intros; apply respects_ret. }
    specialize (Hr p q E). unfold bind, setType, fuelOf in *. rewrite Hb. exact Hr.
  - destruct (index q !! termStr (Subject stm)).
    + unfold apply, fuelOf. rewrite Hb.
      apply respects_builder_apply; [|done]. intros. apply setType_fuel_respects.
    + simpl. f_equal. apply eraseAt_intro; simpl; auto. by rewrite Hb.
Qed.

Lemma parseLoop_respects (H : Helpers) a input : respects a (parseLoop H input).
Proof.
  induction input as [|[stm line] input IH]; simpl; [apply respects_ret|].
  apply respects_bind; [apply processTruple_respects | done].
Qed.

(** *** The builder of a requested kind *)

Lemma newBuilder_req (H : Helpers) r node meta p :
  distinctTypes H = true -> r <> reqArtifactOf ->
  newBuilder H node (reqTerm H r) meta p =
  Ok (Some (Some (builderOf H r (length (heap p))))) (created r meta p).
Proof.
  intros Hd Hr. unfold newBuilder, Equals.
  destruct r; simpl reqTerm; [| | | | | | | |done];
    repeat (first
      [ rewrite bool_decide_true by done
      | rewrite bool_decide_false;
        [| first [ by apply (typeTerms_distinct H 0 1)
                 | by apply (typeTerms_distinct H 1 0)
                 | by apply (typeTerms_distinct H 2 0)
                 | by apply (typeTerms_distinct H 2 1)
                 | by apply (typeTerms_distinct H 3 0)
                 | by apply (typeTerms_distinct H 3 1)
                 | by apply (typeTerms_distinct H 3 2)
                 | by apply (typeTerms_distinct H 4 0)
                 | by apply (typeTerms_distinct H 4 1)
                 | by apply (typeTerms_distinct H 4 2)
                 | by apply (typeTerms_distinct H 4 3)
                 | by apply (typeTerms_distinct H 5 0)
                 | by apply (typeTerms_distinct H 5 1)
                 | by apply (typeTerms_distinct H 5 2)
                 | by apply (typeTerms_distinct H 5 3)
                 | by apply (typeTerms_distinct H 5 4)
                 | by apply (typeTerms_distinct H 6 0)
                 | by apply (typeTerms_distinct H 6 1)
                 | by apply (typeTerms_distinct H 6 2)
                 | by apply (typeTerms_distinct H 6 3)
                 | by apply (typeTerms_distinct H 6 4)
                 | by apply (typeTerms_distinct H 6 5)
                 | by apply (typeTerms_distinct H 8 0)
                 | by apply (typeTerms_distinct H 8 1)
                 | by apply (typeTerms_distinct H 8 2)
                 | by apply (typeTerms_distinct H 8 3)
                 | by apply (typeTerms_distinct H 8 4)
                 | by apply (typeTerms_distinct H 8 5)
                 | by apply (typeTerms_distinct H 8 6)
                 | by apply (typeTerms_distinct H 8 7) ]] ]);
    reflexivity.
Qed.

Lemma builderOf_t (H : Helpers) r a : bldr_t (builderOf H r a) = reqTerm H r.
Proof. by destruct r. Qed.

Lemma builderOf_ptr (H : Helpers) r a : bldr_ptr (builderOf H r a) = a.
Proof. by destruct r. Qed.

Lemma builderOf_no_promotion (H : Helpers) r a k :
  lookupUpdater (bldr_updaters (builderOf H r a)) k <> Some nsType.
Proof.
  destruct r; simpl; repeat (case_bool_decide; [discriminate|]); discriminate.
Qed.

Lemma created_erased r m1 m2 p :
  eraseAt (length (heap p)) (created r m1 p) =
  eraseAt (length (heap p)) (created r m2 p).
Proof.
  assert (forall m,
    alter eraseMeta (length (heap p)) (heap p ++ [Struct (reqGoType r) m ∅]) =
    heap p ++ [Struct (reqGoType r) None ∅]) as Halter.
  { intros m. rewrite <- (Nat.add_0_r (length (heap p))). by rewrite alter_app_r. }
  unfold created. destruct r; apply eraseAt_intro; simpl; auto;
    by rewrite !Halter.
Qed.

(** *** What the engine keeps of two resolved nodes *)

Lemma lookup_storeUpdater_Some m k f k' g :
  lookupUpdater (storeUpdater m k f) k' = Some g ->
  (k' = k /\ g = f) \/ lookupUpdater m k' = Some g.
Proof.
  induction m as [|[k0 g0] m IH]; simpl; [done|].
  destruct (decide (k0 = k)) as [->|Hne].
  - rewrite bool_decide_true by done. simpl.
    case_bool_decide; [intros [= <-]; by left | by right].
  - rewrite bool_decide_false by done. simpl.
    case_bool_decide; [by right | done].
Qed.

Section Settled.

Variable H : Helpers.
Variables (kN prop : string) (r : reqKind) (ptr : fieldptr).
Variables (kM : string) (T : Term) (a : addr).

Local Abbreviation ok := (settled kN prop r ptr kM T a).

Lemma settled_heap_struct p h :
  ok p ->
  (forall x ty m fields,
     heap p !! x = Some (Struct ty m fields) ->
     exists m' fields', h !! x = Some (Struct ty m' fields')) ->
  ok (with_heap h p).
Proof.
  intros (HN & HM & (m & fs & Ha) & (ty & m' & fs' & Hptr)) Hh.
  split; [done|]. split; [done|]. split.
  - destruct (Hh _ _ _ _ Ha) as (? & ? & ?). simpl. eauto.
  - destruct (Hh _ _ _ _ Hptr) as (? & ? & ?). simpl. eauto.
Qed.

Lemma settled_alloc p e : ok p -> ok (with_heap (heap p ++ [e]) p).
Proof.
  intros Hp. apply settled_heap_struct; [done|]. intros x ty m fields Hx.
  exists m, fields. by apply lookup_app_l_Some.
Qed.

Lemma settled_setField p x ty m fields f v :
  ok p -> heap p !! x = Some (Struct ty m fields) ->
  ok (with_heap (<[x := Struct ty m (<[f := v]> fields)]> (heap p)) p).
Proof.
  intros Hp Hx. apply settled_heap_struct; [done|]. intros y ty' m' fields' Hy.
  destruct (decide (x = y)) as [->|Hne].
  - rewrite list_lookup_insert_eq by by eapply lookup_lt_Some.
    rewrite Hx in Hy. injection Hy as -> -> ->. eauto.
  - rewrite list_lookup_insert_ne by done. eauto.
Qed.

Lemma settled_Add p x k members m lic :
  ok p -> heap p !! x = Some (LicenceSet k members m) ->
  ok (with_heap (<[x := LicenceSet k (members ++ [lic]) m]> (heap p)) p).
Proof.
  intros Hp Hx. apply settled_heap_struct; [done|]. intros y ty' m' fields' Hy.
  destruct (decide (x = y)) as [->|Hne]; [congruence|].
  rewrite list_lookup_insert_ne by done. eauto.
Qed.

Lemma settled_doc p d : ok p -> ok (with_doc d p).
Proof. done. Qed.

Lemma settled_buffer p b : ok p -> ok (with_buffer b p).
Proof. done. Qed.

Lemma settled_closure p key b property f0 f :
  ok p -> index p !! key = Some (Some b) ->
  lookupUpdater (bldr_updaters b) property = Some f0 ->
  closureSet f0 = Some false -> closureSet f = Some true ->
  ok (with_index
        (<[key := Some {| bldr_t := bldr_t b; bldr_ptr := bldr_ptr b;
                          bldr_updaters := storeUpdater (bldr_updaters b) property f;
                          bldr_set := bldr_set b |}]> (index p)) p).
Proof.
  intros ((bN & HN & HNp) & (bM & HM & Ht & Hptr & Hns) & Ha & Hp) Hb Hf0 Hs0 Hs.
  split; [|split; [|done]].
  - simpl. destruct (decide (key = kN)) as [->|Hne].
    + rewrite lookup_insert_eq. eexists. split; [done|]. simpl.
      assert (bN = b) as -> by congruence.
      destruct (decide (property = prop)) as [->|Hpp].
      * rewrite Hf0 in HNp. injection HNp as ->. discriminate.
      * by rewrite lookup_storeUpdater_ne.
    + rewrite lookup_insert_ne by done. eauto.
  - simpl. destruct (decide (key = kM)) as [->|Hne].
    + rewrite lookup_insert_eq. eexists. split; [done|]. simpl.
      assert (bM = b) as -> by congruence. repeat split; [done..|].
      intros k Hk. apply lookup_storeUpdater_Some in Hk as [[_ <-]|Hk].
      * discriminate.
      * by eapply Hns.
    + rewrite lookup_insert_ne by done. eauto 10.
Qed.

Lemma settled_promote p key b property t x :
  ok p -> index p !! key = Some (Some b) ->
  lookupUpdater (bldr_updaters b) property = Some nsType ->
  ok (with_index
        (<[key := Some {| bldr_t := t; bldr_ptr := x;
                          bldr_updaters := bldr_updaters b; bldr_set := x |}]>
           (index p)) p).
Proof.
  intros ((bN & HN & HNp) & (bM & HM & Ht & Hptr & Hns) & Ha & Hp) Hb Hf.
  split; [|split; [|done]].
  - simpl. destruct (decide (key = kN)) as [->|Hne].
    + rewrite lookup_insert_eq. eexists. split; [done|]. simpl. congruence.
    + rewrite lookup_insert_ne by done. eauto.
  - simpl. destruct (decide (key = kM)) as [->|Hne].
    + assert (bM = b) as -> by congruence. by apply Hns in Hf.
    + rewrite lookup_insert_ne by done. eauto 10.
Qed.

Lemma settled_create p key b :
  ok p -> index p !! key = None ->
  ok (with_index (<[key := b]> (index p)) p).
Proof.
  intros ((bN & HN & HNp) & (bM & HM & HMf) & Ha & Hp) Hkey.
  split; [|split; [|done]]; simpl.
  - rewrite lookup_insert_ne by congruence. eauto.
  - rewrite lookup_insert_ne by congruence. eauto.
Qed.

Lemma builder_apply_settled rec key pred obj meta :
  (forall node t p,
     index p !! termStr node = None -> t ∈ typeTerms H -> ok p ->
     post ok ok anyError True (rec node t None p)) ->
  preserves ok ok anyError True (builder_apply H rec key pred obj meta).
Proof.
  intros Hrec. apply fine_builder_apply;
    eauto using settled_alloc, settled_setField, settled_Add, settled_doc,
      settled_closure, settled_promote.
Qed.

Lemma setType_fuel_settled fuel :
  forall node t meta p,
    index p !! termStr node = None -> ok p ->
    post ok ok anyError True (setType_fuel H fuel node t meta p).
Proof.
  induction fuel as [|fuel IH]; intros node t meta p Hidx Hp; [done|].
  rewrite setType_fuel_S, setType_body_unresolved by done.
  assert (preserves ok ok anyError True (newBuilder H node t meta)) as Hnew
    by (apply fine_newBuilder; eauto using settled_alloc, settled_doc).
  assert (post (fun p' => index p' = index p /\ buffer p' = buffer p)
               (fun p' => index p' = index p /\ buffer p' = buffer p) anyError True
               (newBuilder H node t meta p)) as Htab by apply newBuilder_tables.
  specialize (Hnew p Hp). unfold bind at 1.
  destruct (newBuilder H node t meta p) as [[bldr|] q| | |]; simpl in *; auto.
  destruct Htab as [Hqi _]. unfold registerAndReplay.
  unfold bind at 1, setBuilder at 1. unfold bind at 1.
  set (q1 := with_index (<[termStr node := bldr]> (index q)) q).
  assert (ok q1) as Hq1 by (apply settled_create; [done | by rewrite Hqi]).
  assert (preserves ok ok anyError True
    (forEach (default [] (buffer q1 !! termStr node)) (fun stm =>
       builder_apply H (setType_fuel H fuel) (termStr node)
         (Predicate (entry_stm stm)) (Object (entry_stm stm))
         (entry_meta stm)))) as Hreplay.
  { apply keeps_forEach. intros stm _. apply builder_apply_settled.
    intros. by apply IH. }
  specialize (Hreplay q1 Hq1). unfold bind at 1.
  destruct (forEach _ _ q1) as [[] q2|e q2|q2|]; simpl in Hreplay; simpl;
    try tauto.
  unfold bind, getBuilder. simpl.
  destruct (index q2 !! termStr node) as [[b|]|]; simpl; by apply settled_buffer.
Qed.

End Settled.

(** *** The two orders of a type assertion and a reference *)

Lemma processTruple_type (H : Helpers) node t meta p :
  processTruple H {| Subject := node; Predicate := uri_nstype; Object := t |} meta p =
  (setType_fuel H (fuelOf p) node t meta ;;; ret tt) p.
Proof.
  unfold processTruple. cbn [Predicate Subject Object].
  unfold Equals. rewrite bool_decide_true by done. done.
Qed.

Lemma processTruple_resolved (H : Helpers) stm meta p b :
  Equals (Predicate stm) uri_nstype = false ->
  index p !! termStr (Subject stm) = Some b ->
  processTruple H stm meta p =
  builder_apply H (setType_fuel H (fuelOf p)) (termStr (Subject stm))
    (Predicate stm) (Object stm) meta p.
Proof. intros Hp Hb. unfold processTruple. by rewrite Hp, Hb. Qed.

Lemma refAssign_run (H : Helpers) rec kN pred obj meta q bN r ptr :
  index q !! kN = Some (Some bN) ->
  lookupUpdater (bldr_updaters bN) (shortPrefix H pred) = Some (refAssign r ptr) ->
  builder_apply H rec kN pred obj meta q =
  (x <- catch (reqStruct H rec r obj) ;;
   match x with
   | inl y => setField ptr (VPtr (Some y))
   | inr err => setField ptr (VPtr None) ;;; throw err
   end) q.
Proof. intros Hb Hf. by rewrite (builder_apply_lookup H _ _ _ _ _ _ bN _ Hb Hf). Qed.

Lemma compatibleTypes_refl (H : Helpers) t : compatibleTypes H t t = true.
Proof. apply compatibleTypes_true. by left. Qed.

Lemma parseLoop_app (H : Helpers) pre rest p0 p :
  parseLoop H pre p0 = Ok tt p ->
  parseLoop H (pre ++ rest) p0 = parseLoop H rest p.
Proof.
  revert p0. induction pre as [|[stm line] pre IH]; intros p0 Hpre; simpl in *.
  - by injection Hpre as ->.
  - unfold bind in *.
    destruct (processTruple H stm (Some (NewMetaL line)) p0) as [[] q| | |];
      try done. by apply IH.
Qed.

Section Swap.

Variable H : Helpers.
Variables (N P M : Term) (r : reqKind) (ptr : fieldptr).
Variable p : Parser.

Let T := reqTerm H r.
Let a := length (heap p).
Local Abbreviation ok :=
  (settled (termStr N) (shortPrefix H P) r ptr (termStr M) T a).

Hypothesis distinct : distinctTypes H = true.
Hypothesis not_artifact : r <> reqArtifactOf.
Hypothesis P_not_type : Equals P uri_nstype = false.
Hypothesis M_unresolved : index p !! termStr M = None.
Hypothesis N_refers : exists bN,
  index p !! termStr N = Some (Some bN)
  /\ lookupUpdater (bldr_updaters bN) (shortPrefix H P) = Some (refAssign r ptr).
Hypothesis N_struct : exists ty m fields,
  heap p !! ptr.1 = Some (Struct ty m fields).

Lemma creation_run fuel meta :
  setType_fuel H (S fuel) M T meta p =
  registerAndReplay H (setType_fuel H fuel) (termStr M)
    (Some (builderOf H r a)) (created r meta p).
Proof.
  rewrite setType_fuel_S, setType_body_unresolved by done.
  unfold bind at 1. subst T. by rewrite newBuilder_req.
Qed.

Lemma created_heap meta x e :
  heap p !! x = Some e -> heap (created r meta p) !! x = Some e.
Proof.
  intros Hx. unfold created. destruct r; simpl; by apply lookup_app_l_Some.
Qed.

Lemma creation_settled fuel meta :
  post ok ok anyError True
    (registerAndReplay H (setType_fuel H fuel) (termStr M)
       (Some (builderOf H r a)) (created r meta p)).
Proof.
  destruct N_refers as (bN & HN & HNp).
  destruct N_struct as (ty & m & fields & Hptr).
  unfold registerAndReplay, bind at 1, setBuilder at 1. unfold bind at 1.
  set (q1 := with_index _ _).
  assert (index (created r meta p) = index p) as Hci by (by destruct r).
  assert (ok q1) as Hq1.
  { subst q1. repeat split; simpl.
    - exists bN. rewrite Hci, lookup_insert_ne by congruence. done.
    - eexists. rewrite lookup_insert_eq. split; [done|].
      rewrite builderOf_t, builderOf_ptr. repeat split; [done..|].
      apply builderOf_no_promotion.
    - exists meta, ∅. unfold created, a. destruct r; simpl;
        rewrite lookup_app_r by lia; by rewrite Nat.sub_diag.
    - exists ty, m, fields. by apply created_heap. }
  assert (preserves ok ok anyError True
    (forEach (default [] (buffer q1 !! termStr M)) (fun stm =>
       builder_apply H (setType_fuel H fuel) (termStr M)
         (Predicate (entry_stm stm)) (Object (entry_stm stm))
         (entry_meta stm)))) as Hreplay.
  { apply keeps_forEach. intros stm _. apply builder_apply_settled.
    intros. by apply setType_fuel_settled. }
  specialize (Hreplay q1 Hq1). unfold bind at 1.
  destruct (forEach _ _ q1) as [[] q2|e q2|q2|]; simpl in Hreplay; simpl;
    try tauto.
  unfold bind, getBuilder. simpl.
  destruct (index q2 !! termStr M) as [[b|]|]; simpl; by apply settled_buffer.
Qed.

(** On a state where both nodes are settled, the reference finds its
    target and the type assertion changes nothing. *)
Lemma reqStruct_settled rec q : ok q -> reqStruct H rec r M q = Ok a q.
Proof.
  intros (_ & (bM & HM & Ht & Hptr & _) & (m & fields & Ha) & _).
  unfold reqStruct, bind, reqType. rewrite HM, Ht. fold T.
  rewrite compatibleTypes_refl. cbn [negb]. rewrite Hptr.
  unfold load. rewrite Ha. by rewrite bool_decide_true.
Qed.

Lemma reference_settled rec meta q :
  ok q ->
  builder_apply H rec (termStr N) P M meta q = setField ptr (VPtr (Some a)) q.
Proof.
  intros Hq. pose proof Hq as ((bN & HN & HNp) & _).
  rewrite (refAssign_run H _ _ _ _ _ _ bN r ptr HN HNp).
  unfold bind at 1, catch. by rewrite reqStruct_settled.
Qed.

Lemma type_settled fuel meta q :
  ok q -> setType_fuel H (S fuel) M T meta q = Ok a q.
Proof.
  intros (_ & (bM & HM & Ht & Hptr & _) & _).
  rewrite setType_fuel_S, (setType_body_resolved H _ _ _ _ q bM) by done.
  rewrite Ht, equalTypes_single, bool_decide_true by done.
  cbn [negb andb]. by rewrite compatibleTypes_refl, Hptr.
Qed.

Lemma setField_settled v q :
  ok q -> exists q', setField ptr v q = Ok tt q' /\ ok q' /\ doc q' = doc q.
Proof.
  intros Hq. pose proof Hq as (_ & _ & _ & (ty & m & fields & Hptr)).
  rewrite (setField_struct _ _ _ _ _ _ Hptr). eexists. split; [done|].
  split; [by apply settled_setField | done].
Qed.

Lemma pair_swap meta1 meta2 :
  let typeStm := {| Subject := M; Predicate := uri_nstype; Object := T |} in
  let refStm := {| Subject := N; Predicate := P; Object := M |} in
  sameUpTo a
    ((processTruple H typeStm meta1 ;;; processTruple H refStm meta2) p)
    ((processTruple H refStm meta2 ;;; processTruple H typeStm meta1) p).
Proof.
  intros typeStm refStm. set (fuel := S (size (buffer p))).
  pose proof M_unresolved as HM.
  (* the creation of the node of [M], with and without a location *)
  pose proof (creation_run fuel meta1) as Hrun1.
  pose proof (creation_run fuel None) as Hrun2.
  pose proof (creation_settled fuel meta1) as Hok1.
  pose proof (creation_settled fuel None) as Hok2.
  pose proof (respects_registerAndReplay H a (setType_fuel H fuel)
                (setType_fuel_respects H a fuel) (termStr M)
                (Some (builderOf H r a)) _ _ (created_erased r meta1 None p)) as Hsame.
  assert (setType_fuel H (S fuel) M T meta1 p <> OutOfFuel) as Hterm.
  { apply setType_body_terminates. pose proof (pending_size_buffer p).
    unfold fuel. lia. }
  rewrite Hrun1 in Hterm.
  destruct N_refers as (bN & HN & HNp).
  (* the type assertion first *)
  assert ((processTruple H typeStm meta1 ;;; processTruple H refStm meta2) p =
          match registerAndReplay H (setType_fuel H fuel) (termStr M)
                  (Some (builderOf H r a)) (created r meta1 p) with
          | Ok _ q1 => setField ptr (VPtr (Some a)) q1
          | Err e q1 => Err e q1
          | Panic q1 => Panic q1
          | OutOfFuel => OutOfFuel
          end) as ->.
  { unfold bind at 1. subst typeStm. rewrite processTruple_type.
    unfold bind at 1, fuelOf. fold fuel. rewrite Hrun1. fold a.
    destruct (registerAndReplay H (setType_fuel H fuel) (termStr M)
                (Some (builderOf H r a)) (created r meta1 p)) as [v q1|e q1|q1|];
      try done.
    unfold ret. pose proof Hok1 as ((bN' & HN' & _) & _).
    rewrite (processTruple_resolved H refStm meta2 q1 (Some bN')) by done.
    by apply reference_settled. }
  (* the reference first *)
  assert ((processTruple H refStm meta2 ;;; processTruple H typeStm meta1) p =
          match registerAndReplay H (setType_fuel H fuel) (termStr M)
                  (Some (builderOf H r a)) (created r None p) with
          | Ok _ q2 => setField ptr (VPtr (Some a)) q2
          | Err e q2 => (setField ptr (VPtr None) ;;; throw e) q2
          | Panic q2 => Panic q2
          | OutOfFuel => OutOfFuel
          end) as ->.
  { unfold bind at 1.
    rewrite (processTruple_resolved H refStm meta2 p (Some bN)) by done.
    cbn [Subject Predicate Object refStm].
    rewrite (refAssign_run H _ _ _ _ _ _ bN r ptr HN HNp).
    unfold bind at 1, catch, reqStruct. unfold bind at 1, reqType at 1.
    rewrite HM. unfold fuelOf. fold fuel. fold T. rewrite Hrun2.
    destruct (registerAndReplay H (setType_fuel H fuel) (termStr M)
                (Some (builderOf H r a)) (created r None p)) as [v q2|e q2|q2|];
      try done.
    - destruct (setType_fuel_returns_builder H _ _ _ _ _ _ _ Hrun2)
        as (b & Hb & ->).
      pose proof Hok2 as (_ & (bM & HbM & _ & Hptr & _) & (m & fields & Ha) & _).
      assert (b = bM) as -> by congruence. rewrite Hptr.
      unfold bind at 1, load. rewrite Ha. rewrite bool_decide_true by done.
      unfold ret.
      destruct (setField_settled (VPtr (Some a)) q2 Hok2)
        as (q2' & -> & Hq2' & _).
      subst typeStm. rewrite processTruple_type. unfold bind, fuelOf.
      by rewrite (type_settled _ meta1 q2' Hq2').
    - destruct Hok2 as [Hok2 _].
      destruct (setField_settled (VPtr None) q2 Hok2)
        as (q2' & Hset & _). unfold bind. by rewrite Hset. }
  (* the two runs, side by side *)
  destruct (registerAndReplay H (setType_fuel H fuel) (termStr M)
              (Some (builderOf H r a)) (created r meta1 p)) as [v1 q1|e1 q1|q1|],
           (registerAndReplay H (setType_fuel H fuel) (termStr M)
              (Some (builderOf H r a)) (created r None p)) as [v2 q2|e2 q2|q2|];
    simpl in Hsame; try discriminate; try done.
  - apply Ok_inj in Hsame as [_ Hq].
    pose proof (respects_setField a ptr (VPtr (Some a)) q1 q2 Hq) as Hset.
    destruct (setField_settled (VPtr (Some a)) q1 Hok1)
      as (q1' & E1 & _).
    destruct (setField_settled (VPtr (Some a)) q2 Hok2)
      as (q2' & E2 & _).
    fold a in E1, E2. rewrite E1, E2 in *. simpl in *.
    by apply Ok_inj in Hset as [_ ?].
  - apply Err_inj in Hsame as [-> Hq]. destruct Hok2 as [Hok2 _].
    destruct (setField_settled (VPtr None) q2 Hok2)
      as (q2' & E2 & _ & Hdoc).
    unfold bind. fold a in E2. rewrite E2. simpl. split; [done|].
    rewrite Hdoc. by apply eraseAt_inv in Hq as (_ & _ & ? & _).
Qed.

End Swap.

(** ** A type assertion and a single reference to its node, in both orders *)




(** A licence reference is outside the statement above.  A package's
    [licenseConcluded] names a blank node that is typed as a conjunctive set:
    with the type first the parse succeeds, with the reference first the node
    is created as an abstract set, which [reqAnyLicence] does not accept. *)
Lemma licence_reference_first_fails :
  let pkg := Uri "http://example.org/pkg" in
  let set := Blank "set" in
  let pre := [ (Sample.stm pkg uri_nstype (typePackage Sample.helpers), 1%Z) ] in
  let typeStm := Sample.stm set uri_nstype (typeConjunctiveSet Sample.helpers) in
  let refStm := Sample.stm pkg (Sample.prop "licenseConcluded") set in
  (exists d p1,
     Parse Sample.helpers (pre ++ [ (typeStm, 2%Z); (refStm, 3%Z) ]) = Returned d None p1)
  /\ (exists d e p2,
        Parse Sample.helpers (pre ++ [ (refStm, 3%Z); (typeStm, 2%Z) ])
        = Returned d (Some e) p2
        /\ errorFormat e = msgUnexpected).
Proof.
  intros pkg set pre typeStm refStm. split.
  - eexists _, _. vm_compute. reflexivity.
  - eexists _, _, _. split; vm_compute; reflexivity.
Qed.

(** ** The kinds of the builders: what the engine keeps, and when it panics *)

Lemma lookup_unsetTable m k :
  lookupUpdater (unsetTable m) k = unset <$> lookupUpdater m k.
Proof.
  induction m as [|[k' f] m IH]; simpl; [done|].
  case_bool_decide; [done | apply IH].
Qed.

Lemma unsetTable_store m k f f' :
  lookupUpdater m k = Some f -> unset f' = unset f ->
  unsetTable (storeUpdater m k f') = unsetTable m.
Proof.
  intros Hf Hu. induction m as [|[k' g] m IH]; simpl in *; [done|].
  case_bool_decide; simpl.
  - injection Hf as ->. by rewrite Hu.
  - by rewrite IH.
Qed.

Lemma kindTable_entry (H : Helpers) bk a k f :
  lookupUpdater (kindTable H bk a) k = Some f -> entryOK bk a f.
Proof.
  destruct bk as [r| |s]; [destruct r|..]; simpl;
    repeat (case_bool_decide; [intros [= <-]; simpl; eauto 6 |]);
    try discriminate.
  all: split; [done|]; split; [done|eauto].
Qed.

Lemma entryOK_unset bk a f : entryOK bk a (unset f) -> entryOK bk a f.
Proof. by destruct f. Qed.

Lemma kindIndex_lookup (H : Helpers) bk :
  typeTerms H !! kindIndex bk = Some (kindTerm H bk).
Proof. by destruct bk as [[]| |[]]. Qed.

Lemma kindIndex_inj bk1 bk2 : kindIndex bk1 = kindIndex bk2 -> bk1 = bk2.
Proof. by destruct bk1 as [[]| |[]], bk2 as [[]| |[]]. Qed.

Lemma kindTerm_inj (H : Helpers) bk1 bk2 :
  distinctTypes H = true -> kindTerm H bk1 = kindTerm H bk2 -> bk1 = bk2.
Proof.
  intros Hd E. apply kindIndex_inj.
  eapply NoDup_lookup; [by apply distinctTypes_NoDup | apply kindIndex_lookup |].
  rewrite E. apply kindIndex_lookup.
Qed.

Lemma kindTerm_not_anyLicence (H : Helpers) bk :
  distinctTypes H = true -> kindTerm H bk <> typeAnyLicence H.
Proof.
  intros Hd. apply (typeTerms_distinct H (kindIndex bk) 9);
    [done | apply kindIndex_lookup | done | by destruct bk as [[]| |[]]].
Qed.

Lemma kindTerm_typeTerms (H : Helpers) bk : kindTerm H bk ∈ typeTerms H.
Proof. eapply list_elem_of_lookup_2, kindIndex_lookup. Qed.

(** *** Shapes *)

Lemma shapeAt_Some h a s :
  shapeAt h a = Some s <-> exists e, h !! a = Some e /\ shapeOf e = s.
Proof.
  unfold shapeAt. destruct (h !! a) as [e|]; simpl; split.
  - intros [= <-]. eauto.
  - intros (e' & [= <-] & <-). done.
  - done.
  - intros (e' & ? & _). done.
Qed.

Lemma shapeAt_app h e a s : shapeAt h a = Some s -> shapeAt (h ++ [e]) a = Some s.
Proof.
  unfold shapeAt. destruct (h !! a) as [e0|] eqn:E; [|done].
  by rewrite (lookup_app_l_Some _ _ _ _ E).
Qed.

Lemma shapeAt_new h e : shapeAt (h ++ [e]) (length h) = Some (shapeOf e).
Proof. unfold shapeAt. by rewrite list_lookup_middle. Qed.

Lemma shapeAt_insert h x e0 e a :
  h !! x = Some e0 -> shapeOf e = shapeOf e0 -> shapeAt (<[x := e]> h) a = shapeAt h a.
Proof.
  intros Hx Hs. unfold shapeAt. destruct (decide (x = a)) as [->|Hne].
  - rewrite list_lookup_insert_eq by (by eapply lookup_lt_Some). rewrite Hx. simpl.
    by rewrite Hs.
  - by rewrite list_lookup_insert_ne.
Qed.

(** *** Well-formed states *)

Lemma wfBuilder_heap (H : Helpers) h h' b :
  (forall a s, shapeAt h a = Some s -> shapeAt h' a = Some s) ->
  wfBuilder H h b -> wfBuilder H h' b.
Proof. intros Hh (bk & ? & ? & ? & ?). exists bk. auto. Qed.

Lemma wf_heap (H : Helpers) p h :
  (forall a s, shapeAt (heap p) a = Some s -> shapeAt h a = Some s) ->
  wf H p -> wf H (with_heap h p).
Proof.
  intros Hh [Hi Hd]. split; simpl.
  - intros key ob Hk. destruct (Hi key ob Hk) as (b & -> & Hb).
    exists b. split; [done|]. by eapply wfBuilder_heap.
  - intros a Ha. auto.
Qed.

Lemma wf_buffer (H : Helpers) p b : wf H p -> wf H (with_buffer b p).
Proof. done. Qed.

Lemma wf_register (H : Helpers) p key b :
  wf H p -> wfBuilder H (heap p) b ->
  wf H (with_index (<[key := Some b]> (index p)) p).
Proof.
  intros [Hi Hd] Hb. split; simpl; [|done].
  intros k ob. destruct (decide (key = k)) as [->|Hne].
  - rewrite lookup_insert_eq. intros [= <-]. eauto.
  - rewrite lookup_insert_ne by done. apply Hi.
Qed.

Lemma wf_builder (H : Helpers) p key b :
  wf H p -> index p !! key = Some (Some b) -> wfBuilder H (heap p) b.
Proof. intros [Hi _] Hk. by destruct (Hi key _ Hk) as (b' & [= <-] & Hb). Qed.

Lemma wf_not_nil (H : Helpers) p key : wf H p -> index p !! key <> Some None.
Proof. intros [Hi _] Hk. by destruct (Hi key _ Hk) as (b' & [=] & _). Qed.

Lemma wf_NewParser (H : Helpers) : wf H NewParser.
Proof. split; simpl; [|done]. intros key ob. by rewrite lookup_empty. Qed.

(** *** How states move *)

Section Moves.

Variable H : Helpers.
Hypothesis distinct : distinctTypes H = true.

Lemma abstract_not_typed :
  typeAbstractLicenceSet ∉ [typeConjunctiveSet H; typeDisjunctiveSet H].
Proof.
  intros [E|[E|E]%elem_of_cons]%elem_of_cons.
  - by apply (kindTerm_inj H (KSet AbstractSet) (KSet ConjunctiveSet)) in E.
  - by apply (kindTerm_inj H (KSet AbstractSet) (KSet DisjunctiveSet)) in E.
  - by apply elem_of_nil in E.
Qed.

Lemma stays_refl b : stays H b b.
Proof. split; auto. Qed.

Lemma stays_trans b1 b2 b3 : stays H b1 b2 -> stays H b2 b3 -> stays H b1 b3.
Proof.
  intros [T1 K1] [T2 K2]. split; [congruence|].
  destruct K1 as [[Ht1 Hp1]|[Ha1 Hc1]], K2 as [[Ht2 Hp2]|[Ha2 Hc2]].
  - left. split; congruence.
  - right. split; congruence.
  - right. split; [done | congruence].
  - rewrite Ha2 in Hc1. by apply abstract_not_typed in Hc1.
Qed.

Lemma grows_refl p : grows H p p.
Proof. split; [auto|]. intros key b Hb. exists b. split; [done | apply stays_refl]. Qed.

Lemma grows_trans p1 p2 p3 : grows H p1 p2 -> grows H p2 p3 -> grows H p1 p3.
Proof.
  intros [Hh1 Hi1] [Hh2 Hi2]. split; [auto|]. intros key b Hb.
  destruct (Hi1 key b Hb) as (b' & Hb' & S1).
  destruct (Hi2 key b' Hb') as (b'' & Hb'' & S2).
  exists b''. split; [done | by eapply stays_trans].
Qed.

Lemma moves_refl d p : wf H p -> moves H d p p.
Proof. intros Hp. split; [done|]. split; [apply grows_refl | done]. Qed.

Lemma moves_trans d p1 p2 p3 : moves H d p1 p2 -> moves H d p2 p3 -> moves H d p1 p3.
Proof.
  intros (_ & G1 & D1) (W & G2 & D2). split; [done|].
  split; [by eapply grows_trans|]. intros Hd. by rewrite D2, D1.
Qed.

Lemma moves_weaken d p p' : moves H true p p' -> moves H d p p'.
Proof. intros (W & G & D). split; [done|]. split; [done|]. auto. Qed.

(** A heap write that keeps the Go types. *)
Lemma moves_heap d p h :
  (forall a s, shapeAt (heap p) a = Some s -> shapeAt h a = Some s) ->
  wf H p -> moves H d p (with_heap h p).
Proof.
  intros Hh Hp. split; [by apply wf_heap|]. split; [|done].
  split; [done|]. intros key b Hb. exists b. split; [done | apply stays_refl].
Qed.

Lemma moves_alloc d p e : wf H p -> moves H d p (with_heap (heap p ++ [e]) p).
Proof. apply moves_heap. intros a s. apply shapeAt_app. Qed.

Lemma moves_write d p x e0 e :
  heap p !! x = Some e0 -> shapeOf e = shapeOf e0 ->
  wf H p -> moves H d p (with_heap (<[x := e]> (heap p)) p).
Proof.
  intros Hx Hs. apply moves_heap. intros a s.
  by rewrite (shapeAt_insert _ _ _ _ _ Hx Hs).
Qed.

Lemma moves_buffer d p b : wf H p -> moves H d p (with_buffer b p).
Proof.
  intros Hp. split; [done|]. split; [|done].
  split; [done|]. intros key b0 Hb. exists b0. split; [done | apply stays_refl].
Qed.

(** The builder of a resolved node is replaced by one that [stays]. *)
Lemma moves_update d p key b b' :
  index p !! key = Some (Some b) -> wfBuilder H (heap p) b' -> stays H b b' ->
  wf H p -> moves H d p (with_index (<[key := Some b']> (index p)) p).
Proof.
  intros Hk Hb' Hs Hp. split; [by apply wf_register|]. split; [|done].
  split; [done|]. simpl. intros k b0 Hb0. destruct (decide (key = k)) as [->|Hne].
  - rewrite lookup_insert_eq. exists b'. split; [done|]. congruence.
  - rewrite lookup_insert_ne by done. exists b0. split; [done | apply stays_refl].
Qed.

(** A builder is registered for an unresolved node. *)
Lemma moves_register d p key b :
  index p !! key = None -> wfBuilder H (heap p) b ->
  wf H p -> moves H d p (with_index (<[key := Some b]> (index p)) p).
Proof.
  intros Hk Hb Hp. split; [by apply wf_register|]. split; [|done].
  split; [done|]. simpl. intros k b0 Hb0. destruct (decide (key = k)) as [->|Hne].
  - congruence.
  - rewrite lookup_insert_ne by done. exists b0. split; [done | apply stays_refl].
Qed.

End Moves.

(** ** The engine keeps its builders well formed, and panics on a nil builder only *)

Section Safety.

Variable H : Helpers.
Hypothesis distinct : distinctTypes H = true.

Lemma run_bind d p {A B} (m : M A) (k : A -> M B) Q1 (Q2 : B -> Parser -> Prop) :
  run H d p (m p) Q1 ->
  (forall a p', moves H d p p' -> Q1 a p' ->
     run H d p' (k a p') (fun b p'' => moves H d p p'' -> Q2 b p'')) ->
  run H d p (bind m k p) Q2.
Proof.
  unfold bind. destruct (m p) as [a p'|e p'|p'|]; simpl; try done.
  intros [Hm HQ] Hk. specialize (Hk a p' Hm HQ).
  destruct (k a p') as [b p''|e p''|p''|]; simpl in *; try done.
  - destruct Hk as [Hm' HQ'].
    assert (moves H d p p'') by (by eapply moves_trans). auto.
  - by eapply moves_trans.
Qed.

Lemma run_mono d p {A} (r : result A) (Q Q' : A -> Parser -> Prop) :
  run H d p r Q -> (forall a p', moves H d p p' -> Q a p' -> Q' a p') -> run H d p r Q'.
Proof. destruct r; simpl; try done. intros [? ?] HQ. auto. Qed.

Lemma run_weaken d p {A} (r : result A) Q : run H true p r Q -> run H d p r Q.
Proof.
  destruct r; simpl; try done.
  - intros [? ?]. split; [by apply moves_weaken | done].
  - apply moves_weaken; done.
Qed.

Lemma struct_at (h : list Entity) a ty :
  shapeAt h a = Some (ShStruct ty) -> exists m fs, h !! a = Some (Struct ty m fs).
Proof.
  intros (e & He & Hs)%shapeAt_Some. destruct e; simpl in Hs; try done.
  injection Hs as ->. eauto.
Qed.

Lemma set_at (h : list Entity) a k :
  shapeAt h a = Some (ShSet k) -> exists ms m, h !! a = Some (LicenceSet k ms m).
Proof.
  intros (e & He & Hs)%shapeAt_Some. destruct e; simpl in Hs; try done.
  injection Hs as ->. eauto.
Qed.

(** A write to a field of a struct. *)
Lemma setField_safe d ptr v p ty :
  wf H p -> shapeAt (heap p) ptr.1 = Some (ShStruct ty) ->
  run H d p (setField ptr v p) (fun _ _ => True).
Proof.
  intros Hp (m & fs & Hh)%struct_at. rewrite (setField_struct _ _ _ _ _ _ Hh).
  split; [|done]. by eapply moves_write.
Qed.

Lemma appendField_safe d arr app p ty :
  wf H p -> shapeAt (heap p) arr.1 = Some (ShStruct ty) ->
  run H d p (appendField arr app p) (fun _ _ => True).
Proof.
  intros Hp Hs. pose proof Hs as (m & fs & Hh)%struct_at.
  unfold appendField, bind. rewrite (getField_struct _ _ _ _ _ Hh).
  by eapply setField_safe.
Qed.

Section Closures.

Variable rec : Term -> Term -> option Meta -> M addr.

Local Abbreviation built := (builtAs H).

Hypothesis rec_safe : forall node t p,
  wf H p -> index p !! termStr node = None -> Equals t (typeDocument H) = false ->
  run H true p (rec node t None p) (built node t).

Lemma reqType_safe node t p :
  wf H p -> Equals t (typeDocument H) = false ->
  run H true p (reqType H rec node t p) (built node t).
Proof.
  intros Hp Ht. unfold reqType.
  destruct (index p !! termStr node) as [[b|]|] eqn:Hb.
  - destruct (compatibleTypes H (bldr_t b) t) eqn:Hc; simpl.
    + split; [by apply moves_refl|]. exists b. split; [done|]. split; [done|].
      apply compatibleTypes_true in Hc as [Hc|[Hc _]]; auto.
    + by apply moves_refl.
  - by destruct (wf_not_nil H p _ Hp Hb).
  - by apply rec_safe.
Qed.

Lemma reqStruct_safe r node p :
  wf H p -> r <> reqDocument ->
  run H true p (reqStruct H rec r node p)
    (fun a p' => shapeAt (heap p') a = Some (ShStruct (reqGoType r))).
Proof.
  intros Hp Hr. unfold reqStruct.
  assert (Equals (reqTerm H r) (typeDocument H) = false) as Ht.
  { apply bool_decide_eq_false. intros E.
    apply (kindTerm_inj H (KStruct r) (KStruct reqDocument)) in E; congruence. }
  eapply run_bind; [by apply reqType_safe|].
  intros a p' Hm (b & Hb & <- & Hk).
  pose proof Hm as (Hp' & _).
  destruct (wf_builder H _ _ _ Hp' Hb) as (bk & Hbt & _ & Hsh & _).
  assert (bk = KStruct r) as ->.
  { apply (kindTerm_inj H); [done|]. rewrite <- Hbt.
    destruct Hk as [E|[E|E]]; [| |done].
    - by apply (kindTerm_not_anyLicence H (KStruct r)) in E.
    - by apply (kindTerm_inj H (KStruct r) (KSet AbstractSet)) in E. }
  pose proof Hsh as (m & fs & Hh)%struct_at.
  unfold bind, load. rewrite Hh. rewrite bool_decide_true by done.
  split; [by apply moves_refl | done].
Qed.

Lemma reqAnyLicence_safe node p :
  wf H p -> run H true p (reqAnyLicence H rec node p) (fun _ _ => True).
Proof.
  intros Hp. unfold reqAnyLicence.
  assert (Equals (typeAnyLicence H) (typeDocument H) = false) as Ht.
  { apply bool_decide_eq_false. apply not_eq_sym.
    apply (kindTerm_not_anyLicence H (KStruct reqDocument) distinct). }
  eapply run_bind; [by apply reqType_safe|].
  intros a p' Hm (b & Hb & <- & Hk).
  pose proof Hm as (Hp' & _).
  destruct (wf_builder H _ _ _ Hp' Hb) as (bk & _ & _ & Hsh & _).
  apply shapeAt_Some in Hsh as (e & He & _).
  unfold bind, load. rewrite He.
  destruct e as [[] ? ?| |[] ? ?]; simpl;
    first [ split; [by apply moves_refl | done] | by apply moves_refl ].
Qed.

(** A field write in a state that [p] has moved to. *)
Lemma setField_after d p p' ptr v ty :
  moves H d p p' -> shapeAt (heap p) ptr.1 = Some (ShStruct ty) ->
  exists p'', setField ptr v p' = Ok tt p'' /\ moves H d p p''.
Proof.
  intros Hm Hs. pose proof Hm as (Hp' & [Hg _] & _).
  apply Hg in Hs as (m & fs & Hh)%struct_at.
  rewrite (setField_struct _ _ _ _ _ _ Hh). eexists. split; [done|].
  eapply moves_trans; [done | exact Hm |]. by eapply moves_write.
Qed.

(** [x, err := req(obj); field = x; return err]. *)
Lemma assign_safe {A} (m : M A) ptr (v : A -> Value) v0 p ty Q :
  shapeAt (heap p) ptr.1 = Some (ShStruct ty) ->
  run H true p (m p) Q ->
  run H true p ((x <- catch m ;;
                 match x with
                 | inl a => setField ptr (v a)
                 | inr err => setField ptr v0 ;;; throw err
                 end) p) (fun _ _ => True).
Proof.
  intros Hs Hm. unfold bind at 1, catch.
  destruct (m p) as [a p'|e p'|p'|]; simpl in Hm; try done.
  - destruct Hm as [Hm _].
    destruct (setField_after _ _ _ ptr (v a) _ Hm Hs) as (p'' & -> & Hm'). done.
  - destruct (setField_after _ _ _ ptr v0 _ Hm Hs) as (p'' & Hset & Hm').
    unfold bind. by rewrite Hset.
Qed.

(** A closure of a single-valued scalar property writes its field and sets
    its flag. *)
Lemma closure_write key property f f' ptr v p b ty :
  wf H p -> index p !! key = Some (Some b) ->
  lookupUpdater (bldr_updaters b) property = Some f -> unset f' = unset f ->
  shapeAt (heap p) ptr.1 = Some (ShStruct ty) ->
  run H true p ((setField ptr v ;;; setClosure key property f') p) (fun _ _ => True).
Proof.
  intros Hp Hb Hf Hu Hs. pose proof Hs as (m & fs & Hh)%struct_at.
  unfold bind. rewrite (setField_struct _ _ _ _ _ _ Hh).
  rewrite (setClosure_builder _ _ _ _ b) by done.
  split; [|done].
  assert (moves H true p (with_heap (<[ptr.1 := Struct ty m (<[ptr.2 := v]> fs)]> (heap p)) p))
    as Hm1 by (by eapply moves_write).
  eapply moves_trans; [done | exact Hm1 |]. destruct Hm1 as (Hp1 & _).
  eapply (moves_update H true _ key b); [done | | | done].
  - destruct (wf_builder H _ _ _ Hp1 Hb) as (bk & ? & ? & ? & Ht).
    exists bk. simpl. rewrite (unsetTable_store _ _ _ _ Hf Hu). auto.
  - split; simpl; [by rewrite (unsetTable_store _ _ _ _ Hf Hu) | auto].
Qed.

(** A closure is run on the builder whose table holds it. *)
Lemma runUpdater_safe key property f obj meta p b :
  wf H p -> index p !! key = Some (Some b) ->
  lookupUpdater (bldr_updaters b) property = Some f ->
  run H true p (runUpdater H rec key property f obj meta p) (fun _ _ => True).
Proof.
  intros Hp Hb Hf.
  destruct (wf_builder H _ _ _ Hp Hb) as (bk & Hbt & Hbs & Hsh & Htab).
  assert (entryOK bk (bldr_ptr b) f) as Hok.
  { apply entryOK_unset, (kindTable_entry H _ _ property).
    by rewrite <- Htab, lookup_unsetTable, Hf. }
  assert (forall ptr : fieldptr,
    ptr.1 = bldr_ptr b -> (exists r, bk = KStruct r) ->
    exists ty, shapeAt (heap p) ptr.1 = Some (ShStruct ty)) as Hfield.
  { intros ptr -> [r ->]. eauto. }
  assert (forall ptr ty app,
    shapeAt (heap p) ptr.1 = Some (ShStruct ty) ->
    forall p', moves H true p p' ->
      run H true p' (appendField ptr app p')
        (fun (_ : unit) p'' => moves H true p p'' -> True)) as Happend.
  { intros ptr ty app Hs p' (Hp' & [Hg _] & _).
    eapply run_mono; [by eapply appendField_safe, Hg | done]. }
  destruct f; simpl in Hok |- *.
  - destruct Hok as [Hptr Hr]. destruct (Hfield _ Hptr Hr) as [ty Hs].
    destruct set; [by apply moves_refl | by eapply closure_write].
  - destruct Hok as [Hptr Hr]. destruct (Hfield _ Hptr Hr) as [ty Hs].
    destruct set; [by apply moves_refl | by eapply closure_write].
  - destruct Hok as [Hptr Hr]. destruct (Hfield _ Hptr Hr) as [ty Hs].
    by eapply appendField_safe.
  - destruct Hok as [Hptr Hr]. destruct (Hfield _ Hptr Hr) as [ty Hs].
    destruct set; [by apply moves_refl | by eapply closure_write].
  - destruct Hok as [Hptr Hr]. destruct (Hfield _ Hptr Hr) as [ty Hs].
    destruct set; [by apply moves_refl | by eapply closure_write].
  - destruct Hok as [Hptr Hr]. destruct (Hfield _ Hptr Hr) as [ty Hs].
    by eapply appendField_safe.
  - destruct Hok as (Hptr & Hr & Hk). destruct (Hfield _ Hptr Hk) as [ty Hs].
    eapply assign_safe; [done | by apply reqStruct_safe].
  - destruct Hok as (Hptr & Hr & Hk). destruct (Hfield _ Hptr Hk) as [ty Hs].
    eapply run_bind; [by apply reqStruct_safe|].
    intros a p' Hm _. by eapply Happend.
  - destruct Hok as [Hptr Hr]. destruct (Hfield _ Hptr Hr) as [ty Hs].
    eapply assign_safe; [done | by apply reqAnyLicence_safe].
  - destruct Hok as [Hptr Hr]. destruct (Hfield _ Hptr Hr) as [ty Hs].
    eapply run_bind; [by apply reqAnyLicence_safe|].
    intros a p' Hm _. by eapply Happend.
  - destruct Hok as [-> Hr].
    destruct (Hfield (bldr_ptr b, "Algo") eq_refl Hr) as [ty Hs].
    destruct algoSet; [by apply moves_refl | by eapply closure_write].
  - (* member *)
    eapply run_bind; [by apply reqAnyLicence_safe|].
    intros lic p' Hm _. pose proof Hm as (Hp' & [Hg Hi] & _).
    destruct (Hi key b Hb) as (b' & Hb' & [Ht' _]).
    unfold bind at 1, getBuilder. rewrite Hb'.
    destruct (wf_builder H _ _ _ Hp' Hb') as (bk' & _ & Hbs' & Hsh' & Htab').
    assert (exists k, bk' = KSet k) as [k ->].
    { apply (kindTable_entry H bk' (bldr_ptr b') property member).
      by rewrite <- Htab', Ht', lookup_unsetTable, Hf. }
    apply set_at in Hsh' as (ms & m & Hh).
    unfold Add, bind, load. rewrite Hbs', Hh.
    split; [|done]. by eapply moves_write.
  - (* the promotion *)
    destruct Hok as [k ->].
    unfold bind at 1, getBuilder. rewrite Hb.
    rewrite !orb_false_r.
    destruct (Equals (bldr_t b) typeAbstractLicenceSet) eqn:Ha; simpl;
      [|by apply moves_refl].
    apply bool_decide_eq_true in Ha.
    assert (k = AbstractSet) as ->.
    { rewrite Hbt in Ha.
      apply (kindTerm_inj H (KSet k) (KSet AbstractSet) distinct) in Ha. congruence. }
    pose proof Hsh as (ms & m & Hh)%set_at.
    unfold bind at 1, load. rewrite Hbs, Hh.
    assert (forall k' t',
      kindTerm H (KSet k') = t' ->
      t' ∈ [typeConjunctiveSet H; typeDisjunctiveSet H] ->
      forall gm,
      run H true p
        ((x <- alloc (LicenceSet k' ms gm) ;;
          setBuilder key (Some {| bldr_t := t'; bldr_ptr := x;
                                  bldr_updaters := bldr_updaters b;
                                  bldr_set := x |})) p) (fun _ _ => True)) as Hpromote.
    { intros k' t' Hk' Ht' gm. unfold bind, alloc, setBuilder. split; [|done].
      pose proof (moves_alloc H true p (LicenceSet k' ms gm) Hp) as Hm1.
      eapply moves_trans; [done | exact Hm1 |]. destruct Hm1 as (Hp1 & _).
      eapply (moves_update H true _ key b); [done | | | done].
      - exists (KSet k'). simpl. rewrite shapeAt_new. by rewrite Htab.
      - split; [done|]. right. by rewrite Ha. }
    destruct (Equals obj (typeConjunctiveSet H)).
    { apply (Hpromote ConjunctiveSet); [done | repeat constructor]. }
    destruct (Equals obj (typeDisjunctiveSet H)).
    { apply (Hpromote DisjunctiveSet); [done | repeat constructor]. }
    by apply moves_refl.
Qed.

Lemma builder_apply_safe key pred obj meta p b :
  wf H p -> index p !! key = Some (Some b) ->
  run H true p (builder_apply H rec key pred obj meta p) (fun _ _ => True).
Proof.
  intros Hp Hb. unfold builder_apply, bind at 1, getBuilder. rewrite Hb.
  destruct (lookupUpdater (bldr_updaters b) (shortPrefix H pred)) eqn:Hf.
  - by eapply runUpdater_safe.
  - by apply moves_refl.
Qed.

(** The replay of a buffer through the builder of [key]. *)
Lemma replay_safe key (buf : list bufferEntry) p b :
  wf H p -> index p !! key = Some (Some b) ->
  run H true p
    (forEach buf (fun stm =>
       builder_apply H rec key (Predicate (entry_stm stm))
         (Object (entry_stm stm)) (entry_meta stm)) p) (fun _ _ => True).
Proof.
  revert p b. induction buf as [|stm buf IH]; intros p b Hp Hb; simpl.
  - split; [by apply moves_refl | done].
  - eapply run_bind; [by eapply builder_apply_safe|].
    intros _ p' Hm _. pose proof Hm as (Hp' & [_ Hi] & _).
    destruct (Hi key b Hb) as (b' & Hb' & _).
    eapply run_mono; [by eapply IH | done].
Qed.

(** A new builder is registered for an unresolved node and the buffer of
    the node is replayed. *)
Lemma registerAndReplay_safe key b0 q :
  wf H q -> index q !! key = None -> wfBuilder H (heap q) b0 ->
  run H true q (registerAndReplay H rec key (Some b0) q)
    (fun a q' => exists b', index q' !! key = Some (Some b') /\ bldr_ptr b' = a
                            /\ stays H b0 b').
Proof.
  intros Hq Hidx Hb0. unfold registerAndReplay, bind at 1, setBuilder at 1.
  set (q1 := with_index (<[key := Some b0]> (index q)) q).
  assert (moves H true q q1) as Hm1 by (by apply moves_register).
  assert (index q1 !! key = Some (Some b0)) as Hreg
    by (subst q1; simpl; apply lookup_insert_eq).
  unfold bind at 1. unfold bind at 1.
  pose proof (replay_safe key (default [] (buffer q1 !! key)) q1 b0
                (proj1 Hm1) Hreg) as Hreplay.
  destruct (forEach _ _ q1) as [[] q2|e q2|q2|]; simpl in Hreplay; try done.
  - destruct Hreplay as [Hm2 _]. pose proof Hm2 as (Hq2 & [_ Hi2] & _).
    destruct (Hi2 _ b0 Hreg) as (b' & Hb' & Hst).
    unfold bind, getBuilder, ret. simpl. rewrite Hb'. simpl.
    split; [|by exists b'].
    eapply moves_trans; [done | exact Hm1 |].
    eapply moves_trans; [done | exact Hm2 |]. by apply moves_buffer.
  - by eapply moves_trans.
Qed.

End Closures.

Lemma run_after d p q {A} (r : result A) Q :
  moves H d p q -> run H true q r Q -> run H d p r Q.
Proof.
  intros Hm Hr. apply (run_weaken d) in Hr. destruct r; simpl in *; try done.
  - destruct Hr as [Hm' HQ]. split; [by eapply moves_trans | done].
  - by eapply moves_trans.
Qed.
(** The [switch] of [setType]: a new entity and a builder of its kind around
    it, the nil builder, or nothing. *)
Lemma wfBuilder_fresh bk (h : list Entity) e b :
  shapeOf e = kindShape bk -> bldr_t b = kindTerm H bk ->
  bldr_set b = bldr_ptr b -> bldr_ptr b = length h ->
  unsetTable (bldr_updaters b) = kindTable H bk (length h) ->
  wfBuilder H (h ++ [e]) b.
Proof.
  intros Hs Ht Hset Hptr Htab. exists bk. rewrite Hptr, shapeAt_new, Hs.
  repeat split; congruence.
Qed.

Lemma newBuilder_safe node t meta p :
  wf H p ->
  match newBuilder H node t meta p with
  | Ok (Some (Some b)) q =>
      index q = index p /\ buffer q = buffer p
      /\ moves H (negb (Equals t (typeDocument H))) p q
      /\ wfBuilder H (heap q) b
      /\ (t = typeAnyLicence H \/ bldr_t b = t)
  | Ok _ q => q = p
  | _ => False
  end.
Proof.
  intros Hp.
  assert (forall bk e (b : builder),
    shapeOf e = kindShape bk -> bldr_t b = kindTerm H bk ->
    bldr_set b = bldr_ptr b -> bldr_ptr b = length (heap p) ->
    unsetTable (bldr_updaters b) = kindTable H bk (length (heap p)) ->
    (t = typeAnyLicence H \/ bldr_t b = t) ->
    Equals t (typeDocument H) = false ->
    let q := with_heap (heap p ++ [e]) p in
    index q = index p /\ buffer q = buffer p
    /\ moves H (negb (Equals t (typeDocument H))) p q
    /\ wfBuilder H (heap q) b
    /\ (t = typeAnyLicence H \/ bldr_t b = t)) as Hnew.
  { intros bk e b Hs Ht Hset Hptr Htab Hk Hdoc q. split; [done|]. split; [done|].
    split; [by apply moves_alloc|]. split; [by eapply wfBuilder_fresh | done]. }
  unfold newBuilder.
  destruct (Equals t (typeDocument H)) eqn:E0.
  { apply bool_decide_eq_true in E0. subst t. simpl.
    split; [done|]. split; [done|]. split; [|split; [|by right]].
    - split; [|split; [|done]].
      + split; simpl.
        * intros key ob Hk. destruct Hp as [Hi _].
          destruct (Hi key ob Hk) as (b & -> & Hb). exists b. split; [done|].
          eapply wfBuilder_heap; [|done]. intros a s. apply shapeAt_app.
        * intros a [= <-]. by rewrite shapeAt_new.
      + split; simpl.
        * intros a s. apply shapeAt_app.
        * intros key b Hb. exists b. split; [done | apply stays_refl].
    - by apply (wfBuilder_fresh (KStruct reqDocument)). }
  destruct (Equals t (typeCreationInfo H)) eqn:E1.
  { apply bool_decide_eq_true in E1.
    by apply (Hnew (KStruct reqCreationInfo)); auto. }
  destruct (Equals t (typePackage H)) eqn:E2.
  { apply bool_decide_eq_true in E2. by apply (Hnew (KStruct reqPackage)); auto. }
  destruct (Equals t (typeChecksum H)) eqn:E3.
  { apply bool_decide_eq_true in E3. by apply (Hnew (KStruct reqChecksum)); auto. }
  destruct (Equals t (typeVerificationCode H)) eqn:E4.
  { apply bool_decide_eq_true in E4.
    by apply (Hnew (KStruct reqVerificationCode)); auto. }
  destruct (Equals t (typeFile H)) eqn:E5.
  { apply bool_decide_eq_true in E5. by apply (Hnew (KStruct reqFile)); auto. }
  destruct (Equals t (typeReview H)) eqn:E6.
  { apply bool_decide_eq_true in E6. by apply (Hnew (KStruct reqReview)); auto. }
  destruct (Equals t (typeArtifactOf H)) eqn:E7.
  { apply bool_decide_eq_true in E7. by apply (Hnew (KStruct reqArtifactOf)); auto. }
  destruct (Equals t (typeExtractedLicence H)) eqn:E8.
  { apply bool_decide_eq_true in E8.
    by apply (Hnew (KStruct reqExtractedLicence)); auto. }
  destruct (Equals t (typeAnyLicence H)) eqn:E9.
  { apply bool_decide_eq_true in E9. destruct node as [u|id|v l dt]; [| |done].
    - by apply (Hnew KLicence); auto.
    - destruct (HasPrefix _ _).
      + by apply (Hnew (KStruct reqExtractedLicence)); auto.
      + by apply (Hnew (KSet AbstractSet)); auto. }
  destruct (Equals t (typeLicence H)) eqn:E10.
  { apply bool_decide_eq_true in E10. by apply (Hnew KLicence); auto. }
  destruct (Equals t typeAbstractLicenceSet) eqn:E11.
  { apply bool_decide_eq_true in E11. by apply (Hnew (KSet AbstractSet)); auto. }
  destruct (Equals t (typeConjunctiveSet H)) eqn:E12.
  { apply bool_decide_eq_true in E12. by apply (Hnew (KSet ConjunctiveSet)); auto. }
  destruct (Equals t (typeDisjunctiveSet H)) eqn:E13.
  { apply bool_decide_eq_true in E13. by apply (Hnew (KSet DisjunctiveSet)); auto. }
  done.
Qed.

Lemma setType_fuel_safe fuel :
  forall node t meta p,
    wf H p ->
    run H (negb (Equals t (typeDocument H))) p (setType_fuel H fuel node t meta p)
      (fun a p' => index p !! termStr node = None -> builtAs H node t a p').
Proof.
  induction fuel as [|fuel IH]; intros node t meta p Hp; [done|].
  rewrite setType_fuel_S.
  assert (forall node t p,
    wf H p -> index p !! termStr node = None -> Equals t (typeDocument H) = false ->
    run H true p (setType_fuel H fuel node t None p) (builtAs H node t)) as Hrec.
  { intros node' t' p' Hp' Hidx Ht'. specialize (IH node' t' None p' Hp').
    rewrite Ht' in IH. eapply run_mono; [exact IH | auto]. }
  set (d := negb (Equals t (typeDocument H))).
  destruct (index p !! termStr node) as [[b|]|] eqn:Hidx.
  - rewrite (setType_body_resolved H _ _ _ _ _ b Hidx).
    destruct (negb (equalTypes (bldr_t b) [t]) && builder_has b "ns:type").
    + eapply run_bind.
      { apply run_weaken. by eapply builder_apply_safe. }
      intros _ p' Hm _. pose proof Hm as (Hp' & [_ Hi] & _).
      destruct (Hi _ b Hidx) as (b' & Hb' & _).
      unfold bind, getBuilder, ret. rewrite Hb'. simpl.
      split; [by apply moves_refl | done].
    + destruct (negb (compatibleTypes H (bldr_t b) t)); simpl; [by apply moves_refl|].
      split; [by apply moves_refl | done].
  - by destruct (wf_not_nil H p _ Hp Hidx).
  - rewrite (setType_body_unresolved H _ _ _ _ _ Hidx).
    pose proof (newBuilder_safe node t meta p Hp) as Hnew. unfold bind at 1.
    destruct (newBuilder H node t meta p) as [[[b0|]|] q| | |]; try done.
    + (* a builder of the kind *)
      destruct Hnew as (Hqi & Hqb & Hm0 & Hb0 & Hk0). fold d in Hm0.
      eapply run_after; [exact Hm0|]. eapply run_mono.
      { apply (registerAndReplay_safe (setType_fuel H fuel) Hrec);
          [by destruct Hm0 | by rewrite Hqi | done]. }
      intros a q' _ (b' & Hb' & Hptr & Hst) _. exists b'. split; [done|].
      split; [done|]. destruct Hk0 as [?|Hk0]; [by left|]. right.
      destruct Hst as [_ [[Ht' _]|[Ha _]]]; [right | left]; congruence.
    + (* the nil builder *)
      subst q. unfold registerAndReplay, bind at 1, setBuilder at 1.
      set (q1 := with_index (<[termStr node := None]> (index p)) p).
      assert (index q1 !! termStr node = Some None) as Hnil
        by (subst q1; simpl; apply lookup_insert_eq).
      unfold bind at 1. unfold bind at 1.
      destruct (default [] (buffer q1 !! termStr node)) as [|stm buf]; simpl.
      * unfold bind, getBuilder.
        change (index (with_buffer (delete (termStr node) (buffer q1)) q1))
          with (index q1).
        rewrite Hnil. by exists (termStr node).
      * unfold bind at 1, builder_apply, bind at 1, getBuilder. rewrite Hnil.
        by exists (termStr node).
    + subst q. simpl. by apply moves_refl.
Qed.

Lemma setType_fuel_rec_safe fuel node t p :
  wf H p -> index p !! termStr node = None -> Equals t (typeDocument H) = false ->
  run H true p (setType_fuel H fuel node t None p) (builtAs H node t).
Proof.
  intros Hp Hidx Ht. pose proof (setType_fuel_safe fuel node t None p Hp) as Hs.
  rewrite Ht in Hs. eapply run_mono; [exact Hs | auto].
Qed.

Lemma run_flag d d' p {A} (r : result A) Q :
  (d' = true -> d = true) -> run H d p r Q -> run H d' p r Q.
Proof.
  intros Hd. destruct r; simpl; try done.
  - intros [(W & G & D) HQ]. split; [|done]. split; [done|]. split; [done|]. auto.
  - intros (W & G & D). split; [done|]. split; [done|]. auto.
Qed.

Lemma processTruple_safe stm meta p :
  wf H p ->
  run H (negb (namesDocument H stm)) p (processTruple H stm meta p) (fun _ _ => True).
Proof.
  intros Hp. unfold processTruple, namesDocument.
  destruct (Equals (Predicate stm) uri_nstype); simpl.
  - eapply run_bind; [by apply setType_fuel_safe|].
    intros a p' [Hp' _] _. split; [by apply moves_refl | done].
  - destruct (index p !! termStr (Subject stm)) as [[b|]|] eqn:Hidx.
    + unfold apply. eapply builder_apply_safe; [|done|done].
      intros. by apply setType_fuel_rec_safe.
    + by destruct (wf_not_nil H p _ Hp Hidx).
    + split; [by apply moves_buffer | done].
Qed.

Lemma parseLoop_safe input :
  forall p, wf H p ->
    run H (forallb (fun x => negb (namesDocument H x.1)) input) p
      (parseLoop H input p) (fun _ _ => True).
Proof.
  induction input as [|[stm line] input IH]; intros p Hp; simpl.
  - split; [by apply moves_refl | done].
  - eapply run_bind.
    + eapply run_flag; [|by apply processTruple_safe].
      by intros [? _]%andb_prop.
    + intros _ p' [Hp' _] _. eapply run_mono.
      * eapply run_flag; [|by apply IH]. by intros [_ ?]%andb_prop.
      * done.
Qed.

End Safety.

(** X1. The panics of [Parse].  When the type terms of the package are
    pairwise distinct and [Parse] panics, the index of the parser holds a nil
    builder: the one that [setType] stores when [typeAnyLicence] is asked of a
    node that is neither a URI nor a blank node.  A run in which [setType]
    stores no nil builder does not panic: the type assertions of the [req*]
    functions and of the promotion closure do not fail in it. *)
Theorem Parse_panics_on_nil_builder_only (H : Helpers) input p :
  distinctTypes H = true ->
  Parse H input = Panicked p -> exists k, index p !! k = Some None.
Proof.
  intros Hd. unfold Parse.
  pose proof (parseLoop_safe H Hd input NewParser (wf_NewParser H)) as Hrun.
  destruct (parseLoop H input NewParser); try done. by intros [= <-].
Qed.

Lemma Parse_moves (H : Helpers) pre rest p1 d err p2 :
  distinctTypes H = true ->
  parseLoop H pre NewParser = Ok tt p1 ->
  Parse H (pre ++ rest) = Returned d err p2 ->
  wf H p1 /\ moves H (forallb (fun x => negb (namesDocument H x.1)) rest) p1 p2.
Proof.
  intros Hd Hpre. unfold Parse. rewrite (parseLoop_app H pre rest NewParser p1 Hpre).
  pose proof (parseLoop_safe H Hd pre NewParser (wf_NewParser H)) as Hp1.
  rewrite Hpre in Hp1. destruct Hp1 as [(Hp1 & _) _].
  pose proof (parseLoop_safe H Hd rest p1 Hp1) as Hrun.
  destruct (parseLoop H rest p1) as [[] q|e q|q|]; try done.
  - intros [= <- <- <-]. by destruct Hrun.
  - intros [= <- <- <-]. done.
Qed.

Lemma Parse_Returned_doc (H : Helpers) input d err p :
  Parse H input = Returned d err p -> d = doc p.
Proof.
  unfold Parse. destruct (parseLoop H input NewParser); try done; by intros [= <- <- <-].
Qed.

(** X2. The builders that [Parse] leaves.  In the parser that [Parse]
    returns, with or without an error, every entry of the index is a builder
    that is not nil and is of one of the kinds that [setType] constructs: its
    type term [t] is the term of the kind, its pointer is to an entity of
    the Go type of the kind, and its property table is the table that the
    [*Map] function of the kind builds around that entity, up to the [set]
    flags that the closures have captured. *)
Theorem resolved_nodes_well_kinded (H : Helpers) input d err p key ob :
  distinctTypes H = true ->
  Parse H input = Returned d err p ->
  index p !! key = Some ob ->
  exists b bk e,
    ob = Some b /\ bldr_t b = kindTerm H bk
    /\ heap p !! bldr_ptr b = Some e /\ shapeOf e = kindShape bk
    /\ unsetTable (bldr_updaters b) = kindTable H bk (bldr_ptr b).
Proof.
  intros Hd Hrun Hk.
  destruct (Parse_moves H [] input NewParser d err p Hd eq_refl Hrun)
    as (_ & [Hi _] & _).
  destruct (Hi key ob Hk) as (b & -> & bk & Ht & _ & Hs & Htab).
  apply shapeAt_Some in Hs as (e & He & Hs). exists b, bk, e. auto.
Qed.

(** X3. A resolved node stays resolved.  A node that has a builder after a
    prefix of the input has one in the parser that [Parse] returns for the
    whole input: the index is never deleted from and a builder is never
    replaced.  The builder keeps its property table (up to the [set] flags)
    and keeps its type term and its entity; the one exception is an abstract
    licence set, which may have become a conjunctive or a disjunctive set. *)
Theorem resolved_node_keeps_its_kind (H : Helpers) pre rest p1 d err p2 key b :
  distinctTypes H = true ->
  parseLoop H pre NewParser = Ok tt p1 ->
  Parse H (pre ++ rest) = Returned d err p2 ->
  index p1 !! key = Some (Some b) ->
  exists b',
    index p2 !! key = Some (Some b')
    /\ unsetTable (bldr_updaters b') = unsetTable (bldr_updaters b)
    /\ (bldr_t b' = bldr_t b /\ bldr_ptr b' = bldr_ptr b
        \/ bldr_t b = typeAbstractLicenceSet
           /\ bldr_t b' ∈ [typeConjunctiveSet H; typeDisjunctiveSet H]).
Proof.
  intros Hd Hpre Hrun Hk.
  destruct (Parse_moves H pre rest p1 d err p2 Hd Hpre Hrun) as (_ & _ & [_ Hi] & _).
  exact (Hi key b Hk).
Qed.

(** X4. No document without a type assertion for it.  When no statement of
    the input is a type assertion that names [typeDocument], the document
    that [Parse] returns is nil, whatever else the input holds and whether or
    not the parse fails: no property of another node creates a document. *)
Theorem no_document_without_its_type (H : Helpers) input d err p :
  distinctTypes H = true ->
  Forall (fun x => namesDocument H x.1 = false) input ->
  Parse H input = Returned d err p ->
  d = None.
Proof.
  intros Hd Hall Hrun.
  destruct (Parse_moves H [] input NewParser d err p Hd eq_refl Hrun)
    as (_ & _ & _ & Hdoc).
  assert (doc p = None) as Hp.
  { apply Hdoc. apply forallb_forall. intros x Hx%list_elem_of_In.
    rewrite Forall_forall in Hall. by rewrite (Hall x Hx). }
  by rewrite (Parse_Returned_doc H input d err p Hrun).
Qed.

(** ** The loop of [Parse] *)

(** X5. [Parse] stops at the first error.  When the statements of [pre] are
    processed without error and the next statement fails, [Parse] returns
    that error with the document pointer and the parser as [processTruple]
    left them; the statements after the failing one are not processed. *)
Theorem Parse_first_error (H : Helpers) pre stm line rest p e p' :
  parseLoop H pre NewParser = Ok tt p ->
  processTruple H stm (Some (NewMetaL line)) p = Err e p' ->
  Parse H (pre ++ (stm, line) :: rest) = Returned (doc p') (Some e) p'.
Proof.
  intros Hpre Hstm. unfold Parse.
  rewrite (parseLoop_app H pre _ NewParser p Hpre). simpl.
  unfold bind. by rewrite Hstm.
Qed.

(** X6. [Parse] returns or panics on every input: the recursion of
    [setType] through the replay of a buffer and the [req*] functions comes to
    an end, within the fuel that the number of buffered nodes gives. *)
Theorem Parse_returns_or_panics (H : Helpers) input : Parse H input <> Diverged.
Proof.
  unfold Parse. pose proof (parseLoop_terminates H input NewParser).
  by destruct (parseLoop _ _ _).
Qed.

(** ** Statements of unresolved nodes *)

(** X7. Statements of unresolved nodes are buffered in arrival order.  A
    run of statements that are not type assertions and whose subjects have no
    builder never fails and changes neither the index, the entities nor the
    document; to the buffer of each node it appends the statements of that
    node, each with the location of its line, in the order of the input. *)
Theorem unresolved_statements_buffered_in_order (H : Helpers) input :
  forall p,
    Forall (fun x => Equals (Predicate x.1) uri_nstype = false
                     /\ index p !! termStr (Subject x.1) = None) input ->
    exists p',
      parseLoop H input p = Ok tt p'
      /\ index p' = index p /\ heap p' = heap p /\ doc p' = doc p
      /\ forall k,
           default [] (buffer p' !! k) =
           default [] (buffer p !! k)
           ++ entriesOf (filter (fun x => bool_decide (termStr (Subject x.1) = k)) input).
Proof.
  induction input as [|[stm line] input IH]; intros p Hall.
  - exists p. repeat split; try done. intros k. by rewrite app_nil_r.
  - apply Forall_cons in Hall as [[Hp Hidx] Hall]. simpl in Hp, Hidx.
    simpl. unfold bind, processTruple at 1. rewrite Hp, Hidx.
    set (p1 := with_buffer _ p).
    destruct (IH p1 Hall) as (p' & -> & Hi & Hh & Hd & Hb).
    exists p'. repeat split; try done. intros k. rewrite Hb, filter_cons. simpl.
    case_bool_decide as Hk.
    + subst k. rewrite lookup_insert_eq. simpl. by rewrite <- app_assoc.
    + by rewrite lookup_insert_ne.
Qed.

(** ** Type assertions *)

Lemma newBuilder_unknown (H : Helpers) node t meta p :
  t ∉ typeTerms H -> newBuilder H node t meta p = Ok None p.
Proof.
  intros Ht. unfold newBuilder, Equals.
  repeat (rewrite bool_decide_false;
          [| intros ->; apply Ht; unfold typeTerms; set_solver]).
  done.
Qed.

(** X8. An unknown type is rejected.  A type assertion for a node that has
    no builder, with a type term that is none of the fourteen type terms of
    the package, fails with the unknown-type error, which names the term and
    carries the location of the statement; the parser is left as it was: no
    builder is registered and the buffer of the node is kept. *)
Theorem unknown_type_rejected (H : Helpers) node t meta p :
  index p !! termStr node = None ->
  t ∉ typeTerms H ->
  processTruple H {| Subject := node; Predicate := uri_nstype; Object := t |} meta p
  = Err (NewParseError (Sprintf msgUnknownType [ArgTerm t]) meta) p.
Proof.
  intros Hidx Ht. rewrite processTruple_type. unfold bind at 1, fuelOf.
  rewrite setType_fuel_S, setType_body_unresolved by done.
  unfold bind. by rewrite newBuilder_unknown.
Qed.

(** ** List-valued properties *)

(** X9. List-valued string properties accumulate.  For a resolved node whose
    property is held by an [updList] or [updListCreator] closure, every
    non-empty sequence of applications of the property succeeds, and the
    field of the entity ends as its previous items followed by the new values
    with their locations, in the order of the applications.  There is no
    already-defined guard on such a property, and nothing but that field is
    changed. *)
Theorem list_property_appends (H : Helpers) rec key pred c arr
    (writes : list (Term * option Meta)) :
  forall p b ty m fields,
    index p !! key = Some (Some b) ->
    lookupUpdater (bldr_updaters b) (shortPrefix H pred) = Some (listClosure c arr) ->
    heap p !! arr.1 = Some (Struct ty m fields) ->
    writes <> [] ->
    forEach writes (fun w => builder_apply H rec key pred w.1 w.2) p =
    Ok tt (with_heap
             (<[arr.1 := Struct ty m
                  (<[arr.2 := listValue c (listItems c (fields !! arr.2)
                                           ++ map (fun w => (termStr w.1, w.2)) writes)]>
                     fields)]> (heap p)) p).
Proof.
  induction writes as [|[obj meta] writes IH]; intros p b ty m fields Hb Hf Hh Hne;
    [done|].
  simpl. unfold bind at 1.
  rewrite (builder_apply_lookup H _ _ _ _ _ _ b _ Hb Hf).
  assert (runUpdater H rec key (shortPrefix H pred) (listClosure c arr) obj meta p =
          Ok tt (with_heap
                   (<[arr.1 := Struct ty m
                        (<[arr.2 := listValue c (listItems c (fields !! arr.2)
                                                 ++ [(termStr obj, meta)])]> fields)]>
                      (heap p)) p)) as ->.
  { destruct c; simpl; unfold appendField, bind;
      rewrite (getField_struct _ _ _ _ _ Hh), (setField_struct _ _ _ _ _ _ Hh);
      do 4 f_equal; by destruct (fields !! arr.2) as [[]|]. }
  destruct writes as [|w writes]; [done|].
  set (items := listItems c (fields !! arr.2) ++ [(termStr obj, meta)]).
  rewrite (IH _ b ty m (<[arr.2 := listValue c items]> fields)); [| done | done | | done].
  - unfold with_heap. simpl. f_equal. rewrite list_insert_insert_eq.
    do 2 f_equal. rewrite insert_insert_eq, lookup_insert_eq. f_equal.
    assert (listItems c (Some (listValue c items)) = items) as -> by by destruct c.
    subst items. by rewrite <- app_assoc.
  - simpl. apply list_lookup_insert_eq. by eapply lookup_lt_Some.
Qed.

(** A builder is registered for a node that has no buffer entry. *)
Lemma registerAndReplay_unbuffered (H : Helpers) rec key b q :
  buffer q !! key = None ->
  registerAndReplay H rec key (Some b) q =
  Ok (bldr_ptr b) (with_index (<[key := Some b]> (index q)) q).
Proof.
  intros Hbuf. unfold registerAndReplay, bind at 1, setBuilder at 1.
  unfold bind at 1. simpl buffer. rewrite Hbuf. simpl.
  unfold bind, getBuilder, ret. simpl. rewrite lookup_insert_eq.
  f_equal. destruct q as [i bf d h]. unfold with_buffer, with_index. simpl in *.
  f_equal. by apply delete_id.
Qed.

(** ** Licence references *)

Lemma newBuilder_licence (H : Helpers) node t meta p :
  distinctTypes H = true ->
  t = typeLicence H \/ (t = typeAnyLicence H /\ exists u, node = Uri u) ->
  newBuilder H node t meta p =
  Ok (Some (Some {| bldr_t := typeLicence H; bldr_ptr := length (heap p);
                    bldr_updaters := []; bldr_set := length (heap p) |}))
     (with_heap (heap p ++ [Licence (TrimPrefix (termStr node) (licenceUri H)) meta]) p).
Proof.
  intros Hd [->|[-> [u ->]]]; unfold newBuilder, Equals.
  - repeat (rewrite bool_decide_false;
            [| first [ by apply (typeTerms_distinct H 10 0)
                     | by apply (typeTerms_distinct H 10 1)
                     | by apply (typeTerms_distinct H 10 2)
                     | by apply (typeTerms_distinct H 10 3)
                     | by apply (typeTerms_distinct H 10 4)
                     | by apply (typeTerms_distinct H 10 5)
                     | by apply (typeTerms_distinct H 10 6)
                     | by apply (typeTerms_distinct H 10 7)
                     | by apply (typeTerms_distinct H 10 8)
                     | by apply (typeTerms_distinct H 10 9) ]]).
    by rewrite bool_decide_true.
  - repeat (rewrite bool_decide_false;
            [| first [ by apply (typeTerms_distinct H 9 0)
                     | by apply (typeTerms_distinct H 9 1)
                     | by apply (typeTerms_distinct H 9 2)
                     | by apply (typeTerms_distinct H 9 3)
                     | by apply (typeTerms_distinct H 9 4)
                     | by apply (typeTerms_distinct H 9 5)
                     | by apply (typeTerms_distinct H 9 6)
                     | by apply (typeTerms_distinct H 9 7)
                     | by apply (typeTerms_distinct H 9 8) ]]).
    by rewrite bool_decide_true.
Qed.

(** X10. A licence reference has no properties.  A type assertion with
    [typeLicence] (or with [typeAnyLicence] for a URI node) for a node with
    neither a builder nor a buffer creates a [Licence] entity whose identifier
    is the node string without the licence prefix, under a builder whose
    property table is empty; every later statement about the node that is not
    a type assertion fails with the property-not-supported error, which names
    the property and [typeLicence]. *)
Theorem licence_reference_has_no_properties (H : Helpers) node t meta1 stm meta2 p :
  distinctTypes H = true ->
  t = typeLicence H \/ (t = typeAnyLicence H /\ exists u, node = Uri u) ->
  index p !! termStr node = None ->
  buffer p !! termStr node = None ->
  Subject stm = node ->
  Equals (Predicate stm) uri_nstype = false ->
  exists p',
    processTruple H {| Subject := node; Predicate := uri_nstype; Object := t |} meta1 p
    = Ok tt p'
    /\ heap p' = heap p ++ [Licence (TrimPrefix (termStr node) (licenceUri H)) meta1]
    /\ index p' !! termStr node =
       Some (Some {| bldr_t := typeLicence H; bldr_ptr := length (heap p);
                     bldr_updaters := []; bldr_set := length (heap p) |})
    /\ processTruple H stm meta2 p' =
       Err (NewParseError
              (Sprintf msgPropertyNotSupported
                 [ArgStr (shortPrefix H (Predicate stm)); ArgTerm (typeLicence H)])
              meta2) p'.
Proof.
  intros Hd Ht Hidx Hbuf <- Hpred.
  rewrite processTruple_type. unfold bind at 1, fuelOf.
  rewrite setType_fuel_S, setType_body_unresolved by done.
  unfold bind at 1. rewrite (newBuilder_licence H _ _ _ _ Hd Ht).
  unfold registerAndReplay, bind at 1, setBuilder at 1. unfold bind at 1.
  simpl buffer. rewrite Hbuf. simpl. unfold bind, getBuilder, ret. simpl.
  rewrite lookup_insert_eq. eexists. split; [done|]. split; [done|].
  split; [simpl; apply lookup_insert_eq|].
  erewrite processTruple_resolved; [|done|simpl; apply lookup_insert_eq].
  by rewrite (builder_apply_unsupported H _ _ _ _ _ _
                {| bldr_t := typeLicence H; bldr_ptr := length (heap p);
                   bldr_updaters := []; bldr_set := length (heap p) |})
    by (done || (simpl; apply lookup_insert_eq)).
Qed.

(** ** Resolved nodes in the states that [Parse] reaches *)

Lemma reachable_wf (H : Helpers) p : distinctTypes H = true -> reachable H p -> wf H p.
Proof.
  intros Hd [input Hrun].
  pose proof (parseLoop_safe H Hd input NewParser (wf_NewParser H)) as Hs.
  rewrite Hrun in Hs. by destruct Hs as [(Hp & _) _].
Qed.

Lemma kindTable_no_promotion (H : Helpers) bk a :
  (forall k, bk <> KSet k) -> lookupUpdater (kindTable H bk a) "ns:type" = None.
Proof.
  intros Hk. destruct bk as [[]| |k]; try reflexivity. by destruct (Hk k).
Qed.

(** X11. The type of a resolved node that is no licence set is final.  In a
    state that [Parse] reaches, a further type assertion for such a node
    leaves the parser as it is: it succeeds when the type of the builder is
    compatible with the asserted one, and fails otherwise with the
    incompatible-types error, which names the node and the two type terms and
    carries the location of the statement. *)
Theorem resolved_type_is_final (H : Helpers) node t meta p b :
  distinctTypes H = true ->
  reachable H p ->
  index p !! termStr node = Some (Some b) ->
  bldr_t b ∉ [typeAbstractLicenceSet; typeConjunctiveSet H; typeDisjunctiveSet H] ->
  processTruple H {| Subject := node; Predicate := uri_nstype; Object := t |} meta p =
  if compatibleTypes H (bldr_t b) t then Ok tt p
  else Err (NewParseError
              (Sprintf msgIncompatibleTypes
                 [ArgTerm node; ArgTerm (bldr_t b); ArgTerm t]) meta) p.
Proof.
  intros Hd Hreach Hb Hnot.
  destruct (wf_builder H _ _ _ (reachable_wf H p Hd Hreach) Hb)
    as (bk & Hbt & _ & _ & Htab).
  assert (builder_has b "ns:type" = false) as Hhas.
  { unfold builder_has.
    assert (lookupUpdater (unsetTable (bldr_updaters b)) "ns:type" = None) as Hl.
    { rewrite Htab. apply kindTable_no_promotion. intros k ->. apply Hnot.
      rewrite Hbt. destruct k; simpl; repeat constructor. }
    rewrite lookup_unsetTable in Hl. by destruct (lookupUpdater _ _). }
  rewrite processTruple_type. unfold bind, fuelOf.
  rewrite setType_fuel_S, (setType_body_resolved H _ _ _ _ _ b) by done.
  rewrite Hhas, andb_false_r. by destruct (compatibleTypes _ _ _).
Qed.

(** *** References to resolved nodes *)

Lemma reqStruct_resolved (H : Helpers) rec r node p b :
  distinctTypes H = true -> wf H p ->
  index p !! termStr node = Some (Some b) -> bldr_t b = reqTerm H r ->
  reqStruct H rec r node p = Ok (bldr_ptr b) p.
Proof.
  intros Hd Hp Hb Ht.
  destruct (wf_builder H _ _ _ Hp Hb) as (bk & Hbt & _ & Hsh & _).
  assert (bk = KStruct r) as -> by (apply (kindTerm_inj H); [done | simpl; congruence]).
  apply struct_at in Hsh as (m & fs & Hh).
  unfold reqStruct, bind, reqType. rewrite Hb, Ht, compatibleTypes_refl. simpl.
  unfold load. rewrite Hh. by rewrite bool_decide_true.
Qed.

Lemma refAssign_field (H : Helpers) p key b property r ptr :
  wf H p -> index p !! key = Some (Some b) ->
  lookupUpdater (bldr_updaters b) property = Some (refAssign r ptr) ->
  exists ty m fs, heap p !! ptr.1 = Some (Struct ty m fs).
Proof.
  intros Hp Hb Hf.
  destruct (wf_builder H _ _ _ Hp Hb) as (bk & _ & _ & Hsh & Htab).
  assert (entryOK bk (bldr_ptr b) (refAssign r ptr)) as (Hptr & _ & [r' ->]).
  { apply (kindTable_entry H _ _ property).
    by rewrite <- Htab, lookup_unsetTable, Hf. }
  rewrite Hptr. apply struct_at in Hsh as (m & fs & Hh). eauto.
Qed.

(** X12. A single-reference property is not guarded.  In a state that
    [Parse] reaches, two statements that give the same single-reference
    property ([creationInfo], [packageVerificationCode], [checksum]) of a
    resolved node two resolved targets of the requested type both succeed; the
    field ends with the entity of the second target, and the index is
    unchanged. *)
Theorem single_reference_last_write_wins (H : Helpers) N P M1 M2 meta1 meta2
    p bN r ptr b1 b2 :
  distinctTypes H = true ->
  reachable H p ->
  Equals P uri_nstype = false ->
  index p !! termStr N = Some (Some bN) ->
  lookupUpdater (bldr_updaters bN) (shortPrefix H P) = Some (refAssign r ptr) ->
  index p !! termStr M1 = Some (Some b1) -> bldr_t b1 = reqTerm H r ->
  index p !! termStr M2 = Some (Some b2) -> bldr_t b2 = reqTerm H r ->
  exists p',
    (processTruple H {| Subject := N; Predicate := P; Object := M1 |} meta1 ;;;
     processTruple H {| Subject := N; Predicate := P; Object := M2 |} meta2) p
    = Ok tt p'
    /\ getField ptr p' = Ok (Some (VPtr (Some (bldr_ptr b2)))) p'
    /\ index p' = index p.
Proof.
  intros Hd Hreach HP HN Hf Hb1 Ht1 Hb2 Ht2.
  pose proof (reachable_wf H p Hd Hreach) as Hp.
  destruct (refAssign_field H p _ _ _ _ _ Hp HN Hf) as (ty & m & fs & Hh).
  unfold bind at 1.
  rewrite (processTruple_resolved H _ meta1 p (Some bN)) by done.
  cbn [Subject Predicate Object].
  rewrite (refAssign_run H _ _ _ _ _ _ bN r ptr HN Hf).
  unfold bind at 1, catch. rewrite (reqStruct_resolved H _ r M1 p b1) by done.
  rewrite (setField_struct _ _ _ _ _ _ Hh).
  set (p1 := with_heap _ p).
  assert (wf H p1) as Hp1.
  { apply (moves_write H true p ptr.1 (Struct ty m fs)); done. }
  assert (heap p1 !! ptr.1 =
          Some (Struct ty m (<[ptr.2 := VPtr (Some (bldr_ptr b1))]> fs))) as Hh1.
  { subst p1. simpl. apply list_lookup_insert_eq. by eapply lookup_lt_Some. }
  rewrite (processTruple_resolved H _ meta2 p1 (Some bN)) by done.
  cbn [Subject Predicate Object].
  rewrite (refAssign_run H _ _ _ _ _ _ bN r ptr) by done.
  unfold bind at 1, catch. rewrite (reqStruct_resolved H _ r M2 p1 b2) by done.
  rewrite (setField_struct _ _ _ _ _ _ Hh1).
  eexists. split; [done|]. split; [|done].
  erewrite getField_struct.
  - by rewrite lookup_insert_eq.
  - simpl. apply list_lookup_insert_eq. rewrite length_insert. by eapply lookup_lt_Some.
Qed.

(** X13. A failed single reference clears the field.  The closures of the
    single-reference properties assign the result of the request before they
    return its error: when the target is resolved to a type that is not
    compatible with the requested one, the statement fails with the
    incompatible-types error of [reqType] and the field of the entity is left
    nil, whatever it held before. *)
Theorem failed_single_reference_clears_field (H : Helpers) N P M meta p bN r ptr bM :
  distinctTypes H = true ->
  reachable H p ->
  Equals P uri_nstype = false ->
  index p !! termStr N = Some (Some bN) ->
  lookupUpdater (bldr_updaters bN) (shortPrefix H P) = Some (refAssign r ptr) ->
  index p !! termStr M = Some (Some bM) ->
  compatibleTypes H (bldr_t bM) (reqTerm H r) = false ->
  exists p',
    processTruple H {| Subject := N; Predicate := P; Object := M |} meta p
    = Err (Errorf (Sprintf msgIncompatibleTypes
                     [ArgTerm M; ArgTerm (bldr_t bM); ArgTerm (reqTerm H r)])) p'
    /\ getField ptr p' = Ok (Some (VPtr None)) p'
    /\ index p' = index p.
Proof.
  intros Hd Hreach HP HN Hf HM Hc.
  pose proof (reachable_wf H p Hd Hreach) as Hp.
  destruct (refAssign_field H p _ _ _ _ _ Hp HN Hf) as (ty & m & fs & Hh).
  rewrite (processTruple_resolved H _ meta p (Some bN)) by done.
  cbn [Subject Predicate Object].
  rewrite (refAssign_run H _ _ _ _ _ _ bN r ptr HN Hf).
  unfold bind at 1, catch, reqStruct, bind at 1, reqType. rewrite HM, Hc. simpl.
  unfold bind. rewrite (setField_struct _ _ _ _ _ _ Hh). simpl.
  eexists. split; [done|]. split; [|done].
  erewrite getField_struct.
  - by rewrite lookup_insert_eq.
  - simpl. apply list_lookup_insert_eq. by eapply lookup_lt_Some.
Qed.

(** ** The buffer holds statements of unresolved nodes only *)

Lemma processTruple_exclusive (H : Helpers) stm meta :
  preserves (exclusiveExcept ∅) anyState anyError True (processTruple H stm meta).
Proof.
  intros p Hp. unfold processTruple.
  destruct (Equals (Predicate stm) uri_nstype).
  - unfold bind, setType.
    pose proof (setType_fuel_exclusive H (fuelOf p) ∅ (Subject stm) (Object stm)
                  meta p Hp) as Hs.
    by destruct (setType_fuel _ _ _ _ _ _).
  - destruct (index p !! termStr (Subject stm)) eqn:Hidx.
    + unfold apply.
      apply (keeps_builder_apply H (exclusiveExcept ∅) anyState anyError True); auto.
      * intros. by eapply exclusiveExcept_update.
      * intros. by apply setType_fuel_exclusive.
    + simpl. intros k Hk Hb. simpl in *.
      destruct (decide (termStr (Subject stm) = k)) as [<-|Hne].
      * rewrite Hidx in Hk. by destruct Hk.
      * rewrite lookup_insert_ne in Hb by done. by apply Hp.
Qed.

Lemma parseLoop_exclusive (H : Helpers) input :
  forall p, exclusiveExcept ∅ p ->
    post (exclusiveExcept ∅) anyState anyError True (parseLoop H input p).
Proof.
  induction input as [|[stm line] input IH]; intros p Hp; simpl; [done|].
  unfold bind.
  pose proof (processTruple_exclusive H stm (Some (NewMetaL line)) p Hp) as Hs.
  destruct (processTruple _ _ _ _); simpl in *; auto.
Qed.

Lemma exclusiveExcept_NewParser : exclusiveExcept ∅ NewParser.
Proof. intros k [x Hx]. simpl in Hx. by rewrite lookup_empty in Hx. Qed.

(** X14. After a parse without error, the buffer holds unresolved nodes
    only: no key of the parser that [Parse] returns has both an entry in the
    index and an entry in the buffer. *)
Theorem buffer_holds_unresolved_nodes_only (H : Helpers) input d p k :
  Parse H input = Returned d None p ->
  is_Some (index p !! k) -> buffer p !! k = None.
Proof.
  intros Hrun Hk.
  assert (exclusiveExcept ∅ p) as Hp.
  { unfold Parse in Hrun.
    pose proof (parseLoop_exclusive H input NewParser exclusiveExcept_NewParser)
      as Hloop.
    destruct (parseLoop H input NewParser); try done. by injection Hrun as <- <-. }
  destruct (buffer p !! k) eqn:Hb; [|done].
  assert (k ∈ (∅ : gset string)) as Hin by (apply Hp; [done | by rewrite Hb]).
  by apply not_elem_of_empty in Hin.
Qed.

Lemma setType_body_run (H : Helpers) rec node t meta p :
  index p !! termStr node = None ->
  setType_body H rec node t meta p =
  match newBuilder H node t meta p with
  | Ok (Some bldr) q => registerAndReplay H rec (termStr node) bldr q
  | Ok None q => Err (NewParseError (Sprintf msgUnknownType [ArgTerm t]) meta) q
  | Err e q => Err e q
  | Panic q => Panic q
  | OutOfFuel => OutOfFuel
  end.
Proof.
  intros Hidx. rewrite setType_body_unresolved by done. unfold bind.
  by destruct (newBuilder H node t meta p) as [[?|] ?| | |].
Qed.

(** ** The document that [Parse] returns *)

Lemma newBuilder_document (H : Helpers) node meta p :
  newBuilder H node (typeDocument H) meta p =
  Ok (Some (Some (documentMap H (length (heap p)))))
     (with_doc (Some (length (heap p)))
        (with_heap (heap p ++ [Struct Document meta ∅]) p)).
Proof. unfold newBuilder, Equals. by rewrite bool_decide_true. Qed.

(** X15. The document of the last type assertion wins.  [setType] overwrites
    [p.doc] at each construction of a document.  When a type assertion with
    [typeDocument] for a node without a builder is followed by statements
    none of which names [typeDocument], [Parse] returns the document that
    this assertion has created, whether or not an earlier statement has
    created a document too and whether or not the parse fails later. *)
Theorem document_is_the_last_one_typed (H : Helpers) pre node line rest p d err q :
  distinctTypes H = true ->
  parseLoop H pre NewParser = Ok tt p ->
  index p !! termStr node = None ->
  Forall (fun x => namesDocument H x.1 = false) rest ->
  Parse H (pre ++ ({| Subject := node; Predicate := uri_nstype;
                      Object := typeDocument H |}, line) :: rest)
  = Returned d err q ->
  d = Some (length (heap p))
  /\ exists meta fields, heap q !! length (heap p) = Some (Struct Document meta fields).
Proof.
  intros Hd Hpre Hidx Hrest Hrun.
  pose proof (reachable_wf H p Hd (ex_intro _ pre Hpre)) as Hp.
  rewrite (Parse_Returned_doc H _ d err q Hrun).
  unfold Parse in Hrun. rewrite (parseLoop_app H pre _ NewParser p Hpre) in Hrun.
  simpl in Hrun. unfold bind at 1 in Hrun. rewrite processTruple_type in Hrun.
  unfold bind at 1, fuelOf in Hrun.
  rewrite setType_fuel_S, setType_body_run, newBuilder_document in Hrun by done.
  set (a := length (heap p)) in *.
  set (qd := with_doc (Some a) (with_heap (heap p ++ [Struct Document _ ∅]) p)) in Hrun.
  pose proof (newBuilder_safe H node (typeDocument H) (Some (NewMetaL line)) p Hp)
    as Hnew.
  rewrite newBuilder_document in Hnew. fold a qd in Hnew.
  destruct Hnew as (Hqi & _ & (Hqd & _) & Hb0 & _).
  assert (doc qd = Some a /\ shapeAt (heap qd) a = Some (ShStruct Document))
    as [Hdoc Hsh].
  { split; [done|]. subst qd a. simpl. by rewrite shapeAt_new. }
  assert (forall q', moves H true qd q' ->
    doc q' = Some a
    /\ exists meta fields, heap q' !! a = Some (Struct Document meta fields)) as Hkeep.
  { intros q' (_ & [Hg _] & Hdq). split; [by rewrite Hdq|]. by apply struct_at, Hg. }
  pose proof (registerAndReplay_safe H Hd (setType_fuel H (S (size (buffer p))))
                (setType_fuel_rec_safe H Hd _) (termStr node) (documentMap H a) qd Hqd)
    as Hreg.
  specialize (Hreg ltac:(by rewrite Hqi) Hb0).
  destruct (registerAndReplay _ _ _ _ qd) as [a' q1|e q1|q1|];
    simpl in Hreg, Hrun; try done.
  - destruct Hreg as [Hm1 _]. unfold ret in Hrun. cbv beta iota in Hrun.
    pose proof (parseLoop_safe H Hd rest q1 (proj1 Hm1)) as Hloop.
    assert (forallb (fun x => negb (namesDocument H x.1)) rest = true) as Hflag.
    { apply forallb_forall. intros x Hx%list_elem_of_In.
      rewrite Forall_forall in Hrest. by rewrite (Hrest x Hx). }
    rewrite Hflag in Hloop.
    destruct (parseLoop H rest q1) as [[] q2|e q2|q2|]; simpl in Hloop;
      try done; injection Hrun as _ _ <-; apply Hkeep;
      (eapply moves_trans; [done | exact Hm1 |]); [by destruct Hloop | done].
  - injection Hrun as _ _ <-. by apply Hkeep.
Qed.

(** ** Properties that the kind of a node does not have *)

(** X16. Properties outside the table of the kind are rejected.  In a state
    that [Parse] reaches, a statement about a resolved node whose property is
    not in the table that the [*Map] function of the node's kind builds fails
    with the property-not-supported error, which names the property and the
    type of the builder and carries the location of the statement; the parser
    is left as it was.  No property is ever added to a builder. *)
Theorem unsupported_property_rejected (H : Helpers) stm meta p b bk :
  distinctTypes H = true ->
  reachable H p ->
  Equals (Predicate stm) uri_nstype = false ->
  index p !! termStr (Subject stm) = Some (Some b) ->
  bldr_t b = kindTerm H bk ->
  lookupUpdater (kindTable H bk (bldr_ptr b)) (shortPrefix H (Predicate stm)) = None ->
  processTruple H stm meta p =
  Err (NewParseError
         (Sprintf msgPropertyNotSupported
            [ArgStr (shortPrefix H (Predicate stm)); ArgTerm (bldr_t b)]) meta) p.
Proof.
  intros Hd Hreach Hpred Hb Hbt Hnone.
  destruct (wf_builder H _ _ _ (reachable_wf H p Hd Hreach) Hb)
    as (bk' & Hbt' & _ & _ & Htab).
  assert (bk' = bk) as -> by (apply (kindTerm_inj H); [done | congruence]).
  rewrite (processTruple_resolved H stm meta p (Some b)) by done.
  apply builder_apply_unsupported; [done|].
  rewrite <- Htab, lookup_unsetTable in Hnone.
  by destruct (lookupUpdater (bldr_updaters b) _).
Qed.

(** ** Artifacts *)

Lemma newBuilder_artifact (H : Helpers) node meta p :
  distinctTypes H = true ->
  newBuilder H node (typeArtifactOf H) meta p =
  Ok (Some (Some (artifactOfMap H (length (heap p)))))
     (with_heap
        (heap p ++ [Struct ArtifactOf meta
                      match node with
                      | Uri _ => {[ "ProjectUri" := VStr (termStr node) meta ]}
                      | _ => ∅
                      end]) p).
Proof.
  intros Hd. unfold newBuilder, Equals.
  repeat (rewrite bool_decide_false;
          [| first [ by apply (typeTerms_distinct H 7 0)
                   | by apply (typeTerms_distinct H 7 1)
                   | by apply (typeTerms_distinct H 7 2)
                   | by apply (typeTerms_distinct H 7 3)
                   | by apply (typeTerms_distinct H 7 4)
                   | by apply (typeTerms_distinct H 7 5)
                   | by apply (typeTerms_distinct H 7 6) ]]).
  by rewrite bool_decide_true.
Qed.

(** X17. An artifact records its URI.  A type assertion with
    [typeArtifactOf] for a node with neither a builder nor a buffer creates an
    [ArtifactOf] entity under the builder of [artifactOfMap]; its [ProjectUri]
    is the URI of the node, with the location of the statement, when the node
    is a URI, and is left unset otherwise. *)
Theorem artifact_records_its_uri (H : Helpers) node meta p :
  distinctTypes H = true ->
  index p !! termStr node = None ->
  buffer p !! termStr node = None ->
  exists p',
    processTruple H {| Subject := node; Predicate := uri_nstype;
                       Object := typeArtifactOf H |} meta p = Ok tt p'
    /\ index p' !! termStr node = Some (Some (artifactOfMap H (length (heap p))))
    /\ heap p' = heap p ++ [Struct ArtifactOf meta
                              match node with
                              | Uri u => {[ "ProjectUri" := VStr u meta ]}
                              | _ => ∅
                              end].
Proof.
  intros Hd Hidx Hbuf.
  rewrite processTruple_type. unfold bind at 1, fuelOf.
  rewrite setType_fuel_S, setType_body_run, (newBuilder_artifact H _ _ _ Hd) by done.
  rewrite registerAndReplay_unbuffered by done.
  eexists. split; [done|]. split; [simpl; apply lookup_insert_eq|].
  simpl. by destruct node.
Qed.

(** ** References to licences and lists of references *)

Lemma newBuilder_blank_set (H : Helpers) b meta p :
  distinctTypes H = true ->
  HasPrefix (ToLower H (termStr (Blank b))) "licenseref" = false ->
  newBuilder H (Blank b) (typeAnyLicence H) meta p =
  Ok (Some (Some (licenceSetMap (length (heap p)))))
     (with_heap (heap p ++ [LicenceSet AbstractSet [] meta]) p).
Proof.
  intros Hd Hpre. unfold newBuilder, Equals.
  repeat (rewrite bool_decide_false;
          [| first [ by apply (typeTerms_distinct H 9 0)
                   | by apply (typeTerms_distinct H 9 1)
                   | by apply (typeTerms_distinct H 9 2)
                   | by apply (typeTerms_distinct H 9 3)
                   | by apply (typeTerms_distinct H 9 4)
                   | by apply (typeTerms_distinct H 9 5)
                   | by apply (typeTerms_distinct H 9 6)
                   | by apply (typeTerms_distinct H 9 7)
                   | by apply (typeTerms_distinct H 9 8) ]]).
  rewrite bool_decide_true by done. by rewrite Hpre.
Qed.

(** The request of a licence from a blank node that has neither a builder
    nor a buffer, and that is no licence reference by its name. *)
Lemma reqAnyLicence_blank (H : Helpers) fuel b p :
  distinctTypes H = true ->
  index p !! termStr (Blank b) = None ->
  buffer p !! termStr (Blank b) = None ->
  HasPrefix (ToLower H (termStr (Blank b))) "licenseref" = false ->
  reqAnyLicence H (setType_fuel H (S fuel)) (Blank b) p =
  Err (Errorf (Sprintf msgUnexpected [ArgTerm (Blank b); ArgPtr (length (heap p))]))
      (with_index (<[termStr (Blank b) := Some (licenceSetMap (length (heap p)))]> (index p))
         (with_heap (heap p ++ [LicenceSet AbstractSet [] None]) p)).
Proof.
  intros Hd Hidx Hbuf Hpre. unfold reqAnyLicence, bind at 1, reqType. rewrite Hidx.
  rewrite setType_fuel_S, setType_body_run, (newBuilder_blank_set H _ _ _ Hd Hpre) by done.
  rewrite registerAndReplay_unbuffered by done.
  unfold bind, load. simpl. by rewrite list_lookup_middle.
Qed.

Lemma licAssign_field (H : Helpers) p key b property ptr :
  wf H p -> index p !! key = Some (Some b) ->
  lookupUpdater (bldr_updaters b) property = Some (licAssign ptr) ->
  exists ty m fs, heap p !! ptr.1 = Some (Struct ty m fs).
Proof.
  intros Hp Hb Hf.
  destruct (wf_builder H _ _ _ Hp Hb) as (bk & _ & _ & Hsh & Htab).
  assert (entryOK bk (bldr_ptr b) (licAssign ptr)) as (Hptr & [r' ->]).
  { apply (kindTable_entry H _ _ property).
    by rewrite <- Htab, lookup_unsetTable, Hf. }
  rewrite Hptr. apply struct_at in Hsh as (m & fs & Hh). eauto.
Qed.

(** X18. A licence reference to a new blank node fails.  In a state that
    [Parse] reaches, take a licence-valued property ([licenseConcluded],
    [licenseDeclared], [licenseInfoFromFiles], [licenseInfoInFile], [member])
    of a resolved node, and as its object a blank node that has neither a
    builder nor buffered statements and whose name does not start with
    [licenseref], whatever the case of its letters.  The statement fails:
    [reqType] creates the node as an abstract licence set without a location,
    which the type switch of [reqAnyLicence] does not accept.  The error is
    the unexpected-cast error, which names the node and the new entity, and
    the node stays registered as an abstract set. *)
Theorem licence_reference_to_new_blank_node_fails (H : Helpers) N P b meta p bN f :
  distinctTypes H = true ->
  reachable H p ->
  Equals P uri_nstype = false ->
  index p !! termStr N = Some (Some bN) ->
  lookupUpdater (bldr_updaters bN) (shortPrefix H P) = Some f ->
  (exists ptr, f = licAssign ptr \/ f = licAppend ptr) \/ f = member ->
  index p !! termStr (Blank b) = None ->
  buffer p !! termStr (Blank b) = None ->
  HasPrefix (ToLower H (termStr (Blank b))) "licenseref" = false ->
  exists p',
    processTruple H {| Subject := N; Predicate := P; Object := Blank b |} meta p
    = Err (Errorf (Sprintf msgUnexpected
                     [ArgTerm (Blank b); ArgPtr (length (heap p))])) p'
    /\ index p' !! termStr (Blank b) = Some (Some (licenceSetMap (length (heap p))))
    /\ heap p' !! length (heap p) = Some (LicenceSet AbstractSet [] None).
Proof.
  intros Hd Hreach HP HN Hf Hkind Hidx Hbuf Hpre.
  pose proof (reachable_wf H p Hd Hreach) as Hp.
  rewrite (processTruple_resolved H _ meta p (Some bN)) by done.
  cbn [Subject Predicate Object].
  rewrite (builder_apply_lookup H _ _ _ _ _ _ bN f HN Hf).
  unfold fuelOf.
  destruct Hkind as [[ptr [-> | ->]] | ->]; unfold runUpdater.
  - destruct (licAssign_field H p _ _ _ _ Hp HN Hf) as (ty & m & fs & Hh).
    unfold bind at 1, catch.
    rewrite (reqAnyLicence_blank H _ b p Hd Hidx Hbuf Hpre).
    unfold bind at 1. erewrite setField_struct; last first.
    { simpl. by apply lookup_app_l_Some. }
    simpl. eexists. split; [done|]. split; simpl.
    + apply lookup_insert_eq.
    + rewrite list_lookup_insert_ne, list_lookup_middle; [done..|].
      apply lookup_lt_Some in Hh. lia.
  - unfold bind at 1.
    rewrite (reqAnyLicence_blank H _ b p Hd Hidx Hbuf Hpre).
    eexists. split; [done|]. split; simpl.
    + apply lookup_insert_eq.
    + by rewrite list_lookup_middle.
  - unfold bind at 1.
    rewrite (reqAnyLicence_blank H _ b p Hd Hidx Hbuf Hpre).
    eexists. split; [done|]. split; simpl.
    + apply lookup_insert_eq.
    + by rewrite list_lookup_middle.
Qed.

Lemma refAppend_field (H : Helpers) p key b property r ptr :
  wf H p -> index p !! key = Some (Some b) ->
  lookupUpdater (bldr_updaters b) property = Some (refAppend r ptr) ->
  exists ty m fs, heap p !! ptr.1 = Some (Struct ty m fs).
Proof.
  intros Hp Hb Hf.
  destruct (wf_builder H _ _ _ Hp Hb) as (bk & _ & _ & Hsh & Htab).
  assert (entryOK bk (bldr_ptr b) (refAppend r ptr)) as (Hptr & _ & [r' ->]).
  { apply (kindTable_entry H _ _ property).
    by rewrite <- Htab, lookup_unsetTable, Hf. }
  rewrite Hptr. apply struct_at in Hsh as (m & fs & Hh). eauto.
Qed.

(** X19. List-valued reference properties append on success only.  In a
    state that [Parse] reaches, take a statement that gives a list-valued
    reference property ([describesPackage], [referencesFile], [reviewed],
    [hasExtractedLicensingInfo], [hasFile], [fileDependency], [artifactOf])
    of a resolved node a resolved target.  When the type of the target is
    compatible with the requested one, the statement succeeds and the entity
    of the target is appended to the field, after the items it held; nothing
    else changes.  Otherwise the statement fails with the incompatible-types
    error of [reqType] and the parser is left as it was: unlike a single
    reference, the field is not touched. *)
Theorem list_reference_appends_or_fails (H : Helpers) N P M meta p bN r arr bM :
  distinctTypes H = true ->
  reachable H p ->
  Equals P uri_nstype = false ->
  index p !! termStr N = Some (Some bN) ->
  lookupUpdater (bldr_updaters bN) (shortPrefix H P) = Some (refAppend r arr) ->
  index p !! termStr M = Some (Some bM) ->
  exists ty m fs,
    heap p !! arr.1 = Some (Struct ty m fs)
    /\ processTruple H {| Subject := N; Predicate := P; Object := M |} meta p =
       if compatibleTypes H (bldr_t bM) (reqTerm H r) then
         Ok tt (with_heap
                  (<[arr.1 := Struct ty m
                       (<[arr.2 := VPtrs (match fs !! arr.2 with
                                          | Some (VPtrs l) => l
                                          | _ => []
                                          end ++ [bldr_ptr bM])]> fs)]> (heap p)) p)
       else
         Err (Errorf (Sprintf msgIncompatibleTypes
                        [ArgTerm M; ArgTerm (bldr_t bM); ArgTerm (reqTerm H r)])) p.
Proof.
  intros Hd Hreach HP HN Hf HM.
  pose proof (reachable_wf H p Hd Hreach) as Hp.
  destruct (refAppend_field H p _ _ _ _ _ Hp HN Hf) as (ty & m & fs & Hh).
  exists ty, m, fs. split; [done|].
  rewrite (processTruple_resolved H _ meta p (Some bN)) by done.
  cbn [Subject Predicate Object].
  rewrite (builder_apply_lookup H _ _ _ _ _ _ bN _ HN Hf). simpl.
  destruct (compatibleTypes H (bldr_t bM) (reqTerm H r)) eqn:Hc.
  - assert (bldr_t bM = reqTerm H r) as Ht.
    { apply compatibleTypes_true in Hc as [Ht | [Hany _]]; [done|].
      by destruct (kindTerm_not_anyLicence H (KStruct r) Hd). }
    unfold bind at 1. rewrite (reqStruct_resolved H _ r M p bM) by done.
    unfold appendField, bind.
    rewrite (getField_struct _ _ _ _ _ Hh), (setField_struct _ _ _ _ _ _ Hh).
    do 4 f_equal. by destruct (fs !! arr.2) as [[]|].
  - unfold bind at 1, reqStruct, bind at 1, reqType. by rewrite HM, Hc.
Qed.

(** ** The statements of a node, before and after its type *)

Section Frame.

Variable H : Helpers.
Variable k0 : string.
Variable rec : Term -> Term -> option Meta -> M addr.
Hypothesis rec_frames : forall node t meta, frames k0 (rec node t meta).

Lemma frames_ret {A} (a : A) : frames k0 (ret a).
Proof. intros p Hk. split; [done|]. by intros p' [= <-]. Qed.

Lemma frames_throw {A} e : frames k0 (@throw A e).
Proof. intros p Hk. split; [done|]. by intros p' [= <-]. Qed.

Lemma frames_panic {A} : frames k0 (@panic A).
Proof. intros p Hk. split; [done|]. by intros p' [= <-]. Qed.

Lemma frames_bind {A B} (m : M A) (k : A -> M B) :
  frames k0 m -> (forall a, frames k0 (k a)) -> frames k0 (bind m k).
Proof.
  intros Hm Hk p Hp. destruct (Hm p Hp) as [Hc Hpost]. unfold bind. rewrite Hc.
  destruct (m p) as [a p1|e p1|p1|]; simpl.
  - apply Hk. by apply Hpost.
  - split; [done|]. intros p' [= <-]. by apply Hpost.
  - split; [done|]. intros p' [= <-]. by apply Hpost.
  - done.
Qed.

Lemma frames_catch {A} (m : M A) : frames k0 m -> frames k0 (catch m).
Proof.
  intros Hm p Hp. destruct (Hm p Hp) as [Hc Hpost]. unfold catch. rewrite Hc.
  destruct (m p) as [a p1|e p1|p1|]; simpl; (split; [done|]);
    first [done | intros p' [= <-]; by apply Hpost].
Qed.

Lemma frames_forEach {A} (l : list A) (f : A -> M unit) :
  (forall x, frames k0 (f x)) -> frames k0 (forEach l f).
Proof.
  intros Hf. induction l as [|x l IH]; simpl; [apply frames_ret|].
  by apply frames_bind.
Qed.

(** A step that leaves the index and the buffer alone. *)
Lemma frames_pure {A} (m : M A) :
  (forall p, m (strip k0 p) = mapState (strip k0) (m p)) ->
  (forall p p', stateOf (m p) = Some p' -> index p' = index p) ->
  frames k0 m.
Proof.
  intros Hc Hi p Hp. split; [done|]. intros p' Hst.
  unfold resolvedAt. by rewrite (Hi p p' Hst).
Qed.

Lemma frames_alloc e : frames k0 (alloc e).
Proof. apply frames_pure; [done|]. by intros p p' [= <-]. Qed.

Lemma frames_load a : frames k0 (load a).
Proof.
  apply frames_pure; intros p; unfold load; simpl.
  - by destruct (heap p !! a).
  - destruct (heap p !! a); by intros p' [= <-].
Qed.

Lemma frames_getField ptr : frames k0 (getField ptr).
Proof.
  apply frames_bind; [apply frames_load|].
  intros []; [apply frames_ret | apply frames_panic..].
Qed.

Lemma frames_setField ptr v : frames k0 (setField ptr v).
Proof.
  apply frames_bind; [apply frames_load|].
  intros []; [|apply frames_panic..]. apply frames_pure; [done|].
  by intros p p' [= <-].
Qed.

Lemma frames_appendField arr app : frames k0 (appendField arr app).
Proof.
  apply frames_bind; [apply frames_getField | intros; apply frames_setField].
Qed.

Lemma frames_Add set lic : frames k0 (Add set lic).
Proof.
  apply frames_bind; [apply frames_load|].
  intros []; [apply frames_panic..|]. apply frames_pure; [done|].
  by intros p p' [= <-].
Qed.

Lemma frames_getBuilder key : frames k0 (getBuilder key).
Proof.
  apply frames_pure; intros p; unfold getBuilder; simpl.
  - by destruct (index p !! key) as [[b|]|].
  - destruct (index p !! key) as [[b|]|]; by intros p' [= <-].
Qed.

Lemma frames_setBuilder key b : frames k0 (setBuilder key (Some b)).
Proof.
  intros p [b0 Hp]. split; [done|]. intros p' [= <-]. unfold resolvedAt. simpl.
  destruct (decide (key = k0)) as [->|Hne].
  - rewrite lookup_insert_eq. eauto.
  - rewrite lookup_insert_ne by done. eauto.
Qed.

Lemma frames_setClosure key property f : frames k0 (setClosure key property f).
Proof.
  apply frames_bind; [apply frames_getBuilder | intros; apply frames_setBuilder].
Qed.

Lemma frames_reqType node t : frames k0 (reqType H rec node t).
Proof.
  intros p Hp. unfold reqType. change (index (strip k0 p)) with (index p).
  destruct (index p !! termStr node) as [[b|]|] eqn:Hb.
  - destruct (negb _); (split; [done|]); by intros p' [= <-].
  - split; [done|]. by intros p' [= <-].
  - by apply rec_frames.
Qed.

Lemma frames_reqStruct r node : frames k0 (reqStruct H rec r node).
Proof.
  apply frames_bind; [apply frames_reqType|]. intros obj.
  apply frames_bind; [apply frames_load|].
  intros [ty ? ?| |]; [|apply frames_panic..].
  case_bool_decide; [apply frames_ret | apply frames_panic].
Qed.

Lemma frames_reqAnyLicence node : frames k0 (reqAnyLicence H rec node).
Proof.
  apply frames_bind; [apply frames_reqType|]. intros obj.
  apply frames_bind; [apply frames_load|].
  intros [[] ? ?| |[] ? ?]; first [apply frames_ret | apply frames_throw].
Qed.

Lemma frames_assign {A} (m : M A) ptr (v : A -> Value) v0 :
  frames k0 m ->
  frames k0 (x <- catch m ;;
             match x with
             | inl a => setField ptr (v a)
             | inr err => setField ptr v0 ;;; throw err
             end).
Proof.
  intros Hm. apply frames_bind; [by apply frames_catch|].
  intros [a|err]; [apply frames_setField|].
  apply frames_bind; [apply frames_setField | intros; apply frames_throw].
Qed.

Lemma frames_runUpdater key property f obj meta :
  frames k0 (runUpdater H rec key property f obj meta).
Proof.
  assert (forall ptr v f',
    frames k0 (setField ptr v ;;; setClosure key property f')) as Hwrite.
  { intros. apply frames_bind; [apply frames_setField|]. intros.
    apply frames_setClosure. }
  destruct f; simpl.
  - destruct set; [apply frames_throw | apply Hwrite].
  - destruct set; [apply frames_throw | apply Hwrite].
  - apply frames_appendField.
  - destruct set; [apply frames_throw | apply Hwrite].
  - destruct set; [apply frames_throw | apply Hwrite].
  - apply frames_appendField.
  - apply frames_assign, frames_reqStruct.
  - apply frames_bind; [apply frames_reqStruct|]. intros.
    apply frames_appendField.
  - apply frames_assign, frames_reqAnyLicence.
  - apply frames_bind; [apply frames_reqAnyLicence|]. intros.
    apply frames_appendField.
  - destruct algoSet; [apply frames_throw | apply Hwrite].
  - apply frames_bind; [apply frames_reqAnyLicence|]. intros.
    apply frames_bind; [apply frames_getBuilder|]. intros. apply frames_Add.
  - apply frames_bind; [apply frames_getBuilder|]. intros bldr.
    destruct (negb _); [apply frames_throw|].
    apply frames_bind; [apply frames_load|].
    intros [| |[] members tmpMeta]; try apply frames_panic.
    destruct (Equals obj (typeConjunctiveSet H) || false).
    { apply frames_bind; [apply frames_alloc|]. intros.
      apply frames_setBuilder. }
    destruct (Equals obj (typeDisjunctiveSet H) || false).
    { apply frames_bind; [apply frames_alloc|]. intros.
      apply frames_setBuilder. }
    apply frames_throw.
Qed.

Lemma frames_builder_apply key pred obj meta :
  frames k0 (builder_apply H rec key pred obj meta).
Proof.
  apply frames_bind; [apply frames_getBuilder|]. intros b. cbv zeta.
  destruct (lookupUpdater _ _); [apply frames_runUpdater | apply frames_throw].
Qed.

Lemma frames_replay key buf : frames k0 (replay H rec key buf).
Proof. apply frames_forEach. intros. apply frames_builder_apply. Qed.

Lemma frames_newBuilder node t meta : frames k0 (newBuilder H node t meta).
Proof.
  assert (forall (g : addr -> builder) e,
    frames k0 (b <- (a <- alloc e ;; ret (g a)) ;; ret (Some (Some b)))) as Hnew.
  { intros. apply frames_bind; [|intros; apply frames_ret].
    apply frames_bind; [apply frames_alloc | intros; apply frames_ret]. }
  assert (forall (m : M builder), frames k0 m ->
    frames k0 (b <- m ;; ret (Some (Some b)))) as Hsome.
  { intros. apply frames_bind; [done | intros; apply frames_ret]. }
  assert (forall meta', frames k0 (licenceReferenceBuilder H node meta')) as Hlic.
  { intros. apply frames_bind; [apply frames_alloc | intros; apply frames_ret]. }
  unfold newBuilder.
  destruct (Equals t (typeDocument H)).
  { apply Hsome. apply frames_bind; [apply frames_alloc|]. intros a.
    apply frames_bind; [|intros; apply frames_ret].
    apply frames_pure; [done|]. by intros p p' [= <-]. }
  destruct (Equals t (typeCreationInfo H)); [apply Hnew|].
  destruct (Equals t (typePackage H)); [apply Hnew|].
  destruct (Equals t (typeChecksum H)); [apply Hnew|].
  destruct (Equals t (typeVerificationCode H)); [apply Hnew|].
  destruct (Equals t (typeFile H)); [apply Hnew|].
  destruct (Equals t (typeReview H)); [apply Hnew|].
  destruct (Equals t (typeArtifactOf H)); [apply Hnew|].
  destruct (Equals t (typeExtractedLicence H)); [apply Hnew|].
  destruct (Equals t (typeAnyLicence H)).
  { destruct node; [by apply Hsome| |apply frames_ret].
    destruct (HasPrefix _ _); apply Hnew. }
  destruct (Equals t (typeLicence H)); [by apply Hsome|].
  destruct (Equals t typeAbstractLicenceSet); [apply Hnew|].
  destruct (Equals t (typeConjunctiveSet H)).
  { apply Hsome. apply frames_bind; [apply frames_alloc|].
    intros; apply frames_ret. }
  destruct (Equals t (typeDisjunctiveSet H)).
  { apply Hsome. apply frames_bind; [apply frames_alloc|].
    intros; apply frames_ret. }
  apply frames_ret.
Qed.

End Frame.

Lemma frames_register (H : Helpers) k0 rec key bldr :
  key <> k0 ->
  (forall node t meta, frames k0 (rec node t meta)) ->
  frames k0 (registerAndReplay H rec key bldr).
Proof.
  intros Hne Hrec. unfold registerAndReplay.
  apply frames_bind.
  { intros p [b0 Hp]. split; [done|]. intros p' [= <-]. exists b0. simpl.
    by rewrite lookup_insert_ne. }
  intros _. apply frames_bind.
  { apply frames_pure; [|by intros p p' [= <-]]. intros p. unfold strip. simpl.
    by rewrite lookup_delete_ne. }
  intros buf. apply frames_bind.
  { apply frames_forEach. intros. by apply frames_builder_apply. }
  intros _. apply frames_bind.
  { apply frames_pure; [|by intros p p' [= <-]]. intros p. unfold strip. simpl.
    by rewrite delete_delete. }
  intros _. apply frames_bind; [apply frames_getBuilder|].
  intros. apply frames_ret.
Qed.

Lemma setType_fuel_frames (H : Helpers) fuel :
  forall k0 node t meta, frames k0 (setType_fuel H fuel node t meta).
Proof.
  induction fuel as [|fuel IH]; intros k0 node t meta; [by intros p Hp|].
  rewrite setType_fuel_S. intros p Hp.
  destruct (index p !! termStr node) as [[bldr|]|] eqn:Hidx.
  - rewrite (setType_body_resolved H _ _ _ _ (strip k0 p) bldr) by done.
    rewrite (setType_body_resolved H _ _ _ _ p bldr) by done.
    match goal with
    | |- context [mapState _ (?m p)] =>
        enough (frames k0 m) as Hc by exact (Hc p Hp)
    end.
    destruct (negb _ && _).
    + apply frames_bind; [by apply frames_builder_apply|]. intros _.
      apply frames_bind; [apply frames_getBuilder|]. intros.
      apply frames_ret.
    + destruct (negb _); [apply frames_throw | apply frames_ret].
  - unfold setType_body. change (index (strip k0 p)) with (index p).
    rewrite Hidx. split; [done|]. by intros p' [= <-].
  - rewrite (setType_body_unresolved H _ _ _ _ (strip k0 p)) by done.
    rewrite (setType_body_unresolved H _ _ _ _ p) by done.
    match goal with
    | |- context [mapState _ (?m p)] =>
        enough (frames k0 m) as Hc by exact (Hc p Hp)
    end.
    apply frames_bind; [apply frames_newBuilder|]. intros [bldr|];
      [|apply frames_throw].
    apply frames_register; [|done].
    intros E. destruct Hp as [b Hb]. rewrite E in Hidx. congruence.
Qed.

(** *** The buffer of a node, before and after its type *)

Lemma strip_idemp k p : strip k (strip k p) = strip k p.
Proof. unfold strip, with_buffer. simpl. by rewrite delete_delete_eq. Qed.

Lemma strip_buffered k v p :
  strip k (with_buffer (<[k := v]> (buffer p)) p) = strip k p.
Proof. unfold strip, with_buffer. simpl. by rewrite delete_insert_eq. Qed.

Lemma evolves_dom p p' : evolves p p' -> dom (buffer p') ⊆ dom (buffer p).
Proof.
  intros [_ Hb] k Hk. apply elem_of_dom in Hk. apply elem_of_dom.
  destruct (Hb k) as [<-|[Hn _]]; [done|]. rewrite Hn in Hk. by destruct Hk.
Qed.

Lemma buffered_under (H : Helpers) k input p :
  input <> [] ->
  Forall (fun x => termStr (Subject x.1) = k
                   /\ Equals (Predicate x.1) uri_nstype = false) input ->
  index p !! k = None ->
  parseLoop H input p =
  Ok tt (with_buffer (<[k := default [] (buffer p !! k) ++ entriesOf input]>
                        (buffer p)) p).
Proof.
  intros Hne Hall. revert p Hne.
  induction Hall as [|[stm line] input [Hk Hp] Hall IH]; intros p Hne Hidx; [done|].
  simpl in Hk, Hp. simpl. unfold bind, processTruple at 1. rewrite Hp, Hk, Hidx.
  destruct input as [|x input]; [done|].
  rewrite IH by done. f_equal. unfold with_buffer. simpl. f_equal.
  rewrite lookup_insert_eq. simpl. rewrite insert_insert_eq.
  by rewrite <- app_assoc.
Qed.

Lemma newBuilder_buffer (H : Helpers) node t meta B p :
  newBuilder H node t meta (with_buffer B p) =
  mapState (with_buffer B) (newBuilder H node t meta p).
Proof.
  unfold newBuilder.
  repeat (destruct (Equals t _); [reflexivity|]).
  destruct (Equals t _).
  { destruct node; try reflexivity. by destruct (HasPrefix _ _). }
  repeat (destruct (Equals t _); [reflexivity|]). reflexivity.
Qed.

Lemma replay_app (H : Helpers) rec key l1 l2 p :
  replay H rec key (l1 ++ l2) p = (replay H rec key l1 ;;; replay H rec key l2) p.
Proof.
  revert p. induction l1 as [|x l1 IH]; intros p; [done|].
  unfold replay in *. simpl. unfold bind in *.
  destruct (builder_apply _ _ _ _ _ _ p) as [[] p'| | |]; [apply IH | done..].
Qed.

Lemma replay_nil_builder (H : Helpers) rec key x l p :
  index p !! key = Some None -> replay H rec key (x :: l) p = Panic p.
Proof.
  intros Hn. unfold replay. simpl.
  unfold bind at 1, builder_apply, bind at 1, getBuilder. by rewrite Hn.
Qed.

(** [registerAndReplay], by the result of the replay. *)
Lemma registerAndReplay_run (H : Helpers) rec key bldr q :
  registerAndReplay H rec key bldr q =
  match replay H rec key (default [] (buffer q !! key))
          (with_index (<[key := bldr]> (index q)) q) with
  | Ok _ q2 =>
      match index q2 !! key with
      | Some (Some b) => Ok (bldr_ptr b) (strip key q2)
      | _ => Panic (strip key q2)
      end
  | Err e q2 => Err e q2
  | Panic q2 => Panic q2
  | OutOfFuel => OutOfFuel
  end.
Proof.
  unfold registerAndReplay, replay, bind at 1, setBuilder at 1. unfold bind at 1.
  unfold bind at 1. cbn [buffer with_index].
  destruct (forEach _ _ _) as [[] q2|e q2|q2|]; try done.
  unfold bind, getBuilder, strip. simpl.
  by destruct (index q2 !! key) as [[b|]|].
Qed.

(** The statements of a resolved node, run one by one, are a replay. *)
Lemma direct_replay (H : Helpers) F k stms :
  Forall (fun x => termStr (Subject x.1) = k
                   /\ Equals (Predicate x.1) uri_nstype = false) stms ->
  forall r,
    resolvedAt k r -> fuelOf r <= F ->
    parseLoop H stms r = replay H (setType_fuel H F) k (entriesOf stms) r.
Proof.
  induction 1 as [|[stm line] stms [Hk Hp] Hall IH]; intros r Hr HF; [done|].
  simpl in Hk, Hp. unfold replay in *. simpl. pose proof Hr as [b Hb].
  unfold bind.
  rewrite (processTruple_resolved H stm _ r (Some b)) by (by rewrite ?Hk).
  rewrite Hk.
  assert (builder_apply H (setType_fuel H (fuelOf r)) k (Predicate stm) (Object stm)
            (Some (NewMetaL line)) r =
          builder_apply H (setType_fuel H F) k (Predicate stm) (Object stm)
            (Some (NewMetaL line)) r) as ->.
  { symmetry.
    apply (refines_builder_apply H (setType_fuel H (fuelOf r)) (setType_fuel H F)).
    - intros. by apply setType_fuel_refines.
    - apply apply_terminates. }
  pose proof (frames_builder_apply H k (setType_fuel H F) (setType_fuel_frames H F k)
                k (Predicate stm) (Object stm) (Some (NewMetaL line)) r Hr)
    as [_ Hpost].
  pose proof (builder_apply_evolves H F k (Predicate stm) (Object stm)
                (Some (NewMetaL line)) r r (evolves_refl r)) as Hev.
  destruct (builder_apply _ _ _ _ _ _ r) as [[] r'|e r'|r'|]; try done.
  apply IH; [by apply Hpost|]. simpl in Hev. apply evolves_dom in Hev.
  apply subseteq_size in Hev. rewrite !size_dom in Hev. unfold fuelOf in *. lia.
Qed.

Lemma newBuilder_tables_eq (H : Helpers) node t meta p q :
  stateOf (newBuilder H node t meta p) = Some q ->
  index q = index p /\ buffer q = buffer p.
Proof.
  intros Hst. pose proof (newBuilder_tables H node t meta p) as Hpost.
  destruct (newBuilder H node t meta p) as [nb q'|e q'|q'|]; simpl in *;
    try done; injection Hst as <-; tauto.
Qed.

Lemma type_after_statements (H : Helpers) node t line stms p :
  index p !! termStr node = None ->
  Forall (fun x => termStr (Subject x.1) = termStr node
                   /\ Equals (Predicate x.1) uri_nstype = false) stms ->
  let typeStm := ({| Subject := node; Predicate := uri_nstype; Object := t |}, line) in
  mapState (strip (termStr node)) (parseLoop H (stms ++ [typeStm]) p) =
  mapState (strip (termStr node)) (parseLoop H (typeStm :: stms) p).
Proof.
  intros Hidx Hall typeStm. set (k := termStr node) in *.
  destruct (decide (stms = [])) as [->|Hne]; [done|].
  set (E0 := default [] (buffer p !! k)).
  set (B := <[k := E0 ++ entriesOf stms]> (buffer p)).
  set (pb := with_buffer B p).
  rewrite (parseLoop_app H stms [typeStm] p pb) by (by apply buffered_under).
  set (F := S (size (buffer pb))). set (rec := setType_fuel H F).
  (* both orders run the body of [setType] with the same fuel *)
  assert (parseLoop H [typeStm] pb =
          (setType_body H rec node t (Some (NewMetaL line)) ;;; ret tt ;;; ret tt) pb) as ->.
  { simpl. unfold bind at 1. rewrite processTruple_type. unfold bind.
    change (fuelOf pb) with (S F). rewrite setType_fuel_S. fold rec.
    by destruct (setType_body _ _ _ _ _ pb). }
  assert (parseLoop H (typeStm :: stms) p =
          (setType_body H rec node t (Some (NewMetaL line)) ;;; ret tt ;;; parseLoop H stms) p) as ->.
  { simpl. unfold bind at 1. rewrite processTruple_type. unfold bind at 1.
    assert (setType_fuel H (fuelOf p) node t (Some (NewMetaL line)) p = setType_fuel H (S F) node t (Some (NewMetaL line)) p)
      as ->.
    { symmetry. apply (setType_fuel_refines H (fuelOf p) (S F));
        [|apply setType_terminates].
      unfold fuelOf, F. subst pb B. simpl.
      pose proof (subseteq_size _ _ (dom_insert_subseteq (buffer p) k
                                       (E0 ++ entriesOf stms))) as Hs.
      rewrite !size_dom in Hs. lia. }
    rewrite setType_fuel_S. fold rec. unfold bind.
    by destruct (setType_body _ _ _ _ _ p). }
  unfold bind at 1 3.
  rewrite !setType_body_run by done.
  subst pb. rewrite newBuilder_buffer.
  destruct (newBuilder H node t (Some (NewMetaL line)) p) as [nb q|e q|q|] eqn:Hnew; simpl;
    [| | |done].
  2,3: destruct (newBuilder_tables_eq H node t (Some (NewMetaL line)) p q) as [_ Hqb];
    [by rewrite Hnew|]; f_equal; unfold strip, with_buffer; simpl;
    subst B; by rewrite Hqb, delete_insert_eq.
  destruct (newBuilder_tables_eq H node t (Some (NewMetaL line)) p q) as [Hqi Hqb];
    [by rewrite Hnew|].
  assert (strip k (with_buffer B q) = strip k q) as Hstrip.
  { unfold strip, with_buffer. simpl. subst B. by rewrite Hqb, delete_insert_eq. }
  destruct nb as [bldr|]; [|simpl; by rewrite Hstrip].
  rewrite !registerAndReplay_run. cbn [buffer index with_buffer]. fold k.
  assert (B !! k = Some (E0 ++ entriesOf stms)) as -> by apply lookup_insert_eq.
  rewrite Hqb. fold E0. cbn [default from_option id].
  set (q1b := with_index (<[k := bldr]> (index q)) (with_buffer B q)).
  set (q1 := with_index (<[k := bldr]> (index q)) q).
  assert (strip k q1b = strip k q1) as Hs1.
  { unfold strip, with_buffer, q1b, q1. simpl. subst B.
    by rewrite Hqb, delete_insert_eq. }
  assert (entriesOf stms <> []) as Hne'.
  { destruct stms; [done|]. done. }
  destruct bldr as [b|].
  - (* a builder: the entries are replayed in their order *)
    assert (resolvedAt k q1b /\ resolvedAt k q1) as [Hr1b Hr1].
    { split; exists b; simpl; apply lookup_insert_eq. }
    rewrite replay_app. unfold bind at 1.
    destruct (frames_replay H k rec (setType_fuel_frames H F k) k E0 q1b Hr1b)
      as [Hcb Hpb].
    destruct (frames_replay H k rec (setType_fuel_frames H F k) k E0 q1 Hr1)
      as [Hc Hp].
    rewrite Hs1, Hc in Hcb.
    pose proof (replay_evolves H F k E0 q1 q1 (evolves_refl q1)) as Hev.
    fold rec in Hev. fold (replay H rec k E0) in Hev.
    destruct (replay H rec k E0 q1b) as [[] q2b|e2 q2b|q2b|],
             (replay H rec k E0 q1) as [[] q2|e2' q2|q2|];
      simpl in Hcb; try discriminate; try done.
    apply Ok_inj in Hcb as [_ Hs2].
    destruct (Hp q2 eq_refl) as [b2 Hb2]. rewrite Hb2. unfold bind, ret.
    rewrite (direct_replay H F k stms Hall (strip k q2)).
    + fold rec. rewrite Hs2.
        destruct (frames_replay H k rec (setType_fuel_frames H F k) k
                    (entriesOf stms) q2b (Hpb q2b eq_refl)) as [Hc3 Hp3].
        rewrite Hc3.
        destruct (replay H rec k (entriesOf stms) q2b) as [[] q3b|e3 q3b|q3b|];
          simpl; [| by rewrite strip_idemp.. | done].
        destruct (Hp3 q3b eq_refl) as [b3 Hb3]. rewrite Hb3. simpl.
        by rewrite strip_idemp.
    + exists b2. done.
    + simpl in Hev. apply evolves_dom in Hev.
        unfold fuelOf, F, strip. simpl.
        assert (size (delete k (buffer q2)) < size B); [|lia].
        rewrite <- !size_dom. apply subset_size. subst B.
        rewrite dom_delete_L, dom_insert_L.
        assert (dom (buffer q2) ⊆ dom (buffer p)) as Hsub.
        { subst q1. simpl in Hev. by rewrite Hqb in Hev. }
        set_solver.
  - (* the nil builder: both orders end in its panic *)
    assert (index q1b !! k = Some None /\ index q1 !! k = Some None) as [Hn1b Hn1].
    { split; simpl; apply lookup_insert_eq. }
    destruct (E0 ++ entriesOf stms) as [|x l] eqn:HE.
    { apply app_eq_nil in HE as [_ HE]. done. }
    rewrite (replay_nil_builder H rec k x l q1b Hn1b). simpl.
    destruct E0 as [|x0 l0].
    + change (replay H rec k [] q1) with (@Ok unit tt q1). cbv beta iota.
      rewrite Hn1. cbn [mapState]. by rewrite strip_idemp, Hs1.
    + rewrite (replay_nil_builder H rec k x0 l0 q1 Hn1). simpl. by rewrite Hs1.
Qed.

Lemma parseLoop_app_run (H : Helpers) l rest p :
  parseLoop H (l ++ rest) p =
  match parseLoop H l p with
  | Ok _ q => parseLoop H rest q
  | r => r
  end.
Proof.
  revert p. induction l as [|[stm line] l IH]; intros p; [done|].
  simpl. unfold bind. destruct (processTruple _ _ _ _) as [[] q| | |]; [apply IH | done..].
Qed.

Lemma resolved_unbuffered k p :
  exclusiveExcept ∅ p -> is_Some (index p !! k) -> strip k p = p.
Proof.
  intros Hp Hk. destruct p as [i b d h]. unfold strip, with_buffer. simpl in *.
  f_equal. apply delete_id. destruct (b !! k) eqn:Hb; [|done].
  assert (k ∈ (∅ : gset string)) as Hin by (apply Hp; simpl; [done | by rewrite Hb]).
  by apply not_elem_of_empty in Hin.
Qed.

(** X20. Statements of a node may come before or after its type.  For a node
    without a builder, a run of statements about the node that are not type
    assertions, followed by the type assertion of the node, gives the same
    outcome of [Parse] as the type assertion followed by the same statements:
    the same error or panic, the same document pointer, the same index and
    the same entities.  The two parsers can only differ in the buffer entry of
    the node, which a failed replay leaves behind. *)
Theorem statements_before_or_after_type (H : Helpers) pre stms rest node t line p :
  parseLoop H pre NewParser = Ok tt p ->
  index p !! termStr node = None ->
  Forall (fun x => termStr (Subject x.1) = termStr node
                   /\ Equals (Predicate x.1) uri_nstype = false) stms ->
  let typeStm := ({| Subject := node; Predicate := uri_nstype; Object := t |}, line) in
  mapOutcome (strip (termStr node)) (Parse H (pre ++ stms ++ typeStm :: rest)) =
  mapOutcome (strip (termStr node)) (Parse H (pre ++ typeStm :: stms ++ rest)).
Proof.
  intros Hpre Hidx Hall typeStm. unfold Parse.
  rewrite !(parseLoop_app H pre _ NewParser p Hpre).
  change (stms ++ typeStm :: rest) with (stms ++ [typeStm] ++ rest).
  change (typeStm :: stms ++ rest) with ((typeStm :: stms) ++ rest).
  rewrite app_assoc, (parseLoop_app_run H (stms ++ [typeStm]) rest),
    (parseLoop_app_run H (typeStm :: stms) rest).
  pose proof (type_after_statements H node t line stms p Hidx Hall) as Hrun.
  cbv zeta in Hrun. fold typeStm in Hrun.
  assert (exclusiveExcept ∅ p) as Hp.
  { pose proof (parseLoop_exclusive H pre NewParser exclusiveExcept_NewParser) as Hq.
    by rewrite Hpre in Hq. }
  pose proof (parseLoop_exclusive H (stms ++ [typeStm]) p Hp) as Hex1.
  pose proof (parseLoop_exclusive H (typeStm :: stms) p Hp) as Hex2.
  assert (forall q, parseLoop H (stms ++ [typeStm]) p = Ok tt q ->
                    is_Some (index q !! termStr node)) as Hres1.
  { intros q Hq. rewrite parseLoop_app_run in Hq.
    destruct (parseLoop H stms p) as [[] q0| | |]; try done.
    simpl in Hq. unfold bind in Hq. rewrite processTruple_type in Hq.
    unfold bind in Hq.
    destruct (setType_fuel H (fuelOf q0) node t (Some (NewMetaL line)) q0)
      as [a q1| | |] eqn:Hset; try done.
    injection Hq as <-.
    destruct (setType_fuel_returns_builder H _ _ _ _ _ _ _ Hset) as (b & -> & _).
    eauto. }
  assert (forall q, parseLoop H (typeStm :: stms) p = Ok tt q ->
                    is_Some (index q !! termStr node)) as Hres2.
  { intros q Hq. simpl in Hq. unfold bind in Hq. rewrite processTruple_type in Hq.
    unfold bind at 1 in Hq.
    destruct (setType_fuel H (fuelOf p) node t (Some (NewMetaL line)) p)
      as [a q1| | |] eqn:Hset; try done.
    destruct (setType_fuel_returns_builder H _ _ _ _ _ _ _ Hset) as (b & Hb & _).
    unfold ret in Hq. cbv beta iota in Hq.
    eapply (parseLoop_grows H stms q1 q); [by rewrite Hq | by rewrite Hb]. }
  destruct (parseLoop H (stms ++ [typeStm]) p) as [[] s1|e1 s1|s1|],
           (parseLoop H (typeStm :: stms) p) as [[] s2|e2 s2|s2|];
    simpl in Hrun; try discriminate; try done.
  - apply Ok_inj in Hrun as [_ Hs].
    rewrite (resolved_unbuffered _ s1), (resolved_unbuffered _ s2) in Hs by auto.
    by subst.
  - apply Err_inj in Hrun as [-> Hs]. simpl. rewrite Hs.
    assert (doc s1 = doc s2) as -> by (by apply (f_equal doc) in Hs). done.
  - apply Panic_inj in Hrun. simpl. by rewrite Hrun.
Qed.

(** ** The statements above, on sample inputs *)

Lemma Parse_first_error_witness :
  let pkg := Uri "http://example.org/pkg" in
  let pre := [ (Sample.stm pkg uri_nstype (typePackage Sample.helpers), 1%Z) ] in
  let bad := Sample.stm pkg (Sample.prop "fileName") (Sample.lit "a") in
  let rest := [ (Sample.stm pkg (Sample.prop "name") (Sample.lit "libfoo"), 3%Z) ] in
  exists d e p', Parse Sample.helpers (pre ++ (bad, 2%Z) :: rest) = Returned d (Some e) p'.
Proof.
  intros pkg pre bad rest.
  set (p := default NewParser (stateOf (parseLoop Sample.helpers pre NewParser))).
  destruct (processTruple Sample.helpers bad (Some (NewMetaL 2)) p) as [| e p' | |]
    eqn:Hbad; [vm_compute in Hbad; discriminate Hbad | | vm_compute in Hbad; discriminate Hbad ..].
  exists (doc p'), e, p'.
  apply (Parse_first_error Sample.helpers pre bad 2%Z rest p e p'); [|exact Hbad].
  vm_compute. reflexivity.
Defined.

Lemma unresolved_statements_buffered_in_order_witness :
  let x := Blank "x" in
  let input := [ (Sample.stm x (Sample.prop "name") (Sample.lit "a"), 1%Z);
                 (Sample.stm x (Sample.prop "versionInfo") (Sample.lit "b"), 2%Z) ] in
  exists p',
    parseLoop Sample.helpers input NewParser = Ok tt p'
    /\ index p' = index NewParser /\ heap p' = heap NewParser /\ doc p' = doc NewParser
    /\ forall k,
         default [] (buffer p' !! k) =
         default [] (buffer NewParser !! k)
         ++ entriesOf (filter (fun x => bool_decide (termStr (Subject x.1) = k)) input).
Proof.
  intros x input.
  apply (unresolved_statements_buffered_in_order Sample.helpers input NewParser).
  repeat constructor.
Defined.

Lemma unknown_type_rejected_witness :
  let x := Uri "http://example.org/x" in
  let t := Uri "http://example.org/Unknown" in
  processTruple Sample.helpers
    {| Subject := x; Predicate := uri_nstype; Object := t |} (Some (NewMetaL 4)) NewParser
  = Err (NewParseError (Sprintf msgUnknownType [ArgTerm t]) (Some (NewMetaL 4))) NewParser.
Proof.
  intros x t. apply (unknown_type_rejected Sample.helpers x t (Some (NewMetaL 4)) NewParser).
  - reflexivity.
  - intros Hin.
    repeat (apply elem_of_cons in Hin as [Hin|Hin]; [vm_compute in Hin; discriminate Hin|]).
    by apply elem_of_nil in Hin.
Defined.

Lemma resolved_type_is_final_witness :
  let pkg := Uri "http://example.org/pkg" in
  let pre := [ (Sample.stm pkg uri_nstype (typePackage Sample.helpers), 1%Z) ] in
  let p := default NewParser (stateOf (parseLoop Sample.helpers pre NewParser)) in
  let b := packageMap Sample.helpers 0 in
  let t := typeFile Sample.helpers in
  processTruple Sample.helpers
    {| Subject := pkg; Predicate := uri_nstype; Object := t |} (Some (NewMetaL 2)) p =
  if compatibleTypes Sample.helpers (bldr_t b) t then Ok tt p
  else Err (NewParseError
              (Sprintf msgIncompatibleTypes [ArgTerm pkg; ArgTerm (bldr_t b); ArgTerm t])
              (Some (NewMetaL 2))) p.
Proof.
  intros pkg pre p b t.
  apply (resolved_type_is_final Sample.helpers pkg t (Some (NewMetaL 2)) p b).
  - vm_compute. reflexivity.
  - exists pre. vm_compute. reflexivity.
  - vm_compute. reflexivity.
  - intros Hin.
    repeat (apply elem_of_cons in Hin as [Hin|Hin]; [vm_compute in Hin; discriminate Hin|]).
    by apply elem_of_nil in Hin.
Defined.

Lemma list_property_appends_witness :
  let file := Uri "http://example.org/file" in
  let pre := [ (Sample.stm file uri_nstype (typeFile Sample.helpers), 1%Z) ] in
  let p := default NewParser (stateOf (parseLoop Sample.helpers pre NewParser)) in
  let writes := [ (Sample.lit "Ann", Some (NewMetaL 2));
                  (Sample.lit "Bob", Some (NewMetaL 3)) ] in
  forEach writes (fun w =>
    builder_apply Sample.helpers (setType_fuel Sample.helpers 0) (termStr file)
      (Sample.prop "fileContributor") w.1 w.2) p =
  Ok tt (with_heap
           (<[0 := Struct File (Some (NewMetaL 1))
                (<["Contributor" :=
                     VStrs ([] ++ [("Ann", Some (NewMetaL 2)); ("Bob", Some (NewMetaL 3))])]> ∅)]>
              (heap p)) p).
Proof.
  intros file pre p writes.
  assert (index p !! termStr file = Some (Some (fileMap Sample.helpers 0))) as Hb
    by (vm_compute; reflexivity).
  assert (lookupUpdater (bldr_updaters (fileMap Sample.helpers 0))
            (shortPrefix Sample.helpers (Sample.prop "fileContributor"))
          = Some (listClosure false (0, "Contributor"))) as Hf
    by (vm_compute; reflexivity).
  assert (heap p !! (0, "Contributor").1 = Some (Struct File (Some (NewMetaL 1)) ∅))
    as Hh by (vm_compute; reflexivity).
  assert (writes <> []) as Hne by discriminate.
  exact (list_property_appends Sample.helpers (setType_fuel Sample.helpers 0)
           (termStr file) (Sample.prop "fileContributor") false (0, "Contributor")
           writes p (fileMap Sample.helpers 0) File (Some (NewMetaL 1)) ∅
           Hb Hf Hh Hne).
Defined.

Lemma licence_reference_has_no_properties_witness :
  let mit := Uri "http://spdx.org/licenses/MIT" in
  let stm := Sample.stm mit (Sample.prop "name") (Sample.lit "MIT License") in
  exists p',
    processTruple Sample.helpers
      {| Subject := mit; Predicate := uri_nstype; Object := typeLicence Sample.helpers |}
      (Some (NewMetaL 1)) NewParser
    = Ok tt p'
    /\ heap p' = heap NewParser
                 ++ [Licence (TrimPrefix (termStr mit) (licenceUri Sample.helpers))
                       (Some (NewMetaL 1))]
    /\ index p' !! termStr mit =
       Some (Some {| bldr_t := typeLicence Sample.helpers;
                     bldr_ptr := length (heap NewParser);
                     bldr_updaters := []; bldr_set := length (heap NewParser) |})
    /\ processTruple Sample.helpers stm (Some (NewMetaL 2)) p' =
       Err (NewParseError
              (Sprintf msgPropertyNotSupported
                 [ArgStr (shortPrefix Sample.helpers (Predicate stm));
                  ArgTerm (typeLicence Sample.helpers)])
              (Some (NewMetaL 2))) p'.
Proof.
  intros mit stm.
  apply (licence_reference_has_no_properties Sample.helpers mit
           (typeLicence Sample.helpers) (Some (NewMetaL 1)) stm (Some (NewMetaL 2))
           NewParser).
  - vm_compute. reflexivity.
  - left. reflexivity.
  - reflexivity.
  - reflexivity.
  - reflexivity.
  - vm_compute. reflexivity.
Defined.

Lemma single_reference_last_write_wins_witness :
  let pkg := Uri "http://example.org/pkg" in
  let ck1 := Uri "http://example.org/ck1" in
  let ck2 := Uri "http://example.org/ck2" in
  let pre := [ (Sample.stm pkg uri_nstype (typePackage Sample.helpers), 1%Z);
               (Sample.stm ck1 uri_nstype (typeChecksum Sample.helpers), 2%Z);
               (Sample.stm ck2 uri_nstype (typeChecksum Sample.helpers), 3%Z) ] in
  let p := default NewParser (stateOf (parseLoop Sample.helpers pre NewParser)) in
  exists p',
    (processTruple Sample.helpers
       {| Subject := pkg; Predicate := Sample.prop "checksum"; Object := ck1 |}
       (Some (NewMetaL 4)) ;;;
     processTruple Sample.helpers
       {| Subject := pkg; Predicate := Sample.prop "checksum"; Object := ck2 |}
       (Some (NewMetaL 5))) p
    = Ok tt p'
    /\ getField (0, "Checksum") p'
       = Ok (Some (VPtr (Some (bldr_ptr (checksumMap Sample.helpers 2))))) p'
    /\ index p' = index p.
Proof.
  intros pkg ck1 ck2 pre p.
  apply (single_reference_last_write_wins Sample.helpers pkg (Sample.prop "checksum")
           ck1 ck2 (Some (NewMetaL 4)) (Some (NewMetaL 5)) p
           (packageMap Sample.helpers 0) reqChecksum (0, "Checksum")
           (checksumMap Sample.helpers 1) (checksumMap Sample.helpers 2)).
  - vm_compute. reflexivity.
  - exists pre. vm_compute. reflexivity.
  - vm_compute. reflexivity.
  - vm_compute. reflexivity.
  - vm_compute. reflexivity.
  - vm_compute. reflexivity.
  - reflexivity.
  - vm_compute. reflexivity.
  - reflexivity.
Defined.

Lemma failed_single_reference_clears_field_witness :
  let pkg := Uri "http://example.org/pkg" in
  let file := Uri "http://example.org/file" in
  let pre := [ (Sample.stm pkg uri_nstype (typePackage Sample.helpers), 1%Z);
               (Sample.stm file uri_nstype (typeFile Sample.helpers), 2%Z) ] in
  let p := default NewParser (stateOf (parseLoop Sample.helpers pre NewParser)) in
  exists p',
    processTruple Sample.helpers
      {| Subject := pkg; Predicate := Sample.prop "checksum"; Object := file |}
      (Some (NewMetaL 3)) p
    = Err (Errorf (Sprintf msgIncompatibleTypes
                     [ArgTerm file; ArgTerm (bldr_t (fileMap Sample.helpers 1));
                      ArgTerm (reqTerm Sample.helpers reqChecksum)])) p'
    /\ getField (0, "Checksum") p' = Ok (Some (VPtr None)) p'
    /\ index p' = index p.
Proof.
  intros pkg file pre p.
  apply (failed_single_reference_clears_field Sample.helpers pkg
           (Sample.prop "checksum") file (Some (NewMetaL 3)) p
           (packageMap Sample.helpers 0) reqChecksum (0, "Checksum")
           (fileMap Sample.helpers 1)).
  - vm_compute. reflexivity.
  - exists pre. vm_compute. reflexivity.
  - vm_compute. reflexivity.
  - vm_compute. reflexivity.
  - vm_compute. reflexivity.
  - vm_compute. reflexivity.
  - vm_compute. reflexivity.
Defined.

Lemma buffer_holds_unresolved_nodes_only_witness :
  let pkg := Uri "http://example.org/pkg" in
  let input := [ (Sample.stm pkg (Sample.prop "name") (Sample.lit "libfoo"), 1%Z);
                 (Sample.stm pkg uri_nstype (typePackage Sample.helpers), 2%Z) ] in
  exists d p, Parse Sample.helpers input = Returned d None p
              /\ buffer p !! termStr pkg = None.
Proof.
  intros pkg input.
  destruct (Parse Sample.helpers input) as [d [e|] p| |] eqn:Hrun;
    [vm_compute in Hrun; discriminate Hrun | | vm_compute in Hrun; discriminate Hrun ..].
  exists d, p. split; [reflexivity|].
  apply (buffer_holds_unresolved_nodes_only Sample.helpers input d p (termStr pkg) Hrun).
  vm_compute in Hrun. injection Hrun as _ <-. vm_compute. eauto.
Defined.

Lemma Parse_panics_on_nil_builder_only_witness :
  let pkg := Uri "http://example.org/pkg" in
  let input := [ (Sample.stm pkg uri_nstype (typePackage Sample.helpers), 1%Z);
                 (Sample.stm pkg (Sample.prop "licenseConcluded") (Sample.lit "MIT"), 2%Z) ] in
  exists p, Parse Sample.helpers input = Panicked p
            /\ exists k, index p !! k = Some None.
Proof.
  intros pkg input.
  destruct (Parse Sample.helpers input) as [| p |] eqn:Hrun;
    [vm_compute in Hrun; discriminate Hrun | | vm_compute in Hrun; discriminate Hrun].
  exists p. split; [reflexivity|].
  apply (Parse_panics_on_nil_builder_only Sample.helpers input p); [|exact Hrun].
  vm_compute. reflexivity.
Defined.

Lemma resolved_nodes_well_kinded_witness :
  let pkg := Uri "http://example.org/pkg" in
  let input := [ (Sample.stm pkg uri_nstype (typePackage Sample.helpers), 1%Z);
                 (Sample.stm pkg (Sample.prop "name") (Sample.lit "libfoo"), 2%Z) ] in
  let p := default NewParser (stateOf (parseLoop Sample.helpers input NewParser)) in
  let ob := default None (index p !! termStr pkg) in
  exists b bk e,
    ob = Some b /\ bldr_t b = kindTerm Sample.helpers bk
    /\ heap p !! bldr_ptr b = Some e /\ shapeOf e = kindShape bk
    /\ unsetTable (bldr_updaters b) = kindTable Sample.helpers bk (bldr_ptr b).
Proof.
  intros pkg input p ob.
  apply (resolved_nodes_well_kinded Sample.helpers input None None p (termStr pkg) ob).
  - vm_compute. reflexivity.
  - vm_compute. reflexivity.
  - vm_compute. reflexivity.
Defined.

Lemma resolved_node_keeps_its_kind_witness :
  let s := Blank "set" in
  let pre := [ (Sample.stm s uri_nstype typeAbstractLicenceSet, 1%Z) ] in
  let rest := [ (Sample.stm s uri_nstype (typeConjunctiveSet Sample.helpers), 2%Z) ] in
  let p1 := default NewParser (stateOf (parseLoop Sample.helpers pre NewParser)) in
  let p2 := default NewParser (stateOf (parseLoop Sample.helpers (pre ++ rest) NewParser)) in
  let b := licenceSetMap 0 in
  exists b',
    index p2 !! termStr s = Some (Some b')
    /\ unsetTable (bldr_updaters b') = unsetTable (bldr_updaters b)
    /\ (bldr_t b' = bldr_t b /\ bldr_ptr b' = bldr_ptr b
        \/ bldr_t b = typeAbstractLicenceSet
           /\ bldr_t b' ∈ [typeConjunctiveSet Sample.helpers;
                           typeDisjunctiveSet Sample.helpers]).
Proof.
  intros s pre rest p1 p2 b.
  apply (resolved_node_keeps_its_kind Sample.helpers pre rest p1 (doc p2) None p2
           (termStr s) b).
  - vm_compute. reflexivity.
  - vm_compute. reflexivity.
  - vm_compute. reflexivity.
  - vm_compute. reflexivity.
Defined.

Lemma no_document_without_its_type_witness :
  let pkg := Uri "http://example.org/pkg" in
  let input := [ (Sample.stm pkg uri_nstype (typePackage Sample.helpers), 1%Z);
                 (Sample.stm pkg (Sample.prop "name") (Sample.lit "libfoo"), 2%Z) ] in
  exists d err p, Parse Sample.helpers input = Returned d err p /\ d = None.
Proof.
  intros pkg input.
  destruct (Parse Sample.helpers input) as [d err p| |] eqn:Hrun;
    [| vm_compute in Hrun; discriminate Hrun ..].
  exists d, err, p. split; [reflexivity|].
  apply (no_document_without_its_type Sample.helpers input d err p); [| |exact Hrun].
  - vm_compute. reflexivity.
  - repeat constructor.
Defined.

Lemma statements_before_or_after_type_witness :
  let pkg := Uri "http://example.org/pkg" in
  let stms := [ (Sample.stm pkg (Sample.prop "name") (Sample.lit "libfoo"), 1%Z);
                (Sample.stm pkg (Sample.prop "versionInfo") (Sample.lit "1.0"), 2%Z) ] in
  let typeStm := ({| Subject := pkg; Predicate := uri_nstype;
                     Object := typePackage Sample.helpers |}, 3%Z) in
  mapOutcome (strip (termStr pkg)) (Parse Sample.helpers ([] ++ stms ++ typeStm :: [])) =
  mapOutcome (strip (termStr pkg)) (Parse Sample.helpers ([] ++ typeStm :: stms ++ [])).
Proof.
  intros pkg stms typeStm.
  apply (statements_before_or_after_type Sample.helpers [] stms []
           pkg (typePackage Sample.helpers) 3%Z NewParser).
  - reflexivity.
  - reflexivity.
  - repeat constructor.
Defined.

Lemma unsupported_property_rejected_witness :
  let pkg := Uri "http://example.org/pkg" in
  let pre := [ (Sample.stm pkg uri_nstype (typePackage Sample.helpers), 1%Z) ] in
  let p := default NewParser (stateOf (parseLoop Sample.helpers pre NewParser)) in
  let stm := Sample.stm pkg (Sample.prop "fileName") (Sample.lit "a.c") in
  let b := packageMap Sample.helpers 0 in
  processTruple Sample.helpers stm (Some (NewMetaL 2)) p =
  Err (NewParseError
         (Sprintf msgPropertyNotSupported
            [ArgStr (shortPrefix Sample.helpers (Predicate stm)); ArgTerm (bldr_t b)])
         (Some (NewMetaL 2))) p.
Proof.
  intros pkg pre p stm b.
  apply (unsupported_property_rejected Sample.helpers stm (Some (NewMetaL 2)) p b
           (KStruct reqPackage)).
  - vm_compute. reflexivity.
  - exists pre. vm_compute. reflexivity.
  - vm_compute. reflexivity.
  - vm_compute. reflexivity.
  - reflexivity.
  - vm_compute. reflexivity.
Defined.

Lemma artifact_records_its_uri_witness :
  let prj := Uri "http://example.org/project" in
  exists p',
    processTruple Sample.helpers
      {| Subject := prj; Predicate := uri_nstype;
         Object := typeArtifactOf Sample.helpers |} (Some (NewMetaL 1)) NewParser
    = Ok tt p'
    /\ index p' !! termStr prj
       = Some (Some (artifactOfMap Sample.helpers (length (heap NewParser))))
    /\ heap p' = heap NewParser
                 ++ [Struct ArtifactOf (Some (NewMetaL 1))
                       match prj with
                       | Uri u => {[ "ProjectUri" := VStr u (Some (NewMetaL 1)) ]}
                       | _ => ∅
                       end].
Proof.
  intros prj.
  apply (artifact_records_its_uri Sample.helpers prj (Some (NewMetaL 1)) NewParser).
  - vm_compute. reflexivity.
  - reflexivity.
  - reflexivity.
Defined.

Lemma document_is_the_last_one_typed_witness :
  let d1 := Uri "http://example.org/doc1" in
  let d2 := Uri "http://example.org/doc2" in
  let pre := [ (Sample.stm d1 uri_nstype (typeDocument Sample.helpers), 1%Z) ] in
  let rest := [ (Sample.stm d1 (Sample.prop "specVersion") (Sample.lit "SPDX-1.2"), 3%Z) ] in
  let p := default NewParser (stateOf (parseLoop Sample.helpers pre NewParser)) in
  let input := pre ++ ({| Subject := d2; Predicate := uri_nstype;
                          Object := typeDocument Sample.helpers |}, 2%Z) :: rest in
  let q := default NewParser (stateOf (parseLoop Sample.helpers input NewParser)) in
  doc q = Some (length (heap p))
  /\ exists meta fields, heap q !! length (heap p) = Some (Struct Document meta fields).
Proof.
  intros d1 d2 pre rest p input q.
  apply (document_is_the_last_one_typed Sample.helpers pre d2 2%Z rest p (doc q) None q).
  - vm_compute. reflexivity.
  - vm_compute. reflexivity.
  - vm_compute. reflexivity.
  - repeat constructor.
  - vm_compute. reflexivity.
Defined.

Lemma licence_reference_to_new_blank_node_fails_witness :
  let pkg := Uri "http://example.org/pkg" in
  let pre := [ (Sample.stm pkg uri_nstype (typePackage Sample.helpers), 1%Z) ] in
  let p := default NewParser (stateOf (parseLoop Sample.helpers pre NewParser)) in
  exists p',
    processTruple Sample.helpers
      {| Subject := pkg; Predicate := Sample.prop "licenseConcluded";
         Object := Blank "set" |} (Some (NewMetaL 2)) p
    = Err (Errorf (Sprintf msgUnexpected
                     [ArgTerm (Blank "set"); ArgPtr (length (heap p))])) p'
    /\ index p' !! termStr (Blank "set") = Some (Some (licenceSetMap (length (heap p))))
    /\ heap p' !! length (heap p) = Some (LicenceSet AbstractSet [] None).
Proof.
  intros pkg pre p.
  apply (licence_reference_to_new_blank_node_fails Sample.helpers pkg
           (Sample.prop "licenseConcluded") "set" (Some (NewMetaL 2)) p
           (packageMap Sample.helpers 0) (licAssign (0, "LicenceConcluded"))).
  - vm_compute. reflexivity.
  - exists pre. vm_compute. reflexivity.
  - vm_compute. reflexivity.
  - vm_compute. reflexivity.
  - vm_compute. reflexivity.
  - left. exists (0, "LicenceConcluded"). left. reflexivity.
  - vm_compute. reflexivity.
  - vm_compute. reflexivity.
  - vm_compute. reflexivity.
Defined.

Lemma list_reference_appends_or_fails_witness :
  let d := Uri "http://example.org/doc" in
  let pkg := Uri "http://example.org/pkg" in
  let pre := [ (Sample.stm d uri_nstype (typeDocument Sample.helpers), 1%Z);
               (Sample.stm pkg uri_nstype (typePackage Sample.helpers), 2%Z) ] in
  let p := default NewParser (stateOf (parseLoop Sample.helpers pre NewParser)) in
  let arr : fieldptr := (0, "Packages") in
  let bM := packageMap Sample.helpers 1 in
  exists ty m fs,
    heap p !! arr.1 = Some (Struct ty m fs)
    /\ processTruple Sample.helpers
         {| Subject := d; Predicate := Sample.prop "describesPackage"; Object := pkg |}
         (Some (NewMetaL 3)) p =
       if compatibleTypes Sample.helpers (bldr_t bM) (reqTerm Sample.helpers reqPackage) then
         Ok tt (with_heap
                  (<[arr.1 := Struct ty m
                       (<[arr.2 := VPtrs (match fs !! arr.2 with
                                          | Some (VPtrs l) => l
                                          | _ => []
                                          end ++ [bldr_ptr bM])]> fs)]> (heap p)) p)
       else
         Err (Errorf (Sprintf msgIncompatibleTypes
                        [ArgTerm pkg; ArgTerm (bldr_t bM);
                         ArgTerm (reqTerm Sample.helpers reqPackage)])) p.
Proof.
  intros d pkg pre p arr bM.
  apply (list_reference_appends_or_fails Sample.helpers d
           (Sample.prop "describesPackage") pkg (Some (NewMetaL 3)) p
           (documentMap Sample.helpers 0) reqPackage arr bM).
  - vm_compute. reflexivity.
  - exists pre. vm_compute. reflexivity.
  - vm_compute. reflexivity.
  - vm_compute. reflexivity.
  - vm_compute. reflexivity.
  - vm_compute. reflexivity.
Defined.
